(** * TinyLang: semantic analysis, TAC generation, optimisation, bytecode and VM

    A shallow embedding of [src/semantic_codegen.py] (with the AST classes of
    [src/lexer_parser.py]) and the verification of its specification.

    Python objects are modelled as follows.
    - [int] is unbounded: [Z].  [bool] is a subclass of [int]; both pass
      [isinstance(_, int)], and a [bool] takes part in arithmetic and in
      comparisons as [1] or [0], but prints as [True] / [False].
    - [dict] is a [gmap], [set] is a [gset], [list] is [list].
    - [Optional[str]] is [option string].
    - the classes keep their state in records that are passed explicitly. *)

From stdpp Require Import base strings gmap list pretty.
From Stdlib Require Import ZArith Ascii.

Set Warnings "-clear-no-such-hyp,-register-all".

(** ** Python values *)

(** The values that can sit in an operand of an instruction, in the constant
    table of the optimiser, on the VM stack and in the VM variables. *)
Inductive value :=
  | VInt (z : Z)
  | VBool (b : bool).

Global Instance value_eq_dec : EqDecision value.
Proof. solve_decision. Defined.

(** The integer a value stands for in arithmetic and comparison
    ([True] is [1], [False] is [0]). *)
Definition int_of (v : value) : Z :=
  match v with
  | VInt z => z
  | VBool b => if b then 1%Z else 0%Z
  end.

(** Python truth value of a number. *)
Definition truthy (v : value) : bool := negb (int_of v =? 0)%Z.

(** [str(v)]. *)
Definition py_str (v : value) : string :=
  match v with
  | VInt z => pretty z
  | VBool true => "True"
  | VBool false => "False"
  end.

(** [a // b] and [a % b] of Python are floored, as [Z.div] and [Z.modulo]. *)
Definition py_floordiv (a b : Z) : Z := (a `div` b)%Z.
Definition py_mod (a b : Z) : Z := (a `mod` b)%Z.

(** An operand slot ([arg1], [arg2] of a TAC instruction, [arg] of a
    bytecode instruction): [None], a number, or a string. *)
Inductive operand :=
  | ONone
  | OImm (v : value)
  | OName (s : string).

Global Instance operand_eq_dec : EqDecision operand.
Proof. solve_decision. Defined.

(** [isinstance(x, int)]. *)
Definition isinstance_int (x : operand) : option value :=
  match x with
  | OImm v => Some v
  | _ => None
  end.

(** [x == n] for an operand [x] and an integer literal [n]. *)
Definition operand_eq_int (x : operand) (n : Z) : bool :=
  match x with
  | OImm v => (int_of v =? n)%Z
  | _ => false
  end.

(** [s.startswith('t')]. *)
Definition startswith_t (s : string) : bool :=
  match s with
  | String c _ => bool_decide (c = "t"%char)
  | EmptyString => false
  end.

(** ** AST ([lexer_parser.py]) *)

(** ['int'] and ['bool'], the two strings a [var_type] / [lit_type] takes. *)
Inductive type_name := int_t | bool_t.

Global Instance type_name_eq_dec : EqDecision type_name.
Proof. solve_decision. Defined.

Definition type_str (t : type_name) : string :=
  match t with int_t => "int" | bool_t => "bool" end.

(** The operator strings the [ASTBuilder] produces. *)
Inductive binop :=
  | op_add | op_sub | op_mul | op_div | op_mod
  | op_lt | op_gt | op_lte | op_gte
  | op_eq | op_neq
  | op_and | op_or.

Inductive unop := op_minus | op_not.

Definition binop_str (o : binop) : string :=
  match o with
  | op_add => "+" | op_sub => "-" | op_mul => "*" | op_div => "/"
  | op_mod => "%" | op_lt => "<" | op_gt => ">" | op_lte => "<="
  | op_gte => ">=" | op_eq => "==" | op_neq => "!=" | op_and => "&&"
  | op_or => "||"
  end.

Inductive expr :=
  | BinaryOp (o : binop) (left right : expr)
  | UnaryOp (o : unop) (arg : expr)
  | Literal (v : value) (lit_type : type_name)
  | VarRef (name : string).   (* class [Variable] *)

Inductive stmt :=
  | VarDecl (var_type : type_name) (name : string) (init : option expr)
  | Assignment (name : string) (e : expr)
  | IfStmt (condition : expr) (then_block : list stmt)
           (else_block : option (list stmt))
  | WhileStmt (condition : expr) (body : list stmt)
  | PrintStmt (expression : expr).

(** [Program(statements)]. *)
Definition Program := list stmt.

(** ** Three-address code *)

Module TACOp.
Inductive t :=
  | ADD | SUB | MUL | DIV | MOD | NEG
  | LT | GT | LTE | GTE | EQ | NEQ
  | AND | OR | NOT
  | ASSIGN | COPY
  | LABEL | GOTO | IF_FALSE | IF_TRUE
  | PRINT.

Global Instance eq_dec : EqDecision t.
Proof. solve_decision. Defined.

(** [op in [ADD, SUB, MUL, DIV, MOD]]. *)
Definition is_arith (o : t) : bool :=
  match o with
  | ADD | SUB | MUL | DIV | MOD => true
  | _ => false
  end.
End TACOp.

Record TACInstruction := TACInstr {
  op : TACOp.t;
  arg1 : operand;
  arg2 : operand;
  result : option string
}.

Global Instance TACInstruction_eq_dec : EqDecision TACInstruction.
Proof. solve_decision. Defined.

Module TACGenerator.
Record t := mk {
  instructions : list TACInstruction;
  temp_counter : nat;
  label_counter : nat
}.

Definition init : t := mk [] 0 0.

Definition temp_name (n : nat) : string := "t" +:+ pretty n.
Definition label_name (n : nat) : string := "L" +:+ pretty n.

Definition new_temp (g : t) : string * t :=
  (temp_name (temp_counter g),
   mk (instructions g) (S (temp_counter g)) (label_counter g)).

Definition new_label (g : t) : string * t :=
  (label_name (label_counter g),
   mk (instructions g) (temp_counter g) (S (label_counter g))).

Definition emit (o : TACOp.t) (a1 a2 : operand) (r : option string)
    (g : t) : t :=
  mk (instructions g ++ [TACInstr o a1 a2 r])
     (temp_counter g) (label_counter g).

Definition binop_map (o : binop) : TACOp.t :=
  match o with
  | op_add => TACOp.ADD | op_sub => TACOp.SUB | op_mul => TACOp.MUL
  | op_div => TACOp.DIV | op_mod => TACOp.MOD
  | op_lt => TACOp.LT | op_gt => TACOp.GT
  | op_lte => TACOp.LTE | op_gte => TACOp.GTE
  | op_eq => TACOp.EQ | op_neq => TACOp.NEQ
  | op_and => TACOp.AND | op_or => TACOp.OR
  end.

Definition unop_map (o : unop) : TACOp.t :=
  match o with op_minus => TACOp.NEG | op_not => TACOp.NOT end.

(** [generate] on an expression node: returns the name holding the result. *)
Fixpoint generate_expr (e : expr) (g : t) : string * t :=
  match e with
  | BinaryOp o l r =>
      let '(left_temp, g) := generate_expr l g in
      let '(right_temp, g) := generate_expr r g in
      let '(result_temp, g) := new_temp g in
      (result_temp,
       emit (binop_map o) (OName left_temp) (OName right_temp)
            (Some result_temp) g)
  | UnaryOp o x =>
      let '(operand_temp, g) := generate_expr x g in
      let '(result_temp, g) := new_temp g in
      (result_temp,
       emit (unop_map o) (OName operand_temp) ONone (Some result_temp) g)
  | Literal v _ =>
      let '(temp, g) := new_temp g in
      (temp, emit TACOp.ASSIGN (OImm v) ONone (Some temp) g)
  | VarRef name => (name, g)
  end.

(** [generate] on a statement node (it returns [None]). *)
Fixpoint generate_stmt (s : stmt) (g : t) : t :=
  match s with
  | VarDecl _ name init =>
      match init with
      | Some e =>
          let '(value_temp, g) := generate_expr e g in
          emit TACOp.ASSIGN (OName value_temp) ONone (Some name) g
      | None => g
      end
  | Assignment name e =>
      let '(value_temp, g) := generate_expr e g in
      emit TACOp.ASSIGN (OName value_temp) ONone (Some name) g
  | IfStmt c then_block else_block =>
      let '(cond_temp, g) := generate_expr c g in
      let '(else_label, g) := new_label g in
      let '(end_label, g) := new_label g in
      let g := emit TACOp.IF_FALSE (OName cond_temp) ONone
                    (Some else_label) g in
      let g := fold_left (fun g s => generate_stmt s g) then_block g in
      let g := emit TACOp.GOTO ONone ONone (Some end_label) g in
      let g := emit TACOp.LABEL ONone ONone (Some else_label) g in
      let g :=
        match else_block with
        | Some (s0 :: rest) =>
            fold_left (fun g s => generate_stmt s g) (s0 :: rest) g
        | _ => g
        end in
      emit TACOp.LABEL ONone ONone (Some end_label) g
  | WhileStmt c body =>
      let '(start_label, g) := new_label g in
      let '(end_label, g) := new_label g in
      let g := emit TACOp.LABEL ONone ONone (Some start_label) g in
      let '(cond_temp, g) := generate_expr c g in
      let g := emit TACOp.IF_FALSE (OName cond_temp) ONone
                    (Some end_label) g in
      let g := fold_left (fun g s => generate_stmt s g) body g in
      let g := emit TACOp.GOTO ONone ONone (Some start_label) g in
      emit TACOp.LABEL ONone ONone (Some end_label) g
  | PrintStmt e =>
      let '(expr_temp, g) := generate_expr e g in
      emit TACOp.PRINT (OName expr_temp) ONone None g
  end.

(** [generate] on a [Program] node. *)
Definition generate (p : Program) (g : t) : t :=
  fold_left (fun g s => generate_stmt s g) p g.
End TACGenerator.

(** ** Symbol table *)

Module Symbol.
Record t := mk {
  name : string;
  var_type : type_name;
  scope_level : nat;
  initialized : bool
}.

Global Instance eq_dec : EqDecision t.
Proof. solve_decision. Defined.
End Symbol.

Module SymbolTable.
(** [scopes] is the stack of scopes, innermost last; [current_scope] is the
    index of the innermost one.  [self.scopes[self.current_scope]] is read
    with the total lookup [!!!]: the index is in range in every table the
    methods build from [init] (see [wf]), so the [IndexError] of an
    out-of-range index never arises. *)
Record t := mk {
  scopes : list (gmap string Symbol.t);
  current_scope : nat
}.

Definition init : t := mk [∅] 0.

Definition wf (st : t) : Prop := length (scopes st) = S (current_scope st).

Definition enter_scope (st : t) : t :=
  mk (scopes st ++ [∅]) (S (current_scope st)).

Definition exit_scope (st : t) : t :=
  if decide (0 < current_scope st)
  then mk (removelast (scopes st)) (current_scope st - 1)
  else st.

Definition declare (name : string) (var_type : type_name) (st : t)
    : bool * t :=
  let scope := scopes st !!! current_scope st in
  match scope !! name with
  | Some _ => (false, st)
  | None =>
      (true,
       mk (<[current_scope st :=
              <[name := Symbol.mk name var_type (current_scope st) true]>
                scope]> (scopes st))
          (current_scope st))
  end.

(** The loop [for i in range(current_scope, -1, -1)]. *)
Fixpoint lookup_from (name : string) (scs : list (gmap string Symbol.t))
    (i : nat) : option Symbol.t :=
  match (scs !!! i) !! name with
  | Some s => Some s
  | None =>
      match i with
      | 0 => None
      | S j => lookup_from name scs j
      end
  end.

Definition lookup (name : string) (st : t) : option Symbol.t :=
  lookup_from name (scopes st) (current_scope st).

Definition get_all_symbols (st : t) : list Symbol.t :=
  concat (map (fun scope => (map snd (map_to_list scope))) (scopes st)).
End SymbolTable.

(** ** Semantic analyser *)

Module SemanticAnalyzer.
Record t := mk {
  symbol_table : SymbolTable.t;
  errors : list string
}.

Definition init : t := mk SymbolTable.init [].

Definition error (message : string) (a : t) : t :=
  mk (symbol_table a) (errors a ++ [message]).

Definition with_table (f : SymbolTable.t → SymbolTable.t) (a : t) : t :=
  mk (f (symbol_table a)) (errors a).

(** The messages, as the f-strings build them. *)
Definition msg_redeclared (name : string) : string :=
  "Variable '" +:+ name +:+ "' already declared in this scope".
Definition msg_undeclared (name : string) : string :=
  "Undeclared variable '" +:+ name +:+ "'".
Definition msg_mismatch (value_type var_type : type_name) (name : string)
    : string :=
  "Type mismatch: cannot assign " +:+ type_str value_type +:+ " to "
    +:+ type_str var_type +:+ " variable '" +:+ name +:+ "'".
Definition msg_if (cond_type : type_name) : string :=
  "If condition must be bool, got " +:+ type_str cond_type.
Definition msg_while (cond_type : type_name) : string :=
  "While condition must be bool, got " +:+ type_str cond_type.
Definition msg_arith (o : binop) : string :=
  "Arithmetic operator '" +:+ binop_str o +:+ "' requires int operands".
Definition msg_compare (o : binop) : string :=
  "Comparison operator '" +:+ binop_str o +:+ "' requires int operands".
Definition msg_same (left_type right_type : type_name) : string :=
  "Comparison requires same types, got " +:+ type_str left_type
    +:+ " and " +:+ type_str right_type.
Definition msg_logical (o : binop) : string :=
  "Logical operator '" +:+ binop_str o +:+ "' requires bool operands".
Definition msg_minus : string := "Unary minus requires int operand".
Definition msg_not : string := "Logical NOT requires bool operand".

(** [analyze] on an expression node: returns its type.  Every expression
    node built from the operators of the grammar returns ['int'] or
    ['bool'], never [None]. *)
Fixpoint analyze_expr (e : expr) (a : t) : type_name * t :=
  match e with
  | BinaryOp o l r =>
      let '(left_type, a) := analyze_expr l a in
      let '(right_type, a) := analyze_expr r a in
      match o with
      | op_add | op_sub | op_mul | op_div | op_mod =>
          (int_t,
           if bool_decide (left_type ≠ int_t ∨ right_type ≠ int_t)
           then error (msg_arith o) a else a)
      | op_lt | op_gt | op_lte | op_gte =>
          (bool_t,
           if bool_decide (left_type ≠ int_t ∨ right_type ≠ int_t)
           then error (msg_compare o) a else a)
      | op_eq | op_neq =>
          (bool_t,
           if bool_decide (left_type ≠ right_type)
           then error (msg_same left_type right_type) a else a)
      | op_and | op_or =>
          (bool_t,
           if bool_decide (left_type ≠ bool_t ∨ right_type ≠ bool_t)
           then error (msg_logical o) a else a)
      end
  | UnaryOp o x =>
      let '(operand_type, a) := analyze_expr x a in
      match o with
      | op_minus =>
          (int_t,
           if bool_decide (operand_type ≠ int_t)
           then error msg_minus a else a)
      | op_not =>
          (bool_t,
           if bool_decide (operand_type ≠ bool_t)
           then error msg_not a else a)
      end
  | Literal _ lit_type => (lit_type, a)
  | VarRef name =>
      match SymbolTable.lookup name (symbol_table a) with
      | None => (int_t, error (msg_undeclared name) a)
      | Some symbol => (Symbol.var_type symbol, a)
      end
  end.

(** [analyze] on a statement node (it returns [None]). *)
Fixpoint analyze_stmt (s : stmt) (a : t) : t :=
  match s with
  | VarDecl var_type name init =>
      let '(ok, st) := SymbolTable.declare name var_type (symbol_table a) in
      let a := mk st (errors a) in
      let a := if ok then a else error (msg_redeclared name) a in
      match init with
      | Some e =>
          let '(value_type, a) := analyze_expr e a in
          if bool_decide (value_type ≠ var_type)
          then error (msg_mismatch value_type var_type name) a
          else a
      | None => a
      end
  | Assignment name e =>
      match SymbolTable.lookup name (symbol_table a) with
      | None => error (msg_undeclared name) a
      | Some symbol =>
          let '(value_type, a) := analyze_expr e a in
          if bool_decide (value_type ≠ Symbol.var_type symbol)
          then error (msg_mismatch value_type (Symbol.var_type symbol) name) a
          else a
      end
  | IfStmt c then_block else_block =>
      let '(cond_type, a) := analyze_expr c a in
      let a := if bool_decide (cond_type ≠ bool_t)
               then error (msg_if cond_type) a else a in
      let a := with_table SymbolTable.enter_scope a in
      let a := fold_left (fun a s => analyze_stmt s a) then_block a in
      let a := with_table SymbolTable.exit_scope a in
      match else_block with
      | Some (s0 :: rest) =>
          let a := with_table SymbolTable.enter_scope a in
          let a := fold_left (fun a s => analyze_stmt s a) (s0 :: rest) a in
          with_table SymbolTable.exit_scope a
      | _ => a
      end
  | WhileStmt c body =>
      let '(cond_type, a) := analyze_expr c a in
      let a := if bool_decide (cond_type ≠ bool_t)
               then error (msg_while cond_type) a else a in
      let a := with_table SymbolTable.enter_scope a in
      let a := fold_left (fun a s => analyze_stmt s a) body a in
      with_table SymbolTable.exit_scope a
  | PrintStmt e => snd (analyze_expr e a)
  end.

(** [analyze] on a [Program] node. *)
Definition analyze (p : Program) (a : t) : t :=
  fold_left (fun a s => analyze_stmt s a) p a.

(** A program is well typed when a fresh analyser records no error. *)
Definition well_typed (p : Program) : bool :=
  bool_decide (errors (analyze p init) = []).
End SemanticAnalyzer.

(** ** TAC optimiser *)

Module TACOptimizer.
(** [constants.get(x, x)].  The keys of [constants] are [result] fields
    ([None] or a string), so a number is never found and is returned as it
    is. *)
Definition constants_get (constants : gmap (option string) value)
    (x : operand) : operand :=
  match x with
  | ONone => from_option OImm x (constants !! None)
  | OName s => from_option OImm x (constants !! Some s)
  | OImm _ => x
  end.

(** The folded value of [val1 op val2] for the five arithmetic operators
    (the result of Python arithmetic on [int] or [bool] is an [int]). *)
Definition fold_value (o : TACOp.t) (val1 val2 : value) : Z :=
  let a := int_of val1 in
  let b := int_of val2 in
  match o with
  | TACOp.ADD => a + b
  | TACOp.SUB => a - b
  | TACOp.MUL => a * b
  | TACOp.DIV => if bool_decide (b ≠ 0) then py_floordiv a b else 0
  | TACOp.MOD => if bool_decide (b ≠ 0) then py_mod a b else 0
  | _ => 0
  end%Z.

(** One iteration of the loop of [constant_folding]: the instruction it
    appends to [optimized], and [constants] after it. *)
Definition fold_instr (constants : gmap (option string) value)
    (instr : TACInstruction)
    : TACInstruction * gmap (option string) value :=
  match op instr, isinstance_int (arg1 instr) with
  | TACOp.ASSIGN, Some v => (instr, <[result instr := v]> constants)
  | _, _ =>
      if TACOp.is_arith (op instr) then
        let val1 := constants_get constants (arg1 instr) in
        let val2 := constants_get constants (arg2 instr) in
        match isinstance_int val1, isinstance_int val2 with
        | Some v1, Some v2 =>
            let r := VInt (fold_value (op instr) v1 v2) in
            (TACInstr TACOp.ASSIGN (OImm r) ONone (result instr),
             <[result instr := r]> constants)
        | _, _ => (instr, constants)
        end
      else (instr, constants)
  end.

Definition fold_step
    (st : list TACInstruction * gmap (option string) value)
    (instr : TACInstruction)
    : list TACInstruction * gmap (option string) value :=
  let '(optimized, constants) := st in
  let '(folded, constants) := fold_instr constants instr in
  (optimized ++ [folded], constants).

(** The loop of [constant_folding], from given [constants]. *)
Definition fold_from (constants : gmap (option string) value)
    (instructions : list TACInstruction)
    : list TACInstruction * gmap (option string) value :=
  fold_left fold_step instructions ([], constants).

Definition fold_loop (instructions : list TACInstruction)
    : list TACInstruction * gmap (option string) value :=
  fold_from ∅ instructions.

Definition constant_folding (instructions : list TACInstruction)
    : list TACInstruction :=
  fst (fold_loop instructions).

(** The local [constants] of [constant_folding] when the loop ends. *)
Definition folding_constants (instructions : list TACInstruction)
    : gmap (option string) value :=
  snd (fold_loop instructions).

(** [x and isinstance(x, str)]: a non-empty string. *)
Definition used_name (x : operand) : gset string :=
  match x with
  | OName s => if decide (s = "") then ∅ else {[ s ]}
  | _ => ∅
  end.

(** First pass of [dead_code_elimination]. *)
Definition collect_used (instructions : list TACInstruction) : gset string :=
  fold_left (fun used_vars instr =>
               used_vars ∪ used_name (arg1 instr) ∪ used_name (arg2 instr))
            instructions ∅.

(** [instr.op == ASSIGN and instr.result and instr.result.startswith('t')]. *)
Definition assigns_t (instr : TACInstruction) : bool :=
  match op instr, result instr with
  | TACOp.ASSIGN, Some r => startswith_t r
  | _, _ => false
  end.

(** Second pass of [dead_code_elimination]: whether the iteration appends
    the instruction. *)
Definition dce_keeps (used_vars : gset string) (instr : TACInstruction)
    : bool :=
  if assigns_t instr then
    match result instr with
    | Some r => bool_decide (r ∈ used_vars)
    | None => false
    end
  else true.

Definition dce_step (used_vars : gset string)
    (optimized : list TACInstruction) (instr : TACInstruction)
    : list TACInstruction :=
  if dce_keeps used_vars instr then optimized ++ [instr] else optimized.

Definition dead_code_elimination (instructions : list TACInstruction)
    : list TACInstruction :=
  let used_vars := collect_used instructions in
  fold_left (dce_step used_vars) instructions [].

Definition simplify_instr (instr : TACInstruction) : TACInstruction :=
  match op instr with
  | TACOp.ADD =>
      if operand_eq_int (arg2 instr) 0 then
        TACInstr TACOp.COPY (arg1 instr) ONone (result instr)
      else if operand_eq_int (arg1 instr) 0 then
        TACInstr TACOp.COPY (arg2 instr) ONone (result instr)
      else instr
  | TACOp.MUL =>
      if operand_eq_int (arg2 instr) 1 then
        TACInstr TACOp.COPY (arg1 instr) ONone (result instr)
      else if operand_eq_int (arg1 instr) 1 then
        TACInstr TACOp.COPY (arg2 instr) ONone (result instr)
      else if operand_eq_int (arg2 instr) 0 || operand_eq_int (arg1 instr) 0
      then TACInstr TACOp.ASSIGN (OImm (VInt 0)) ONone (result instr)
      else instr
  | _ => instr
  end.

Definition algebraic_simplification (instructions : list TACInstruction)
    : list TACInstruction :=
  fold_left (fun optimized instr => optimized ++ [simplify_instr instr])
            instructions [].

Definition optimize (instructions : list TACInstruction)
    : list TACInstruction :=
  let instructions := constant_folding instructions in
  let instructions := dead_code_elimination instructions in
  let instructions := algebraic_simplification instructions in
  instructions.
End TACOptimizer.

(** ** Bytecode *)

Module BytecodeOp.
Inductive t :=
  | PUSH | LOAD | STORE
  | ADD | SUB | MUL | DIV | MOD | NEG
  | LT | GT | LTE | GTE | EQ | NEQ
  | AND | OR | NOT
  | JUMP | JUMP_IF_FALSE | LABEL
  | PRINT | HALT.

Global Instance eq_dec : EqDecision t.
Proof. solve_decision. Defined.

(** [op in [JUMP, JUMP_IF_FALSE]]. *)
Definition is_jump (o : t) : bool :=
  match o with
  | JUMP | JUMP_IF_FALSE => true
  | _ => false
  end.
End BytecodeOp.

Record BytecodeInstruction := BytecodeInstr {
  bop : BytecodeOp.t;   (* field [op] *)
  arg : operand
}.

Global Instance BytecodeInstruction_eq_dec : EqDecision BytecodeInstruction.
Proof. solve_decision. Defined.

(** A [result] field ([Optional[str]]) stored in an [arg]. *)
Definition operand_of_result (r : option string) : operand :=
  match r with
  | Some s => OName s
  | None => ONone
  end.

Module BytecodeGenerator.
Record t := mk {
  bytecode : list BytecodeInstruction;
  labels : gmap (option string) nat
}.

Definition init : t := mk [] ∅.

Definition append (i : BytecodeInstruction) (b : t) : t :=
  mk (bytecode b ++ [i]) (labels b).

Definition _load_operand (x : operand) (b : t) : t :=
  match isinstance_int x with
  | Some _ => append (BytecodeInstr BytecodeOp.PUSH x) b
  | None => append (BytecodeInstr BytecodeOp.LOAD x) b
  end.

(** The [op_map] dictionaries of [_generate_instruction]. *)
Definition op_map (o : TACOp.t) : BytecodeOp.t :=
  match o with
  | TACOp.ADD => BytecodeOp.ADD | TACOp.SUB => BytecodeOp.SUB
  | TACOp.MUL => BytecodeOp.MUL | TACOp.DIV => BytecodeOp.DIV
  | TACOp.MOD => BytecodeOp.MOD
  | TACOp.LT => BytecodeOp.LT | TACOp.GT => BytecodeOp.GT
  | TACOp.LTE => BytecodeOp.LTE | TACOp.GTE => BytecodeOp.GTE
  | TACOp.EQ => BytecodeOp.EQ | TACOp.NEQ => BytecodeOp.NEQ
  | TACOp.AND => BytecodeOp.AND | TACOp.OR => BytecodeOp.OR
  | TACOp.NEG => BytecodeOp.NEG | TACOp.NOT => BytecodeOp.NOT
  | _ => BytecodeOp.HALT
  end.

Definition _generate_instruction (instr : TACInstruction) (b : t) : t :=
  let store := BytecodeInstr BytecodeOp.STORE
                 (operand_of_result (result instr)) in
  match op instr with
  | TACOp.ASSIGN => append store (_load_operand (arg1 instr) b)
  | TACOp.COPY =>
      append store (append (BytecodeInstr BytecodeOp.LOAD (arg1 instr)) b)
  | TACOp.ADD | TACOp.SUB | TACOp.MUL | TACOp.DIV | TACOp.MOD
  | TACOp.LT | TACOp.GT | TACOp.LTE | TACOp.GTE | TACOp.EQ | TACOp.NEQ
  | TACOp.AND | TACOp.OR =>
      append store
        (append (BytecodeInstr (op_map (op instr)) ONone)
           (_load_operand (arg2 instr) (_load_operand (arg1 instr) b)))
  | TACOp.NEG | TACOp.NOT =>
      append store
        (append (BytecodeInstr (op_map (op instr)) ONone)
           (_load_operand (arg1 instr) b))
  | TACOp.PRINT =>
      append (BytecodeInstr BytecodeOp.PRINT ONone)
        (_load_operand (arg1 instr) b)
  | TACOp.GOTO =>
      append (BytecodeInstr BytecodeOp.JUMP
                (operand_of_result (result instr))) b
  | TACOp.IF_FALSE =>
      append (BytecodeInstr BytecodeOp.JUMP_IF_FALSE
                (operand_of_result (result instr)))
        (_load_operand (arg1 instr) b)
  | TACOp.LABEL => b
  | TACOp.IF_TRUE => b
  end.

(** One iteration of the first pass of [generate]. *)
Definition first_pass_step (b : t) (instr : TACInstruction) : t :=
  match op instr with
  | TACOp.LABEL =>
      mk (bytecode b) (<[result instr := length (bytecode b)]> (labels b))
  | _ => _generate_instruction instr b
  end.

Definition resolve_instr (labels : gmap (option string) nat)
    (instr : BytecodeInstruction) : BytecodeInstruction :=
  if BytecodeOp.is_jump (bop instr) then
    match arg instr with
    | OName s =>
        match labels !! Some s with
        | Some address =>
            BytecodeInstr (bop instr) (OImm (VInt (Z.of_nat address)))
        | None => instr
        end
    | _ => instr
    end
  else instr.

Definition _resolve_labels (b : t) : t :=
  mk (map (resolve_instr (labels b)) (bytecode b)) (labels b).

Definition generate_from (tac_instructions : list TACInstruction) (b : t)
    : t :=
  let b := fold_left first_pass_step tac_instructions b in
  let b := append (BytecodeInstr BytecodeOp.HALT ONone) b in
  _resolve_labels b.

(** [generate] on a fresh generator; returns [self.bytecode]. *)
Definition generate (tac_instructions : list TACInstruction)
    : list BytecodeInstruction :=
  bytecode (generate_from tac_instructions init).
End BytecodeGenerator.

(** ** Virtual machine *)

Module VirtualMachine.
(** [stack] has its top (the end of the Python list) at the head.
    [variables] is keyed by the [arg] of [STORE], a [result] field.
    [pc] is an integer: a negative one indexes [bytecode] from its end, as
    Python does. *)
Record t := mk {
  stack : list value;
  variables : gmap (option string) value;
  pc : Z;
  output : list string
}.

Definition init : t := mk [] ∅ 0 [].

(** What one iteration of the loop of [execute] does. *)
Inductive outcome :=
  | Next (vm : t)        (* go on with the loop test *)
  | Exit (vm : t)        (* [break] *)
  | Raise                (* a Python exception ends [execute] *)
  | Unmodelled.          (* a string or [None] pushed as a value, or a
                            number used as a variable key *)

(** [bytecode[pc]]. *)
Definition fetch (bytecode : list BytecodeInstruction) (pc : Z)
    : option BytecodeInstruction :=
  if decide (0 ≤ pc)%Z then bytecode !! Z.to_nat pc
  else if decide (- Z.of_nat (length bytecode) ≤ pc)%Z
       then bytecode !! Z.to_nat (Z.of_nat (length bytecode) + pc)
       else None.

Definition key_of (x : operand) : option (option string) :=
  match x with
  | ONone => Some None
  | OName s => Some (Some s)
  | OImm _ => None
  end.

Definition advance (vm : t) (st : list value) : outcome :=
  Next (mk st (variables vm) (pc vm + 1) (output vm)).

(** [b = pop(); a = pop(); push(f a b)]. *)
Definition binary (f : value → value → value) (vm : t) : outcome :=
  match stack vm with
  | b :: a :: st => advance vm (f a b :: st)
  | _ => Raise
  end.

Definition unary (f : value → value) (vm : t) : outcome :=
  match stack vm with
  | a :: st => advance vm (f a :: st)
  | _ => Raise
  end.

Definition of_bool (b : bool) : value := VInt (if b then 1 else 0).

(** [self.pc = instr.arg; continue]: the loop test that follows compares
    [pc] with an integer, which raises for a string and for [None]. *)
Definition jump (x : operand) (vm : t) (st : list value) : outcome :=
  match x with
  | OImm v => Next (mk st (variables vm) (int_of v) (output vm))
  | _ => Raise
  end.

Definition step (instr : BytecodeInstruction) (vm : t) : outcome :=
  match bop instr with
  | BytecodeOp.PUSH =>
      match arg instr with
      | OImm v => advance vm (v :: stack vm)
      | _ => Unmodelled
      end
  | BytecodeOp.LOAD =>
      let value :=
        match key_of (arg instr) with
        | Some k => default (VInt 0) (variables vm !! k)
        | None => VInt 0
        end in
      advance vm (value :: stack vm)
  | BytecodeOp.STORE =>
      match stack vm with
      | value :: st =>
          match key_of (arg instr) with
          | Some k =>
              Next (mk st (<[k := value]> (variables vm)) (pc vm + 1)
                       (output vm))
          | None => Unmodelled
          end
      | [] => Raise
      end
  | BytecodeOp.ADD => binary (fun a b => VInt (int_of a + int_of b)) vm
  | BytecodeOp.SUB => binary (fun a b => VInt (int_of a - int_of b)) vm
  | BytecodeOp.MUL => binary (fun a b => VInt (int_of a * int_of b)) vm
  | BytecodeOp.DIV =>
      binary (fun a b =>
                VInt (if bool_decide (int_of b ≠ 0)%Z
                      then py_floordiv (int_of a) (int_of b) else 0)) vm
  | BytecodeOp.MOD =>
      binary (fun a b =>
                VInt (if bool_decide (int_of b ≠ 0)%Z
                      then py_mod (int_of a) (int_of b) else 0)) vm
  | BytecodeOp.NEG => unary (fun a => VInt (- int_of a)) vm
  | BytecodeOp.LT =>
      binary (fun a b => of_bool (bool_decide (int_of a < int_of b)%Z)) vm
  | BytecodeOp.GT =>
      binary (fun a b => of_bool (bool_decide (int_of a > int_of b)%Z)) vm
  | BytecodeOp.LTE =>
      binary (fun a b => of_bool (bool_decide (int_of a ≤ int_of b)%Z)) vm
  | BytecodeOp.GTE =>
      binary (fun a b => of_bool (bool_decide (int_of a >= int_of b)%Z)) vm
  | BytecodeOp.EQ =>
      binary (fun a b => of_bool (bool_decide (int_of a = int_of b))) vm
  | BytecodeOp.NEQ =>
      binary (fun a b => of_bool (bool_decide (int_of a ≠ int_of b))) vm
  | BytecodeOp.AND =>
      binary (fun a b => of_bool (truthy a && truthy b)) vm
  | BytecodeOp.OR =>
      binary (fun a b => of_bool (truthy a || truthy b)) vm
  | BytecodeOp.NOT => unary (fun a => of_bool (negb (truthy a))) vm
  | BytecodeOp.PRINT =>
      match stack vm with
      | value :: st =>
          Next (mk st (variables vm) (pc vm + 1)
                   (output vm ++ [py_str value]))
      | [] => Raise
      end
  | BytecodeOp.JUMP => jump (arg instr) vm (stack vm)
  | BytecodeOp.JUMP_IF_FALSE =>
      match stack vm with
      | condition :: st =>
          if truthy condition then advance vm st
          else jump (arg instr) vm st
      | [] => Raise
      end
  | BytecodeOp.HALT => Exit vm
  | BytecodeOp.LABEL => advance vm (stack vm)
  end.

(** How [execute] ends.  The [while] loop of the source has no bound; the
    model runs it for at most [fuel] iterations. *)
Inductive result :=
  | Finished (vm : t)
  | Raised
  | NotModelled
  | OutOfFuel (vm : t).

Fixpoint loop (fuel : nat) (bytecode : list BytecodeInstruction) (vm : t)
    : result :=
  match fuel with
  | 0 => OutOfFuel vm
  | S fuel =>
      if decide (pc vm < Z.of_nat (length bytecode))%Z then
        match fetch bytecode (pc vm) with
        | None => Raised
        | Some instr =>
            match step instr vm with
            | Next vm => loop fuel bytecode vm
            | Exit vm => Finished vm
            | Raise => Raised
            | Unmodelled => NotModelled
            end
        end
      else Finished vm
  end.

Definition execute (fuel : nat) (bytecode : list BytecodeInstruction)
    (vm : t) : result :=
  loop fuel bytecode (mk (stack vm) (variables vm) 0 (output vm)).
End VirtualMachine.

(** ** The pipeline of [TinyLangFullCompiler.compile_and_run] *)

Module TinyLangFullCompiler.
(** The TAC of a program, from fresh counters. *)
Definition tac_of (ast : Program) : list TACInstruction :=
  TACGenerator.instructions (TACGenerator.generate ast TACGenerator.init).

(** Bytecode generation and execution on a fresh VM. *)
Definition run_tac (fuel : nat) (tac : list TACInstruction)
    : VirtualMachine.result :=
  VirtualMachine.execute fuel (BytecodeGenerator.generate tac)
    VirtualMachine.init.

(** [compile_and_run]: [None] when [analyze] recorded errors (the later
    phases do not run). *)
Definition compile_and_run (fuel : nat) (ast : Program)
    : option VirtualMachine.result :=
  if SemanticAnalyzer.well_typed ast
  then Some (run_tac fuel (TACOptimizer.optimize (tac_of ast)))
  else None.

(** The same pipeline without the call of [optimize]. *)
Definition compile_and_run_unoptimized (fuel : nat) (ast : Program)
    : option VirtualMachine.result :=
  if SemanticAnalyzer.well_typed ast
  then Some (run_tac fuel (tac_of ast))
  else None.

(** The variables that [compile_and_run] reports at the end: those whose
    name does not start with [t] ("Skip temporaries"). *)
Definition reported (k : option string) : bool :=
  match k with
  | Some s => negb (startswith_t s)
  | None => true
  end.

Definition final_variables (vm : VirtualMachine.t)
    : gmap (option string) value :=
  filter (fun kv => reported kv.1) (VirtualMachine.variables vm).
End TinyLangFullCompiler.

(** ** Definitions used by the statements below *)

(** The signed 32-bit two's-complement value of an integer, as the
    specification describes [Int] arithmetic. *)
Definition wrap32 (z : Z) : Z :=
  ((z + 2147483648) `mod` 4294967296 - 2147483648)%Z.

(** [n] written as an [int] literal node. *)
Definition IntLit (n : Z) : expr := Literal (VInt n) int_t.
(** [true] / [false] written as a [bool] literal node. *)
Definition BoolLit (b : bool) : expr := Literal (VBool b) bool_t.

(** [print(1 + 2147483647);] *)
Definition prog_int_max : Program :=
  [ PrintStmt (BinaryOp op_add (IntLit 1) (IntLit 2147483647)) ].

(** [print(true);] *)
Definition prog_print_true : Program :=
  [ PrintStmt (BoolLit true) ].

(** [int t0 = 0; t0 = 5; int y = t0 + 1; print(y);] *)
Definition prog_t0 : Program :=
  [ VarDecl int_t "t0" (Some (IntLit 0));
    Assignment "t0" (IntLit 5);
    VarDecl int_t "y" (Some (BinaryOp op_add (VarRef "t0") (IntLit 1)));
    PrintStmt (VarRef "y") ].

(** [int total = 5;] *)
Definition prog_total : Program :=
  [ VarDecl int_t "total" (Some (IntLit 5)) ].

(** [int x = 1; bool x = true; x = 2;] *)
Definition prog_redeclare : Program :=
  [ VarDecl int_t "x" (Some (IntLit 1));
    VarDecl bool_t "x" (Some (BoolLit true));
    Assignment "x" (IntLit 2) ].

(** The output of a run that finished. *)
Definition output_of (r : VirtualMachine.result) : option (list string) :=
  match r with
  | VirtualMachine.Finished vm => Some (VirtualMachine.output vm)
  | _ => None
  end.

(** The reported variables of a run that finished. *)
Definition variables_of (r : VirtualMachine.result)
    : option (gmap (option string) value) :=
  match r with
  | VirtualMachine.Finished vm =>
      Some (TinyLangFullCompiler.final_variables vm)
  | _ => None
  end.

(** Every name that the statement declares with an initial value or
    assigns, in its blocks too, passes the test [U]. *)
Fixpoint writes_ok (U : string → bool) (s : stmt) : bool :=
  match s with
  | VarDecl _ name _ => U name
  | Assignment name _ => U name
  | IfStmt _ then_block else_block =>
      forallb (writes_ok U) then_block
      && match else_block with
         | Some l => forallb (writes_ok U) l
         | None => true
         end
  | WhileStmt _ body => forallb (writes_ok U) body
  | PrintStmt _ => true
  end.

(** No variable that the program declares or assigns has a name starting
    with [t]. *)
Definition no_t_names (p : Program) : bool :=
  forallb (writes_ok (λ name, negb (startswith_t name))) p.

(** The instructions whose result [constant_folding] records in
    [constants]. *)
Definition fold_candidate (i : TACInstruction) : bool :=
  match op i, isinstance_int (arg1 i) with
  | TACOp.ASSIGN, Some _ => true
  | _, _ => TACOp.is_arith (op i)
  end.

(** Induction on statements that reaches into the blocks. *)
Section stmt_induction.
Variable P : stmt → Prop.
Hypothesis HVarDecl : ∀ t n i, P (VarDecl t n i).
Hypothesis HAssignment : ∀ n e, P (Assignment n e).
Hypothesis HIfStmt : ∀ c tb eb,
  Forall P tb → Forall P (default [] eb) → P (IfStmt c tb eb).
Hypothesis HWhileStmt : ∀ c b, Forall P b → P (WhileStmt c b).
Hypothesis HPrintStmt : ∀ e, P (PrintStmt e).

Fixpoint stmt_induction (s : stmt) : P s :=
  let fix block (l : list stmt) : Forall P l :=
    match l with
    | [] => @List.Forall_nil _ P
    | x :: l' => @List.Forall_cons _ P x l' (stmt_induction x) (block l')
    end in
  match s with
  | VarDecl t n i => HVarDecl t n i
  | Assignment n e => HAssignment n e
  | IfStmt c tb eb =>
      HIfStmt c tb eb (block tb)
        match eb as o return Forall P (default [] o) with
        | Some l => block l
        | None => @List.Forall_nil _ P
        end
  | WhileStmt c b => HWhileStmt c b (block b)
  | PrintStmt e => HPrintStmt e
  end.
End stmt_induction.

(** [st'] has the scopes of [st], each with at least the bindings it had. *)
Definition table_extends (st st' : SymbolTable.t) : Prop :=
  SymbolTable.current_scope st' = SymbolTable.current_scope st
  ∧ length (SymbolTable.scopes st') = length (SymbolTable.scopes st)
  ∧ ∀ i, i ≤ SymbolTable.current_scope st →
         SymbolTable.scopes st !!! i ⊆ SymbolTable.scopes st' !!! i.

(** What analysing a statement (or a block) does to the analyser: the
    table stays well formed, keeps its scopes and their bindings, and the
    errors are only appended to. *)
Definition analysis_keeps (a a' : SemanticAnalyzer.t) : Prop :=
  SymbolTable.wf (SemanticAnalyzer.symbol_table a')
  ∧ table_extends (SemanticAnalyzer.symbol_table a)
      (SemanticAnalyzer.symbol_table a')
  ∧ ∃ errs, SemanticAnalyzer.errors a' = SemanticAnalyzer.errors a ++ errs.

(** The label a [LABEL] pseudo-instruction defines, and the label a
    [GOTO] or [IF_FALSE] jumps to (both are [result] fields). *)
Definition label_of (i : TACInstruction) : option (option string) :=
  match op i with
  | TACOp.LABEL => Some (result i)
  | _ => None
  end.

Definition target_of (i : TACInstruction) : option (option string) :=
  match op i with
  | TACOp.GOTO | TACOp.IF_FALSE => Some (result i)
  | _ => None
  end.

Definition defined_labels (l : list TACInstruction) : list (option string) :=
  omap label_of l.

Definition jump_targets (l : list TACInstruction) : list (option string) :=
  omap target_of l.

(** Every jump of [l] goes to a label name that [l] defines or that is
    still [pending]. *)
Definition closed_upto (pending : list (option string))
    (l : list TACInstruction) : Prop :=
  ∀ t, t ∈ jump_targets l →
       is_Some t ∧ (t ∈ defined_labels l ∨ t ∈ pending).

(** [closed_upto pending l], and [l] defines every label of [defined]. *)
Definition closed_with (pending defined : list (option string))
    (l : list TACInstruction) : Prop :=
  closed_upto pending l ∧ ∀ d, d ∈ defined → d ∈ defined_labels l.

(** Every jump of [l] goes to a label name that [l] defines. *)
Definition labels_closed (l : list TACInstruction) : Prop :=
  closed_upto [] l.

(** Two instructions that define the same label (or none) and jump to the
    same label (or do not jump). *)
Definition same_control (i i' : TACInstruction) : Prop :=
  label_of i = label_of i' ∧ target_of i = target_of i'.

(** [int counter = 0; while (counter < 3) { print(counter);
    counter = counter + 1; }] *)
Definition prog_counter : Program :=
  [ VarDecl int_t "counter" (Some (IntLit 0));
    WhileStmt (BinaryOp op_lt (VarRef "counter") (IntLit 3))
      [ PrintStmt (VarRef "counter");
        Assignment "counter"
          (BinaryOp op_add (VarRef "counter") (IntLit 1)) ] ].

(** The operand is no name that [dead_code_elimination] counts as used. *)
Definition no_name (x : operand) : bool :=
  match x with
  | OName s => bool_decide (s = "")
  | _ => true
  end.

(** An instruction on which a second run of the optimiser finds nothing
    new: an [ADD] or [MUL] has no integer operand (nothing to simplify), and
    an [ASSIGN] to a name starting with [t] reads no name (removing it
    makes no other instruction dead). *)
Definition settled (i : TACInstruction) : bool :=
  match op i with
  | TACOp.ADD | TACOp.MUL =>
      bool_decide (isinstance_int (arg1 i) = None)
      && bool_decide (isinstance_int (arg2 i) = None)
  | _ => true
  end
  && (if TACOptimizer.assigns_t i
      then no_name (arg1 i) && no_name (arg2 i)
      else true).

(** The keys that [dead_code_elimination], with the used names [U], takes
    out of the constants of a later constant folding. *)
Definition dropped_key (U : gset string) (k : option string) : Prop :=
  ∃ r, k = Some r ∧ startswith_t r = true ∧ r ∉ U.

(** Two constant tables that agree except on the dropped keys. *)
Definition agree (U : gset string) (c c' : gmap (option string) value)
    : Prop :=
  ∀ k, ¬ dropped_key U k → c !! k = c' !! k.

(** [r = x * 0; s = r + 5] *)
Definition tac_mul_zero : list TACInstruction :=
  [ TACInstr TACOp.MUL (OName "x") (OImm (VInt 0)) (Some "r");
    TACInstr TACOp.ADD (OName "r") (OImm (VInt 5)) (Some "s") ].

(** The instructions with an effect outside the variables: labels, jumps
    and prints. *)
Definition observable_of (i : TACInstruction) : option TACInstruction :=
  match op i with
  | TACOp.LABEL | TACOp.GOTO | TACOp.IF_FALSE | TACOp.IF_TRUE
  | TACOp.PRINT => Some i
  | _ => None
  end.

(** An [ADD] or [MUL] has no integer operand. *)
Definition no_imm_operands (i : TACInstruction) : bool :=
  match op i with
  | TACOp.ADD | TACOp.MUL =>
      bool_decide (isinstance_int (arg1 i) = None)
      && bool_decide (isinstance_int (arg2 i) = None)
  | _ => true
  end.

(** [st'] has the scope stack of [st] except, at most, for the contents of
    the current scope. *)
Definition only_current (st st' : SymbolTable.t) : Prop :=
  SymbolTable.current_scope st' = SymbolTable.current_scope st
  ∧ length (SymbolTable.scopes st') = length (SymbolTable.scopes st)
  ∧ ∀ i, i ≠ SymbolTable.current_scope st →
         SymbolTable.scopes st' !! i = SymbolTable.scopes st !! i.

(** The typing rules that [analyze] checks on expressions, as a relation:
    [has_type st e ty] when [e] has type [ty] under the bindings that
    [lookup] finds in the table [st]. *)
Inductive has_type (st : SymbolTable.t) : expr → type_name → Prop :=
  | type_literal v ty : has_type st (Literal v ty) ty
  | type_variable name symbol :
      SymbolTable.lookup name st = Some symbol →
      has_type st (VarRef name) (Symbol.var_type symbol)
  | type_arithmetic o l r :
      o ∈ [op_add; op_sub; op_mul; op_div; op_mod] →
      has_type st l int_t → has_type st r int_t →
      has_type st (BinaryOp o l r) int_t
  | type_comparison o l r :
      o ∈ [op_lt; op_gt; op_lte; op_gte] →
      has_type st l int_t → has_type st r int_t →
      has_type st (BinaryOp o l r) bool_t
  | type_equality o l r ty :
      o ∈ [op_eq; op_neq] →
      has_type st l ty → has_type st r ty →
      has_type st (BinaryOp o l r) bool_t
  | type_logical o l r :
      o ∈ [op_and; op_or] →
      has_type st l bool_t → has_type st r bool_t →
      has_type st (BinaryOp o l r) bool_t
  | type_minus x :
      has_type st x int_t → has_type st (UnaryOp op_minus x) int_t
  | type_not x :
      has_type st x bool_t → has_type st (UnaryOp op_not x) bool_t.

(** What analysing one statement does to a well-formed table: the table
    stays well formed, only the current scope can change, and it changes
    for a declaration only. *)
Definition statement_scoped (s : stmt) : Prop :=
  ∀ a, SymbolTable.wf (SemanticAnalyzer.symbol_table a) →
    SymbolTable.wf
      (SemanticAnalyzer.symbol_table (SemanticAnalyzer.analyze_stmt s a))
    ∧ only_current (SemanticAnalyzer.symbol_table a)
        (SemanticAnalyzer.symbol_table (SemanticAnalyzer.analyze_stmt s a))
    ∧ match s with
      | VarDecl _ _ _ => True
      | _ => SemanticAnalyzer.symbol_table (SemanticAnalyzer.analyze_stmt s a)
             = SemanticAnalyzer.symbol_table a
      end.

(** The instructions that the generator emits for an operator or a literal:
    their result is a temporary. *)
Definition defines_temp (i : TACInstruction) : bool :=
  match op i with
  | TACOp.ASSIGN =>
      match arg1 i with
      | OImm _ => true
      | _ => false
      end
  | TACOp.COPY | TACOp.LABEL | TACOp.GOTO | TACOp.IF_FALSE | TACOp.IF_TRUE
  | TACOp.PRINT => false
  | _ => true
  end.

(** The results of those instructions, in the order of the list. *)
Definition temp_results (l : list TACInstruction) : list (option string) :=
  omap (λ i, if defines_temp i then Some (result i) else None) l.

(** [t0 .. t(n-1)] and [L0 .. L(n-1)]. *)
Definition temp_names (n : nat) : list (option string) :=
  (λ k, Some (TACGenerator.temp_name k)) <$> seq 0 n.

Definition label_names (n : nat) : list (option string) :=
  (λ k, Some (TACGenerator.label_name k)) <$> seq 0 n.

(** The temporaries of the generator's instructions are [t0 ..], one
    instruction each, in the order of allocation. *)
Definition temps_in_order (g : TACGenerator.t) : Prop :=
  temp_results (TACGenerator.instructions g)
  = temp_names (TACGenerator.temp_counter g).

(** The labels allocated so far are those defined so far and those
    [pending]. *)
Definition labels_accounted (pending : list (option string))
    (g : TACGenerator.t) : Prop :=
  defined_labels (TACGenerator.instructions g) ++ pending
  ≡ₚ label_names (TACGenerator.label_counter g).

(** The bytecode that [_generate_instruction] appends for one TAC
    instruction (nothing for a [LABEL] or an [IF_TRUE]). *)
Definition lower (instr : TACInstruction) : list BytecodeInstruction :=
  BytecodeGenerator.bytecode
    (BytecodeGenerator._generate_instruction instr BytecodeGenerator.init).

(** How many values a bytecode instruction pops, and how many it pushes. *)
Definition pops (o : BytecodeOp.t) : nat :=
  match o with
  | BytecodeOp.PUSH | BytecodeOp.LOAD => 0
  | BytecodeOp.STORE => 1
  | BytecodeOp.ADD | BytecodeOp.SUB | BytecodeOp.MUL | BytecodeOp.DIV
  | BytecodeOp.MOD => 2
  | BytecodeOp.NEG => 1
  | BytecodeOp.LT | BytecodeOp.GT | BytecodeOp.LTE | BytecodeOp.GTE
  | BytecodeOp.EQ | BytecodeOp.NEQ => 2
  | BytecodeOp.AND | BytecodeOp.OR => 2
  | BytecodeOp.NOT => 1
  | BytecodeOp.JUMP => 0
  | BytecodeOp.JUMP_IF_FALSE => 1
  | BytecodeOp.LABEL => 0
  | BytecodeOp.PRINT => 1
  | BytecodeOp.HALT => 0
  end.

Definition pushes (o : BytecodeOp.t) : nat :=
  match o with
  | BytecodeOp.PUSH | BytecodeOp.LOAD => 1
  | BytecodeOp.ADD | BytecodeOp.SUB | BytecodeOp.MUL | BytecodeOp.DIV
  | BytecodeOp.MOD => 1
  | BytecodeOp.NEG => 1
  | BytecodeOp.LT | BytecodeOp.GT | BytecodeOp.LTE | BytecodeOp.GTE
  | BytecodeOp.EQ | BytecodeOp.NEQ => 1
  | BytecodeOp.AND | BytecodeOp.OR => 1
  | BytecodeOp.NOT => 1
  | _ => 0
  end.

(** The depth of the operand stack after running [code] in sequence from
    depth [h]. *)
Definition height_after (code : list BytecodeInstruction) (h : nat) : nat :=
  fold_left (λ h i, h - pops (bop i) + pushes (bop i)) code h.

(** What an instruction needs where the stack has depth [h]: [PUSH] a
    number, [STORE] a name or [None] as key, a jump and [HALT] at the depth
    at which the stack is empty once the jump has popped its condition. *)
Definition arg_fits (i : BytecodeInstruction) (h : nat) : bool :=
  match bop i with
  | BytecodeOp.PUSH => bool_decide (is_Some (isinstance_int (arg i)))
  | BytecodeOp.STORE => bool_decide (isinstance_int (arg i) = None)
  | BytecodeOp.JUMP | BytecodeOp.HALT => bool_decide (h = 0)
  | BytecodeOp.JUMP_IF_FALSE => bool_decide (h = 1)
  | _ => true
  end.

(** [code], run in sequence from depth [h], never pops an empty stack,
    meets each instruction where it fits, and ends at depth [0]. *)
Fixpoint stack_checked (code : list BytecodeInstruction) (h : nat) : bool :=
  match code with
  | [] => bool_decide (h = 0)
  | i :: code =>
      bool_decide (pops (bop i) ≤ h) && arg_fits i h
      && stack_checked code (h - pops (bop i) + pushes (bop i))
  end.

(** A VM state that is at an instruction of [bytecode], or at its end,
    with the stack as deep as the instructions before that one leave it. *)
Definition in_step (bytecode : list BytecodeInstruction)
    (vm : VirtualMachine.t) : Prop :=
  ∃ k : nat,
    VirtualMachine.pc vm = Z.of_nat k ∧ k ≤ length bytecode
    ∧ length (VirtualMachine.stack vm) = height_after (take k bytecode) 0.

(** Every jump of [bytecode] has as its argument an index into [bytecode]
    at which the stack is empty. *)
Definition jumps_land (bytecode : list BytecodeInstruction) : Prop :=
  ∀ k i, bytecode !! k = Some i → BytecodeOp.is_jump (bop i) = true →
    ∃ t : nat, arg i = OImm (VInt (Z.of_nat t)) ∧ t < length bytecode
               ∧ height_after (take t bytecode) 0 = 0.

(** A run that ended did not raise and left the stack empty. *)
Definition ended_well (r : VirtualMachine.result) : Prop :=
  match r with
  | VirtualMachine.Finished vm => VirtualMachine.stack vm = []
  | VirtualMachine.OutOfFuel _ => True
  | VirtualMachine.Raised | VirtualMachine.NotModelled => False
  end.

(** No [while] statement in the statement, the blocks of its [if]s
    included. *)
Fixpoint no_while (s : stmt) : bool :=
  match s with
  | IfStmt _ then_block else_block =>
      forallb no_while then_block
      && match else_block with
         | Some l => forallb no_while l
         | None => true
         end
  | WhileStmt _ _ => false
  | VarDecl _ _ _ | Assignment _ _ | PrintStmt _ => true
  end.

(** Every jump of [l] goes to a label that a later instruction of [l]
    defines, or that is still [pending]. *)
Definition forward_upto (pending : list (option string))
    (l : list TACInstruction) : Prop :=
  ∀ pre i post t, l = pre ++ i :: post → target_of i = Some t →
    is_Some t ∧ (t ∈ defined_labels post ∨ t ∈ pending).

(** Every jump of [l] goes forward. *)
Definition jumps_forward (l : list TACInstruction) : Prop :=
  forward_upto [] l.

(** The label an instruction defines and the label it jumps to, for the
    instructions that do one or the other. *)
Definition control_of (i : TACInstruction)
    : option (option (option string) * option (option string)) :=
  match label_of i, target_of i with
  | None, None => None
  | lb, tg => Some (lb, tg)
  end.

(** Every jump of [bytecode] has as its argument an index after its own. *)
Definition jumps_ahead (bytecode : list BytecodeInstruction) : Prop :=
  ∀ k i, bytecode !! k = Some i → BytecodeOp.is_jump (bop i) = true →
    ∃ t : nat, arg i = OImm (VInt (Z.of_nat t)) ∧ k < t.

(** * Verification *)

(** ** The arithmetic of the VM *)

Section vm_arithmetic.
Import VirtualMachine.
Variables (st : list value) (vars : gmap (option string) value)
          (n : Z) (out : list string).

Let before (a b : Z) : t := mk (VInt b :: VInt a :: st) vars n out.
Let after (r : Z) : outcome := Next (mk (VInt r :: st) vars (n + 1) out).

Lemma step_ADD a b :
  step (BytecodeInstr BytecodeOp.ADD ONone) (before a b) = after (a + b).
Proof. reflexivity. Qed.

Lemma step_SUB a b :
  step (BytecodeInstr BytecodeOp.SUB ONone) (before a b) = after (a - b).
Proof. reflexivity. Qed.

Lemma step_MUL a b :
  step (BytecodeInstr BytecodeOp.MUL ONone) (before a b) = after (a * b).
Proof. reflexivity. Qed.

Lemma step_DIV a b :
  step (BytecodeInstr BytecodeOp.DIV ONone) (before a b)
  = after (if decide (b = 0) then 0 else a `div` b)%Z.
Proof.
  cbn. unfold binary, advance, after, py_floordiv. cbn.
  case_bool_decide; case_decide; done.
Qed.

Lemma step_MOD a b :
  step (BytecodeInstr BytecodeOp.MOD ONone) (before a b)
  = after (if decide (b = 0) then 0 else a `mod` b)%Z.
Proof.
  cbn. unfold binary, advance, after, py_mod. cbn.
  case_bool_decide; case_decide; done.
Qed.
End vm_arithmetic.

Lemma wrap32_id z : wrap32 z = z ↔ (-2147483648 ≤ z < 2147483648)%Z.
Proof.
  unfold wrap32. split; intros H.
  - pose proof (Z.mod_pos_bound (z + 2147483648) 4294967296). lia.
  - rewrite Z.mod_small by lia. lia.
Qed.

(** C3, as stated, fails: the unoptimised pipeline runs
    [print(1 + 2147483647);] through the [ADD] of the VM and prints
    [2147483648]; the 32-bit wrap of the sum, [-2147483648], is not what is
    printed.  The optimised pipeline folds the sum to the same number. *)
Lemma C3_int_max_plus_one_does_not_wrap :
  SemanticAnalyzer.well_typed prog_int_max = true
  ∧ output_of (TinyLangFullCompiler.run_tac 20
                 (TinyLangFullCompiler.tac_of prog_int_max))
    = Some ["2147483648"]
  ∧ (TinyLangFullCompiler.compile_and_run 20 prog_int_max ≫= output_of)
    = Some ["2147483648"]
  ∧ py_str (VInt (wrap32 (1 + 2147483647))) = "-2147483648"
  ∧ "2147483648" ≠ py_str (VInt (wrap32 (1 + 2147483647))).
Proof. vm_compute. repeat split; discriminate. Qed.

(** C3, amended: [ADD], [SUB] and [MUL] of the VM compute the exact sum,
    difference and product of unbounded integers; the result is the 32-bit
    two's-complement one only when the exact one already lies in the 32-bit
    range, and [1 + 2147483647] yields [2147483648]. *)
Theorem C3_vm_arithmetic_is_unbounded :
  ∀ (a b : Z) st vars n out,
    let before := VirtualMachine.mk (VInt b :: VInt a :: st) vars n out in
    let after r :=
      VirtualMachine.Next (VirtualMachine.mk (VInt r :: st) vars (n + 1) out) in
    (VirtualMachine.step (BytecodeInstr BytecodeOp.ADD ONone) before
       = after (a + b)%Z
     ∧ VirtualMachine.step (BytecodeInstr BytecodeOp.SUB ONone) before
       = after (a - b)%Z
     ∧ VirtualMachine.step (BytecodeInstr BytecodeOp.MUL ONone) before
       = after (a * b)%Z)
    ∧ (after (a + b)%Z = after (wrap32 (a + b))
       ↔ (-2147483648 ≤ a + b < 2147483648)%Z)
    ∧ VirtualMachine.step (BytecodeInstr BytecodeOp.ADD ONone)
        (VirtualMachine.mk (VInt 2147483647 :: VInt 1 :: st) vars n out)
      = after 2147483648%Z.
Proof.
  intros a b st vars n out before after.
  split; [|split].
  - subst before after. by rewrite step_ADD, step_SUB, step_MUL.
  - subst after. rewrite <- wrap32_id. split.
    + intros [= H]. by rewrite <- H.
    + intros ->. reflexivity.
  - reflexivity.
Qed.

(** C6: with [b] on top of [a], [DIV] and [MOD] push [0] when [b = 0];
    otherwise they push the floored quotient [q] and remainder [r], that is
    the unique pair with [a = b * q + r] and [r] between [0] and [b] on the
    side of [b] (so [r] has the sign of the divisor).  Both return to the
    loop; neither raises. *)
Theorem C6_div_mod_floor_and_zero :
  ∀ (a b : Z) st vars n out,
    let before := VirtualMachine.mk (VInt b :: VInt a :: st) vars n out in
    let after r :=
      VirtualMachine.Next (VirtualMachine.mk (VInt r :: st) vars (n + 1) out) in
    ∃ q r : Z,
      VirtualMachine.step (BytecodeInstr BytecodeOp.DIV ONone) before = after q
      ∧ VirtualMachine.step (BytecodeInstr BytecodeOp.MOD ONone) before
        = after r
      ∧ (b = 0%Z → q = 0%Z ∧ r = 0%Z)
      ∧ (b ≠ 0%Z →
         a = (b * q + r)%Z ∧ ((0 ≤ r < b)%Z ∨ (b < r ≤ 0)%Z)).
Proof.
  intros a b st vars n out before after. subst before after.
  exists (if decide (b = 0%Z) then 0%Z else (a `div` b)%Z),
         (if decide (b = 0%Z) then 0%Z else (a `mod` b)%Z).
  rewrite step_DIV, step_MOD.
  split; [done|]. split; [done|].
  destruct (decide (b = 0%Z)) as [Hb|Hb]; split; try done.
  intros _. split.
  - by apply Z.div_mod.
  - destruct (decide (0 < b)%Z).
    + left. by apply Z.mod_pos_bound.
    + right. apply Z.mod_neg_bound. lia.
Qed.

(** [PRINT] pops one value and appends its [str] as one more entry of the
    output; an [int] is written in decimal, a Python [bool] as [True] or
    [False]. *)
Lemma step_PRINT v st vars n out :
  VirtualMachine.step (BytecodeInstr BytecodeOp.PRINT ONone)
    (VirtualMachine.mk (v :: st) vars n out)
  = VirtualMachine.Next
      (VirtualMachine.mk st vars (n + 1) (out ++ [py_str v])).
Proof. reflexivity. Qed.

Lemma py_str_int z : py_str (VInt z) = pretty z.
Proof. reflexivity. Qed.

(** ** Runs of the whole pipeline *)

(** C2 at [print(true);]: the program is well typed, and the pipeline
    prints [True], not [1]: the literal reaches the VM as the Python [bool]
    the parser built, and [PRINT] appends [str(value)].  A Bool value that an
    operator computed is pushed as [1] or [0] and prints as such. *)
Theorem C2_print_true_prints_True :
  SemanticAnalyzer.well_typed prog_print_true = true
  ∧ (TinyLangFullCompiler.compile_and_run 10 prog_print_true ≫= output_of)
    = Some ["True"]
  ∧ (TinyLangFullCompiler.compile_and_run_unoptimized 10 prog_print_true
       ≫= output_of) = Some ["True"]
  ∧ (TinyLangFullCompiler.compile_and_run 20
       [PrintStmt (BinaryOp op_eq (BoolLit true) (BoolLit true))]
       ≫= output_of) = Some ["1"].
Proof. repeat split; vm_compute; reflexivity. Qed.

(** C1 at [int t0 = 0; t0 = 5; int y = t0 + 1; print(y);]: the program is
    well typed; without [optimize] it prints [6] and ends with [y = 6]; with
    [optimize] it prints [1] and ends with [y = 1]. *)
Theorem C1_optimizer_changes_output :
  SemanticAnalyzer.well_typed prog_t0 = true
  ∧ (TinyLangFullCompiler.compile_and_run_unoptimized 40 prog_t0
       ≫= output_of) = Some ["6"]
  ∧ (TinyLangFullCompiler.compile_and_run 40 prog_t0 ≫= output_of)
    = Some ["1"]
  ∧ (TinyLangFullCompiler.compile_and_run_unoptimized 40 prog_t0
       ≫= variables_of) = Some {[ Some "y" := VInt 6 ]}
  ∧ (TinyLangFullCompiler.compile_and_run 40 prog_t0 ≫= variables_of)
    = Some {[ Some "y" := VInt 1 ]}.
Proof. repeat split; vm_compute; reflexivity. Qed.

(** ** The symbol table and the analyser *)

Section analyzer_facts.
Import SemanticAnalyzer.

(** Analysing an expression leaves the symbol table as it is and only
    appends to the errors. *)
Lemma analyze_expr_appends e a :
  ∃ errs,
    (analyze_expr e a).2 = mk (symbol_table a) (errors a ++ errs).
Proof.
  revert a. induction e as [o l IHl r IHr|o x IHx|v ty|name]; intros a; cbn.
  - destruct (IHl a) as [e1 H1]. destruct (analyze_expr l a) as [lt a1].
    cbn in H1. subst a1.
    destruct (IHr (mk (symbol_table a) (errors a ++ e1))) as [e2 H2].
    destruct (analyze_expr r _) as [rt a2]. cbn in H2. subst a2.
    destruct o; cbn; case_bool_decide; unfold error; cbn;
      rewrite <- ?(assoc_L (++)); eauto.
  - destruct (IHx a) as [e1 H1]. destruct (analyze_expr x a) as [xt a1].
    cbn in H1. subst a1.
    destruct o; cbn; case_bool_decide; unfold error; cbn;
      rewrite <- ?(assoc_L (++)); eauto.
  - exists []. destruct a. cbn. by rewrite app_nil_r.
  - destruct (SymbolTable.lookup name (symbol_table a)); cbn.
    + exists []. destruct a. cbn. by rewrite app_nil_r.
    + eauto.
Qed.

Lemma analyze_expr_table e a :
  symbol_table (analyze_expr e a).2 = symbol_table a.
Proof. destruct (analyze_expr_appends e a) as [errs ->]. done. Qed.

(** [lookup] finds nothing exactly when no scope from the current one
    down to the global one holds the name. *)
Lemma lookup_from_None name scs i :
  SymbolTable.lookup_from name scs i = None
  ↔ ∀ j, j ≤ i → (scs !!! j) !! name = None.
Proof.
  induction i as [|i IH]; cbn.
  - destruct ((scs !!! 0) !! name) eqn:E.
    + split; [done|]. intros H. specialize (H 0). rewrite E in H. auto.
    + split; [|done]. intros _ j Hj. by replace j with 0 by lia.
  - destruct ((scs !!! S i) !! name) eqn:E.
    + split; [done|]. intros H. specialize (H (S i)).
      rewrite E in H. auto.
    + rewrite IH. split; intros H j Hj.
      * destruct (decide (j = S i)) as [->|]; [done|]. apply H. lia.
      * apply H. lia.
Qed.

(** [lookup] returns the binding of the current scope when it has one. *)
Lemma lookup_current name st sym :
  (SymbolTable.scopes st !!! SymbolTable.current_scope st) !! name
    = Some sym →
  SymbolTable.lookup name st = Some sym.
Proof.
  unfold SymbolTable.lookup. intros H.
  destruct (SymbolTable.current_scope st); cbn; by rewrite H.
Qed.
End analyzer_facts.

(** C10: when no scope from the current one outwards binds [name], the
    analyser, on the reference [Variable(name)], appends exactly one
    undeclared-variable error, leaves the symbol table alone and returns
    ['int']; an enclosing arithmetic expression whose other operand is an
    [int] is then typed ['int'] with no further error of its own. *)
Theorem C10_undeclared_reference_defaults_to_int :
  ∀ (name : string) (a : SemanticAnalyzer.t),
    (∀ i, i ≤ SymbolTable.current_scope (SemanticAnalyzer.symbol_table a) →
          (SymbolTable.scopes (SemanticAnalyzer.symbol_table a) !!! i) !! name
          = None) →
    let a' := SemanticAnalyzer.mk (SemanticAnalyzer.symbol_table a)
                (SemanticAnalyzer.errors a
                   ++ [SemanticAnalyzer.msg_undeclared name]) in
    SemanticAnalyzer.analyze_expr (VarRef name) a = (int_t, a')
    ∧ ∀ o r a'',
        o ∈ [op_add; op_sub; op_mul; op_div; op_mod] →
        SemanticAnalyzer.analyze_expr r a' = (int_t, a'') →
        SemanticAnalyzer.analyze_expr (BinaryOp o (VarRef name) r) a
        = (int_t, a'').
Proof.
  intros name a Hnone a'.
  assert (SemanticAnalyzer.analyze_expr (VarRef name) a = (int_t, a')) as Hv.
  { cbn. apply lookup_from_None in Hnone.
    unfold SymbolTable.lookup. by rewrite Hnone. }
  split; [done|].
  intros o r a'' Ho Hr.
  change (SemanticAnalyzer.analyze_expr (BinaryOp o (VarRef name) r) a)
    with (let '(left_type, a0) := SemanticAnalyzer.analyze_expr (VarRef name) a in
          let '(right_type, a1) := SemanticAnalyzer.analyze_expr r a0 in
          match o with
          | op_add | op_sub | op_mul | op_div | op_mod =>
              (int_t,
               if bool_decide (left_type ≠ int_t ∨ right_type ≠ int_t)
               then SemanticAnalyzer.error (SemanticAnalyzer.msg_arith o) a1
               else a1)
          | op_lt | op_gt | op_lte | op_gte =>
              (bool_t,
               if bool_decide (left_type ≠ int_t ∨ right_type ≠ int_t)
               then SemanticAnalyzer.error (SemanticAnalyzer.msg_compare o) a1
               else a1)
          | op_eq | op_neq =>
              (bool_t,
               if bool_decide (left_type ≠ right_type)
               then SemanticAnalyzer.error
                      (SemanticAnalyzer.msg_same left_type right_type) a1
               else a1)
          | op_and | op_or =>
              (bool_t,
               if bool_decide (left_type ≠ bool_t ∨ right_type ≠ bool_t)
               then SemanticAnalyzer.error (SemanticAnalyzer.msg_logical o) a1
               else a1)
          end).
  rewrite Hv, Hr.
  assert (¬ (int_t ≠ int_t ∨ int_t ≠ int_t)) as Hint by (intros [?|?]; done).
  rewrite !elem_of_cons, elem_of_nil in Ho.
  destruct_or!; subst o; try done; by rewrite bool_decide_eq_false_2.
Qed.

(** C10 at the fresh analyser and [print(y + 1)]. *)
Lemma C10_witness :
  SemanticAnalyzer.analyze_expr (VarRef "y") SemanticAnalyzer.init
  = (int_t,
     SemanticAnalyzer.mk SymbolTable.init ["Undeclared variable 'y'"])
  ∧ SemanticAnalyzer.analyze_expr
      (BinaryOp op_add (VarRef "y") (IntLit 1)) SemanticAnalyzer.init
    = (int_t,
       SemanticAnalyzer.mk SymbolTable.init ["Undeclared variable 'y'"]).
Proof.
  assert (∀ i, i ≤ 0 → ((SymbolTable.scopes SymbolTable.init) !!! i) !! "y"
                       = (None : option Symbol.t)) as H.
  { intros i Hi. replace i with 0 by lia. reflexivity. }
  destruct (C10_undeclared_reference_defaults_to_int "y"
              SemanticAnalyzer.init H) as [H1 H2].
  split.
  - exact H1.
  - apply (H2 op_add (IntLit 1)).
    + set_solver.
    + reflexivity.
Defined.

Section symbol_table_facts.
Import SymbolTable.

Lemma wf_init : wf init.
Proof. reflexivity. Qed.

Lemma wf_enter_scope st : wf st → wf (enter_scope st).
Proof. unfold wf, enter_scope. cbn. rewrite length_app. cbn. lia. Qed.

Lemma table_extends_refl st : table_extends st st.
Proof. by split; [|split]. Qed.

Lemma table_extends_trans st1 st2 st3 :
  table_extends st1 st2 → table_extends st2 st3 → table_extends st1 st3.
Proof.
  intros (Hc1 & Hl1 & H1) (Hc2 & Hl2 & H2). split; [|split].
  - congruence.
  - congruence.
  - intros i Hi. etrans; [by apply H1|]. apply H2. lia.
Qed.

(** [declare] keeps the table well formed and never drops or replaces a
    binding. *)
Lemma declare_extends name ty st :
  wf st →
  wf (declare name ty st).2 ∧ table_extends st (declare name ty st).2.
Proof.
  unfold wf, declare. intros Hwf.
  destruct ((scopes st !!! current_scope st) !! name) eqn:E; cbn.
  - split; [done|apply table_extends_refl].
  - split; [by rewrite length_insert|].
    split; [done|]. split; [by cbn; rewrite length_insert|].
    cbn. intros i Hi.
    destruct (decide (i = current_scope st)) as [->|Hne].
    + rewrite list_lookup_total_insert_eq by lia. by apply insert_subseteq.
    + by rewrite list_lookup_total_insert_ne.
Qed.

(** Leaving a block gives back the scopes the block was entered with, each
    with at least the bindings it had. *)
Lemma exit_after_enter st st' :
  wf st → wf st' →
  table_extends (enter_scope st) st' →
  wf (exit_scope st') ∧ table_extends st (exit_scope st').
Proof.
  unfold wf, exit_scope. intros Hwf Hwf' (Hc & Hl & H). cbn in Hc, Hl.
  rewrite length_app in Hl. cbn in Hl.
  rewrite Hc. destruct (decide (0 < S (current_scope st))); [|lia]. cbn.
  assert (length (removelast (scopes st')) = length (scopes st)) as Hlen.
  { rewrite removelast_firstn_len, length_take. lia. }
  split; [lia|]. split; [cbn; lia|]. split; [done|].
  cbn. intros i Hi.
  specialize (H i). cbn in H.
  rewrite lookup_total_app_l in H by lia.
  rewrite removelast_firstn_len, lookup_total_take by lia.
  rewrite decide_True by lia. apply H. lia.
Qed.
End symbol_table_facts.

Section analyzer_invariant.
Import SemanticAnalyzer.

Lemma analysis_keeps_refl a :
  SymbolTable.wf (symbol_table a) → analysis_keeps a a.
Proof.
  intros Hwf. split; [done|]. split; [apply table_extends_refl|].
  exists []. by rewrite app_nil_r.
Qed.

Lemma analysis_keeps_trans a1 a2 a3 :
  analysis_keeps a1 a2 → analysis_keeps a2 a3 → analysis_keeps a1 a3.
Proof.
  intros (_ & He1 & e1 & Hr1) (Hwf & He2 & e2 & Hr2).
  split; [done|]. split; [by eapply table_extends_trans|].
  exists (e1 ++ e2). by rewrite Hr2, Hr1, (assoc_L (++)).
Qed.

Lemma analysis_keeps_error msg a :
  SymbolTable.wf (symbol_table a) → analysis_keeps a (error msg a).
Proof.
  intros Hwf. split; [done|]. split; [apply table_extends_refl|]. by eexists.
Qed.

Lemma analysis_keeps_error_if (b : bool) msg a :
  SymbolTable.wf (symbol_table a) →
  analysis_keeps a (if b then error msg a else a).
Proof.
  destruct b; [apply analysis_keeps_error|apply analysis_keeps_refl].
Qed.

Lemma analysis_keeps_expr e a :
  SymbolTable.wf (symbol_table a) → analysis_keeps a (analyze_expr e a).2.
Proof.
  intros Hwf. destruct (analyze_expr_appends e a) as [errs ->].
  split; [done|]. split; [apply table_extends_refl|]. by eexists.
Qed.

Lemma analysis_keeps_block (l : list stmt) :
  Forall (λ s, ∀ a, SymbolTable.wf (symbol_table a) →
                    analysis_keeps a (analyze_stmt s a)) l →
  ∀ a, SymbolTable.wf (symbol_table a) →
       analysis_keeps a (fold_left (λ a s, analyze_stmt s a) l a).
Proof.
  induction 1 as [|s l Hs _ IH]; intros a Hwf; cbn.
  - by apply analysis_keeps_refl.
  - eapply analysis_keeps_trans; [by apply Hs|].
    apply IH. by apply Hs.
Qed.

(** A block analysed between [enter_scope] and [exit_scope]. *)
Lemma analysis_keeps_scoped (l : list stmt) :
  Forall (λ s, ∀ a, SymbolTable.wf (symbol_table a) →
                    analysis_keeps a (analyze_stmt s a)) l →
  ∀ a, SymbolTable.wf (symbol_table a) →
       analysis_keeps a
         (with_table SymbolTable.exit_scope
            (fold_left (λ a s, analyze_stmt s a) l
               (with_table SymbolTable.enter_scope a))).
Proof.
  intros Hl a Hwf.
  pose proof (analysis_keeps_block l Hl
                (with_table SymbolTable.enter_scope a)
                (wf_enter_scope _ Hwf)) as (Hwf' & Hext & errs & Herrs).
  destruct (exit_after_enter _ _ Hwf Hwf' Hext) as [Hwf'' Hext''].
  split; [done|]. split; [done|]. by exists errs.
Qed.

Lemma analysis_keeps_stmt s :
  ∀ a, SymbolTable.wf (symbol_table a) → analysis_keeps a (analyze_stmt s a).
Proof.
  induction s as [ty name init|name e|c tb eb IHt IHe|c body IH|e]
    using stmt_induction; intros a Hwf; cbn.
  - destruct (declare_extends name ty (symbol_table a) Hwf) as [Hwf1 Hext1].
    destruct (SymbolTable.declare name ty (symbol_table a)) as [ok st1].
    cbn in Hwf1, Hext1.
    assert (analysis_keeps a (if ok then mk st1 (errors a)
                              else error (msg_redeclared name)
                                     (mk st1 (errors a)))) as H1.
    { destruct ok; (split; [done|]; split; [done|]); cbn.
      - exists []. by rewrite app_nil_r.
      - by eexists. }
    destruct init as [e|]; [|done].
    set (a1 := if ok then _ else _) in *.
    pose proof (analysis_keeps_expr e a1 (proj1 H1)) as H2.
    destruct (analyze_expr e a1) as [vt a2]. cbn in H2.
    eapply analysis_keeps_trans; [exact H1|].
    eapply analysis_keeps_trans; [exact H2|].
    apply analysis_keeps_error_if, H2.
  - destruct (SymbolTable.lookup name (symbol_table a)) as [symbol|].
    + pose proof (analysis_keeps_expr e a Hwf) as H2.
      destruct (analyze_expr e a) as [vt a2]. cbn in H2.
      eapply analysis_keeps_trans; [exact H2|].
      apply analysis_keeps_error_if, H2.
    + by apply analysis_keeps_error.
  - pose proof (analysis_keeps_expr c a Hwf) as H1.
    destruct (analyze_expr c a) as [ct a1]. cbn in H1.
    pose proof (analysis_keeps_error_if (bool_decide (ct ≠ bool_t))
                  (msg_if ct) a1 (proj1 H1)) as H2.
    set (a2 := if bool_decide (ct ≠ bool_t) then _ else _) in *.
    pose proof (analysis_keeps_scoped tb IHt a2 (proj1 H2)) as H3.
    set (a3 := with_table SymbolTable.exit_scope _) in *.
    assert (analysis_keeps a a3) as H13.
    { eapply analysis_keeps_trans; [exact H1|].
      eapply analysis_keeps_trans; [exact H2|exact H3]. }
    destruct eb as [[|s0 rest]|]; [done| |done].
    eapply analysis_keeps_trans; [exact H13|].
    apply (analysis_keeps_scoped (s0 :: rest) IHe), H3.
  - pose proof (analysis_keeps_expr c a Hwf) as H1.
    destruct (analyze_expr c a) as [ct a1]. cbn in H1.
    pose proof (analysis_keeps_error_if (bool_decide (ct ≠ bool_t))
                  (msg_while ct) a1 (proj1 H1)) as H2.
    set (a2 := if bool_decide (ct ≠ bool_t) then _ else _) in *.
    eapply analysis_keeps_trans; [exact H1|].
    eapply analysis_keeps_trans; [exact H2|].
    apply (analysis_keeps_scoped body IH), H2.
  - by apply analysis_keeps_expr.
Qed.
End analyzer_invariant.

(** C9: let [x] be unbound in the current scope.  After a first declaration
    of [x] with type [ty1], any statements [mid] of that scope (blocks
    included) and a second declaration of [x] in the same scope, the
    analyser has appended the redeclaration error for the second
    declaration, the second declaration has left the symbol table as it
    was, and [lookup] of [x], before and after it, returns the first
    binding: name [x], type [ty1], the level of that scope. *)
Theorem C9_redeclaration_keeps_first_binding :
  ∀ (a : SemanticAnalyzer.t) (x : string) (ty1 ty2 : type_name)
    (init1 init2 : option expr) (mid : list stmt),
    SymbolTable.wf (SemanticAnalyzer.symbol_table a) →
    (SymbolTable.scopes (SemanticAnalyzer.symbol_table a)
       !!! SymbolTable.current_scope (SemanticAnalyzer.symbol_table a)) !! x
    = None →
    let first :=
      Symbol.mk x ty1
        (SymbolTable.current_scope (SemanticAnalyzer.symbol_table a)) true in
    let a1 := SemanticAnalyzer.analyze_stmt (VarDecl ty1 x init1) a in
    let a2 := fold_left (λ a s, SemanticAnalyzer.analyze_stmt s a) mid a1 in
    let a3 := SemanticAnalyzer.analyze_stmt (VarDecl ty2 x init2) a2 in
    (∃ rest, SemanticAnalyzer.errors a3
             = SemanticAnalyzer.errors a2
                 ++ SemanticAnalyzer.msg_redeclared x :: rest)
    ∧ SemanticAnalyzer.symbol_table a3 = SemanticAnalyzer.symbol_table a2
    ∧ SymbolTable.lookup x (SemanticAnalyzer.symbol_table a2) = Some first
    ∧ SymbolTable.lookup x (SemanticAnalyzer.symbol_table a3) = Some first.
Proof.
  intros a x ty1 ty2 init1 init2 mid Hwf Hfresh first a1 a2 a3.
  (* the first declaration binds [x] in the current scope *)
  assert (SymbolTable.wf (SemanticAnalyzer.symbol_table a1)
          ∧ SymbolTable.current_scope (SemanticAnalyzer.symbol_table a1)
            = SymbolTable.current_scope (SemanticAnalyzer.symbol_table a)
          ∧ (SymbolTable.scopes (SemanticAnalyzer.symbol_table a1)
               !!! SymbolTable.current_scope (SemanticAnalyzer.symbol_table a))
              !! x = Some first) as (Hwf1 & Hc1 & Hx1).
  { subst a1. cbn. unfold SymbolTable.declare. rewrite Hfresh.
    set (st1 := SymbolTable.mk _ _).
    assert (SymbolTable.wf st1) as Hwf1.
    { unfold SymbolTable.wf, st1. cbn. by rewrite length_insert. }
    assert ((SymbolTable.scopes st1
               !!! SymbolTable.current_scope (SemanticAnalyzer.symbol_table a))
              !! x = Some first) as Hx1.
    { unfold st1. cbn. unfold SymbolTable.wf in Hwf.
      rewrite list_lookup_total_insert_eq by lia. by rewrite lookup_insert_eq. }
    destruct init1 as [e|]; [|done].
    pose proof (analyze_expr_table e (SemanticAnalyzer.mk st1
                  (SemanticAnalyzer.errors a))) as Ht.
    destruct (SemanticAnalyzer.analyze_expr e _) as [vt a']. cbn in Ht.
    case_bool_decide; cbn; by rewrite Ht. }
  (* the statements in between keep it *)
  pose proof (analysis_keeps_block mid
                (Forall_true _ mid analysis_keeps_stmt) a1 Hwf1)
    as (Hwf2 & (Hc2 & _ & Hsub) & _).
  fold a2 in Hwf2, Hc2, Hsub.
  assert ((SymbolTable.scopes (SemanticAnalyzer.symbol_table a2)
             !!! SymbolTable.current_scope (SemanticAnalyzer.symbol_table a2))
            !! x = Some first) as Hx2.
  { rewrite Hc2, Hc1. eapply lookup_weaken; [exact Hx1|].
    apply Hsub. lia. }
  (* the second declaration is refused *)
  assert (∃ rest,
            SemanticAnalyzer.symbol_table a3 = SemanticAnalyzer.symbol_table a2
            ∧ SemanticAnalyzer.errors a3
              = SemanticAnalyzer.errors a2
                  ++ SemanticAnalyzer.msg_redeclared x :: rest)
    as (rest & Ht3 & He3).
  { subst a3. cbn. unfold SymbolTable.declare. rewrite Hx2.
    destruct init2 as [e|].
    - destruct (analyze_expr_appends e
                  (SemanticAnalyzer.error (SemanticAnalyzer.msg_redeclared x)
                     (SemanticAnalyzer.mk (SemanticAnalyzer.symbol_table a2)
                        (SemanticAnalyzer.errors a2)))) as [errs He].
      destruct (SemanticAnalyzer.analyze_expr e _) as [vt a']. cbn in He.
      subst a'. case_bool_decide; cbn; eexists; (split; [done|]);
        rewrite <- ?(assoc_L (++)); cbn; done.
    - exists []. done. }
  split; [by exists rest|]. split; [done|].
  split; [by apply lookup_current|].
  rewrite Ht3. by apply lookup_current.
Qed.

(** C9 at [int x = 1; bool x = true;] from the fresh analyser. *)
Lemma C9_witness :
  let a3 := SemanticAnalyzer.analyze
              [VarDecl int_t "x" (Some (IntLit 1));
               VarDecl bool_t "x" (Some (BoolLit true))]
              SemanticAnalyzer.init in
  (∃ rest, SemanticAnalyzer.errors a3
           = [] ++ "Variable 'x' already declared in this scope" :: rest)
  ∧ SymbolTable.lookup "x" (SemanticAnalyzer.symbol_table a3)
    = Some (Symbol.mk "x" int_t 0 true).
Proof.
  pose proof (C9_redeclaration_keeps_first_binding SemanticAnalyzer.init "x"
                int_t bool_t (Some (IntLit 1)) (Some (BoolLit true)) []
                eq_refl eq_refl) as (H1 & _ & _ & H2).
  split; [exact H1|exact H2].
Defined.

(** ** The passes of the optimiser as list functions *)

Section optimizer_facts.
Import TACOptimizer.

Lemma fold_left_fold_step l acc c :
  fold_left fold_step l (acc, c)
  = (acc ++ (fold_from c l).1, (fold_from c l).2).
Proof.
  unfold fold_from. revert acc c.
  induction l as [|i l IH]; intros acc c; cbn.
  - by rewrite app_nil_r.
  - destruct (fold_instr c i) as [i' c'].
    rewrite (IH (acc ++ [i'])), (IH ([] ++ [i'])). cbn.
    by rewrite <- (assoc_L (++)).
Qed.

Lemma fold_from_cons c i l :
  fold_from c (i :: l)
  = ((fold_instr c i).1 :: (fold_from (fold_instr c i).2 l).1,
     (fold_from (fold_instr c i).2 l).2).
Proof.
  unfold fold_from at 1. cbn. destruct (fold_instr c i) as [i' c'].
  by rewrite fold_left_fold_step.
Qed.

Lemma filter_bool {A} (f : A → bool) (l : list A) :
  filter (λ x, f x = true) l = List.filter f l.
Proof.
  induction l as [|x l IH]; [done|].
  rewrite filter_cons. cbn. destruct (f x).
  - rewrite decide_True by done. by rewrite IH.
  - rewrite decide_False by done. done.
Qed.

Lemma fold_left_dce_step U l acc :
  fold_left (dce_step U) l acc = acc ++ filter (λ i, dce_keeps U i = true) l.
Proof.
  revert acc. induction l as [|i l IH]; intros acc.
  - cbn. by rewrite app_nil_r.
  - rewrite filter_cons. cbn [fold_left]. rewrite IH. unfold dce_step.
    destruct (dce_keeps U i) eqn:E.
    + rewrite decide_True by done. by rewrite <- (assoc_L (++)).
    + rewrite decide_False by done. done.
Qed.

Lemma dead_code_elimination_filter l :
  dead_code_elimination l
  = filter (λ i, dce_keeps (collect_used l) i = true) l.
Proof. unfold dead_code_elimination. by rewrite fold_left_dce_step. Qed.

Lemma algebraic_simplification_map l :
  algebraic_simplification l = simplify_instr <$> l.
Proof.
  unfold algebraic_simplification.
  enough (∀ acc, fold_left (λ o i, o ++ [simplify_instr i]) l acc
                 = acc ++ (simplify_instr <$> l)) as H by apply H.
  induction l as [|i l IH]; intros acc; cbn.
  - by rewrite app_nil_r.
  - by rewrite IH, <- (assoc_L (++)).
Qed.

Lemma elem_of_collect_used x l :
  x ∈ collect_used l
  ↔ ∃ i, i ∈ l ∧ (x ∈ used_name (arg1 i) ∨ x ∈ used_name (arg2 i)).
Proof.
  unfold collect_used.
  enough (∀ U, x ∈ fold_left (λ u i, u ∪ used_name (arg1 i)
                                       ∪ used_name (arg2 i)) l U
               ↔ x ∈ U ∨ ∃ i, i ∈ l ∧ (x ∈ used_name (arg1 i)
                                        ∨ x ∈ used_name (arg2 i))) as H.
  { rewrite H. set_solver. }
  induction l as [|i l IH]; intros U; cbn.
  - set_solver.
  - rewrite IH. set_solver.
Qed.

(** A name that starts with [t] counts as used exactly when it is the
    [arg1] or the [arg2] of some instruction. *)
Lemma elem_of_used_name r x :
  startswith_t r = true → r ∈ used_name x ↔ x = OName r.
Proof.
  intros Hr. destruct x as [|v|s]; cbn; [set_solver..|].
  case_decide as Hs.
  - subst s. split; [set_solver|]. intros [= <-]. done.
  - set_solver.
Qed.
End optimizer_facts.

(** C5 at the TAC of [int total = 5;]: the write to the user variable
    [total], which is none of the temporaries the generator allocated (the
    only one is [t0]), is removed by dead-code elimination, because the name
    starts with [t] and is never read. *)
Theorem C5_dce_drops_write_to_user_variable :
  TACInstr TACOp.ASSIGN (OName "t0") ONone (Some "total")
    ∈ TinyLangFullCompiler.tac_of prog_total
  ∧ TACGenerator.temp_counter
      (TACGenerator.generate prog_total TACGenerator.init) = 1
  ∧ TACGenerator.temp_name 0 ≠ "total"
  ∧ TACInstr TACOp.ASSIGN (OName "t0") ONone (Some "total")
      ∉ TACOptimizer.dead_code_elimination
          (TinyLangFullCompiler.tac_of prog_total).
Proof.
  split; [|split; [|split]].
  - vm_compute. set_solver.
  - reflexivity.
  - discriminate.
  - vm_compute. set_solver.
Qed.

(** What dead-code elimination does on any list: it returns the input
    without, exactly, the instructions whose op is [ASSIGN], whose result is
    a name that starts with [t] and whose result is the [arg1] or [arg2] of
    no instruction of the input; the rest keeps its order.  So every
    instruction whose op is not [ASSIGN] (control flow, print, copies,
    operators) and every write to a name that does not start with [t] is
    retained. *)
Lemma dce_removes_unused_t_assignments :
  ∀ instructions : list TACInstruction,
    let dead (i : TACInstruction) : Prop :=
      op i = TACOp.ASSIGN
      ∧ ∃ r, result i = Some r ∧ startswith_t r = true
             ∧ ∀ j, j ∈ instructions →
                    arg1 j ≠ OName r ∧ arg2 j ≠ OName r in
    let kept := TACOptimizer.dead_code_elimination instructions in
    (∃ keep : TACInstruction → bool,
       kept = List.filter keep instructions
       ∧ ∀ i, keep i = false ↔ dead i)
    ∧ (∀ i, i ∈ instructions → op i ≠ TACOp.ASSIGN → i ∈ kept)
    ∧ (∀ i r, i ∈ instructions → result i = Some r →
              startswith_t r = false → i ∈ kept).
Proof.
  intros l dead kept.
  assert (∀ i, TACOptimizer.dce_keeps (TACOptimizer.collect_used l) i = false
               ↔ dead i) as Hdead.
  { intros i. unfold TACOptimizer.dce_keeps, TACOptimizer.assigns_t, dead.
    destruct (op i) eqn:Hop; try (split; [done|by intros [? _]]).
    destruct (result i) as [r|] eqn:Hr;
      [|split; [done|by intros (_ & ? & ? & _)]].
    destruct (startswith_t r) eqn:Ht;
      [|split; [done|intros (_ & ? & [= <-] & ? & _); congruence]].
    rewrite bool_decide_eq_false, elem_of_collect_used. split.
    - intros Hnot. split; [done|]. exists r. split; [done|]. split; [done|].
      intros j Hj. split; intros Harg; apply Hnot; exists j;
        rewrite !elem_of_used_name by done; auto.
    - intros (_ & r' & [= <-] & _ & Hnone) (j & Hj & Harg).
      rewrite !elem_of_used_name in Harg by done.
      destruct (Hnone j Hj). destruct Harg; done. }
  assert (∀ i, i ∈ kept
               ↔ i ∈ l ∧ TACOptimizer.dce_keeps
                          (TACOptimizer.collect_used l) i = true) as Hin.
  { intros i. unfold kept.
    by rewrite dead_code_elimination_filter, list_elem_of_filter, (comm (∧)). }
  split; [|split].
  - exists (TACOptimizer.dce_keeps (TACOptimizer.collect_used l)).
    split; [|done]. unfold kept.
    by rewrite dead_code_elimination_filter, filter_bool.
  - intros i Hi Hop. apply Hin. split; [done|].
    destruct (TACOptimizer.dce_keeps _ i) eqn:E; [done|].
    apply Hdead in E as [? _]. done.
  - intros i r Hi Hr Ht. apply Hin. split; [done|].
    destruct (TACOptimizer.dce_keeps _ i) eqn:E; [done|].
    apply Hdead in E as (_ & r' & Hr' & Ht' & _). congruence.
Qed.

(** ** The shape of generated TAC *)

Section generator_blocks.
Import TACGenerator.

(** A property of the generator that every statement of a block keeps is
    kept by the block. *)
Lemma generate_block (inv : t → Prop) (ok : stmt → bool) (l : list stmt) :
  Forall (λ s, ok s = true → ∀ g, inv g → inv (generate_stmt s g)) l →
  forallb ok l = true →
  ∀ g, inv g → inv (fold_left (λ g s, generate_stmt s g) l g).
Proof.
  induction 1 as [|s l Hs _ IH]; intros Hok g Hg; cbn in *; [done|].
  apply andb_prop in Hok as [Hok1 Hok2]. apply IH; [done|]. by apply Hs.
Qed.
End generator_blocks.

Lemma forallb_of_Forall {A} (f : A → bool) (l : list A) :
  Forall (λ x, f x = true) l → forallb f l = true.
Proof. induction 1 as [|x l Hx _ IH]; [done|]. cbn. by rewrite Hx, IH. Qed.

Lemma writes_ok_any s : writes_ok (λ _, true) s = true.
Proof.
  induction s as [| |c tb eb IHt IHe|c body IH|] using stmt_induction;
    cbn; try done.
  - rewrite (forallb_of_Forall _ _ IHt). destruct eb as [l|]; [|done].
    cbn in IHe. by rewrite (forallb_of_Forall _ _ IHe).
  - by apply forallb_of_Forall.
Qed.

Section generator_forall.
Import TACGenerator.
Variable P : TACInstruction → Prop.
Variable U : string → bool.
Hypothesis P_binary : ∀ o a b n,
  P (TACInstr (binop_map o) (OName a) (OName b) (Some (temp_name n))).
Hypothesis P_unary : ∀ o a n,
  P (TACInstr (unop_map o) (OName a) ONone (Some (temp_name n))).
Hypothesis P_literal : ∀ v n,
  P (TACInstr TACOp.ASSIGN (OImm v) ONone (Some (temp_name n))).
Hypothesis P_write : ∀ a x,
  U x = true → P (TACInstr TACOp.ASSIGN (OName a) ONone (Some x)).
Hypothesis P_print : ∀ a, P (TACInstr TACOp.PRINT (OName a) ONone None).
Hypothesis P_if_false : ∀ a n,
  P (TACInstr TACOp.IF_FALSE (OName a) ONone (Some (label_name n))).
Hypothesis P_goto : ∀ n,
  P (TACInstr TACOp.GOTO ONone ONone (Some (label_name n))).
Hypothesis P_label : ∀ n,
  P (TACInstr TACOp.LABEL ONone ONone (Some (label_name n))).

Local Abbreviation inv := (λ g : t, Forall P (instructions g)).

Lemma emit_Forall o a1 a2 r g :
  P (TACInstr o a1 a2 r) → inv g → inv (emit o a1 a2 r g).
Proof. intros Hi Hg. cbn. apply Forall_app. auto. Qed.

Lemma generate_expr_Forall e g : inv g → inv (generate_expr e g).2.
Proof.
  revert g. induction e as [o l IHl r IHr|o x IHx|v ty|name]; intros g Hg;
    cbn.
  - specialize (IHl g Hg). destruct (generate_expr l g) as [lt g1].
    specialize (IHr g1 IHl). destruct (generate_expr r g1) as [rt g2].
    cbn in *. apply Forall_app. auto.
  - specialize (IHx g Hg). destruct (generate_expr x g) as [xt g1].
    cbn in *. apply Forall_app. auto.
  - apply Forall_app. auto.
  - done.
Qed.

Lemma generate_stmt_Forall s :
  writes_ok U s = true → ∀ g, inv g → inv (generate_stmt s g).
Proof.
  induction s as [ty name init|name e|c tb eb IHt IHe|c body IH|e]
    using stmt_induction; intros Hok g Hg; cbn in Hok; cbn -[emit].
  - destruct init as [e|]; [|done].
    pose proof (generate_expr_Forall e g Hg) as H1.
    destruct (generate_expr e g) as [vt g1]. apply emit_Forall; auto.
  - pose proof (generate_expr_Forall e g Hg) as H1.
    destruct (generate_expr e g) as [vt g1]. apply emit_Forall; auto.
  - apply andb_prop in Hok as [Hok1 Hok2].
    pose proof (generate_expr_Forall c g Hg) as H1.
    destruct (generate_expr c g) as [ct g1]. cbn [snd] in H1.
    apply emit_Forall; [done|].
    assert (inv (fold_left (λ g s, generate_stmt s g) tb
                   (emit TACOp.IF_FALSE (OName ct) ONone
                      (Some (label_name (label_counter g1)))
                      (new_label (new_label g1).2).2))) as H2.
    { apply (generate_block inv (writes_ok U) tb); [done..|].
      apply emit_Forall; done. }
    assert (∀ g, inv g →
              inv (emit TACOp.LABEL ONone ONone
                     (Some (label_name (label_counter g1)))
                     (emit TACOp.GOTO ONone ONone
                        (Some (label_name (S (label_counter g1)))) g)))
      as H3.
    { intros g' Hg'. apply emit_Forall; [done|]. by apply emit_Forall. }
    destruct eb as [[|s0 rest]|]; [by apply H3| |by apply H3].
    apply (generate_block inv (writes_ok U) (s0 :: rest)); [done..|].
    by apply H3.
  - pose proof (generate_expr_Forall c
                  (emit TACOp.LABEL ONone ONone
                     (Some (label_name (label_counter g)))
                     (new_label (new_label g).2).2)) as H1.
    destruct (generate_expr c _) as [ct g1]. cbn [snd] in H1.
    apply emit_Forall; [done|]. apply emit_Forall; [done|].
    apply (generate_block inv (writes_ok U) body); [done..|].
    apply emit_Forall; [done|]. apply H1. by apply emit_Forall.
  - pose proof (generate_expr_Forall e g Hg) as H1.
    destruct (generate_expr e g) as [vt g1]. apply emit_Forall; auto.
Qed.

Lemma generate_Forall (p : Program) :
  forallb (writes_ok U) p = true →
  Forall P (TinyLangFullCompiler.tac_of p).
Proof.
  intros Hok. unfold TinyLangFullCompiler.tac_of, generate.
  apply (generate_block inv (writes_ok U) p); [|done|by constructor].
  apply Forall_forall. intros s _. apply generate_stmt_Forall.
Qed.
End generator_forall.

(** ** The constant table of constant folding *)

Section folding_constants_facts.
Import TACOptimizer.

(** One iteration either leaves [constants] alone or records the result of
    a candidate instruction. *)
Lemma fold_instr_constants c i :
  (fold_instr c i).2 = c
  ∨ (fold_candidate i = true ∧ ∃ v, (fold_instr c i).2 = <[result i := v]> c).
Proof.
  unfold fold_instr, fold_candidate.
  destruct (op i) eqn:Hop; cbn;
    repeat (match goal with
            | |- context [isinstance_int ?x] => destruct (isinstance_int x)
            end; cbn); eauto.
Qed.

Lemma fold_from_constants l c k :
  is_Some ((fold_from c l).2 !! k) →
  is_Some (c !! k)
  ∨ ∃ i, i ∈ l ∧ fold_candidate i = true ∧ result i = k.
Proof.
  revert c. induction l as [|i l IH]; intros c; [by left|].
  rewrite fold_from_cons. cbn [snd]. intros [H|(j & Hj & Hc & Hr)]%IH.
  - destruct (fold_instr_constants c i) as [Heq|(Hc & v & Heq)];
      rewrite Heq in H; [by left|].
    rewrite lookup_insert in H. case_decide as Hk; [|by left].
    right. exists i. set_solver.
  - right. exists j. set_solver.
Qed.
End folding_constants_facts.

(** C4, as stated, fails: on the one-instruction list [x = 5] constant
    folding records [x], which is no temporary; and on the TAC of
    [int t0 = 0; t0 = 5; int y = t0 + 1; print(y);] it records [t0], the
    name of a variable of the program, with the value [0]. *)
Lemma C4_folding_records_non_temporaries :
  TACOptimizer.folding_constants
    [TACInstr TACOp.ASSIGN (OImm (VInt 5)) ONone (Some "x")] !! Some "x"
  = Some (VInt 5)
  ∧ ¬ (∃ n, "x" = TACGenerator.temp_name n)
  ∧ TACOptimizer.folding_constants (TinyLangFullCompiler.tac_of prog_t0)
      !! Some "t0" = Some (VInt 0)
  ∧ prog_t0 !! 0 = Some (VarDecl int_t "t0" (Some (IntLit 0))).
Proof.
  split; [|split; [|split]].
  - vm_compute. reflexivity.
  - intros [n Hn]. discriminate Hn.
  - vm_compute. reflexivity.
  - reflexivity.
Qed.

(** C4, amended: on the TAC that the generator produces for a program,
    every name that constant folding records in its constant map is a name
    [tN] of the generator's temporaries.  (The pass itself does not test
    the name: on any list it records the result of every [ASSIGN] whose
    [arg1] is an integer and of every arithmetic instruction it folds.) *)
Theorem C4_generated_constants_are_temporaries :
  ∀ (p : Program) (k : option string) (v : value),
    TACOptimizer.folding_constants (TinyLangFullCompiler.tac_of p) !! k
    = Some v →
    ∃ n, k = Some (TACGenerator.temp_name n).
Proof.
  intros p k v Hk.
  destruct (fold_from_constants (TinyLangFullCompiler.tac_of p) ∅ k)
    as [H|(i & Hi & Hc & Hr)].
  { unfold TACOptimizer.folding_constants, TACOptimizer.fold_loop in Hk.
    by rewrite Hk. }
  { rewrite lookup_empty in H. by destruct H. }
  assert (Forall (λ i, fold_candidate i = true →
                       ∃ n, result i = Some (TACGenerator.temp_name n))
                 (TinyLangFullCompiler.tac_of p)) as Hall.
  { apply (generate_Forall _ (λ _, true)).
    - intros o a b n _. by exists n.
    - intros o a n _. by exists n.
    - intros w n _. by exists n.
    - intros a x _ Hcand. done.
    - intros a Hcand. done.
    - intros a n Hcand. done.
    - intros n Hcand. done.
    - intros n Hcand. done.
    - apply forallb_of_Forall, Forall_forall. intros s _.
      apply writes_ok_any. }
  rewrite Forall_forall in Hall.
  destruct (Hall i Hi Hc) as [n Hn]. exists n. congruence.
Qed.

(** C4 at [int t0 = 0; ...]: the recorded [t0] is the temporary of the
    literal [0]. *)
Lemma C4_witness : ∃ n, Some "t0" = Some (TACGenerator.temp_name n).
Proof.
  apply (C4_generated_constants_are_temporaries prog_t0 (Some "t0") (VInt 0)).
  vm_compute. reflexivity.
Defined.

(** ** Labels and jumps *)

Section labels_of_generated_code.
Import TACGenerator.

Lemma closed_with_other pending defined l i :
  target_of i = None →
  closed_with pending defined l → closed_with pending defined (l ++ [i]).
Proof.
  unfold closed_with, closed_upto, jump_targets, defined_labels.
  intros Hi [Hl Hd]. rewrite !omap_app. cbn. rewrite Hi, app_nil_r. split.
  - intros t Ht. destruct (Hl t Ht) as [? [?|?]]; set_solver.
  - set_solver.
Qed.

(** A jump forward, to a label that is pending. *)
Lemma closed_with_jump pending defined l i s :
  target_of i = Some (Some s) → Some s ∈ pending →
  closed_with pending defined l → closed_with pending defined (l ++ [i]).
Proof.
  unfold closed_with, closed_upto, jump_targets, defined_labels.
  intros Hi Hs [Hl Hd]. rewrite !omap_app. cbn. rewrite Hi. split.
  - intros t [Ht|Ht]%elem_of_app.
    + destruct (Hl t Ht) as [? [?|?]]; set_solver.
    + apply list_elem_of_singleton in Ht as ->. split; [done|by right].
  - set_solver.
Qed.

(** A jump backward, to a label that is defined. *)
Lemma closed_with_jump_back pending defined l i s :
  target_of i = Some (Some s) → Some s ∈ defined →
  closed_with pending defined l → closed_with pending defined (l ++ [i]).
Proof.
  unfold closed_with, closed_upto, jump_targets, defined_labels.
  intros Hi Hs [Hl Hd]. rewrite !omap_app. cbn. rewrite Hi. split.
  - intros t [Ht|Ht]%elem_of_app.
    + destruct (Hl t Ht) as [? [?|?]]; set_solver.
    + apply list_elem_of_singleton in Ht as ->. split; [done|].
      left. apply elem_of_app. left. by apply Hd.
  - set_solver.
Qed.

(** A label: it is pending no more, and defined from now on. *)
Lemma closed_with_label pending pending' defined defined' l s :
  (∀ t, t ∈ pending' → t = Some s ∨ t ∈ pending) →
  (∀ d, d ∈ defined' → d = Some s ∨ d ∈ defined) →
  closed_with pending' defined l →
  closed_with pending defined'
    (l ++ [TACInstr TACOp.LABEL ONone ONone (Some s)]).
Proof.
  unfold closed_with, closed_upto, jump_targets, defined_labels.
  intros Hp Hd' [Hl Hd]. rewrite !omap_app. cbn. rewrite app_nil_r. split.
  - intros t Ht. destruct (Hl t Ht) as [? [?|Hpend]]; [set_solver|].
    destruct (Hp t Hpend); set_solver.
  - intros d Hin. destruct (Hd' d Hin); set_solver.
Qed.

Lemma closed_with_weaken pending pending' defined l :
  pending ⊆ pending' →
  closed_with pending defined l → closed_with pending' defined l.
Proof.
  unfold closed_with, closed_upto. intros Hp [Hl Hd]. split; [|done].
  intros t Ht. destruct (Hl t Ht) as [? [?|?]]; set_solver.
Qed.

Lemma generate_expr_closed pending defined e g :
  closed_with pending defined (instructions g) →
  closed_with pending defined (instructions (generate_expr e g).2).
Proof.
  revert g. induction e as [o l IHl r IHr|o x IHx|v ty|name]; intros g Hg;
    cbn.
  - specialize (IHl g Hg). destruct (generate_expr l g) as [lt g1].
    specialize (IHr g1 IHl). destruct (generate_expr r g1) as [rt g2].
    cbn in *. apply closed_with_other; [by destruct o|done].
  - specialize (IHx g Hg). destruct (generate_expr x g) as [xt g1].
    cbn in *. apply closed_with_other; [by destruct o|done].
  - by apply closed_with_other.
  - done.
Qed.

Lemma generate_block_closed (l : list stmt) :
  Forall (λ s, ∀ pending defined g,
            closed_with pending defined (instructions g) →
            closed_with pending defined (instructions (generate_stmt s g)))
         l →
  ∀ pending defined g, closed_with pending defined (instructions g) →
    closed_with pending defined
      (instructions (fold_left (λ g s, generate_stmt s g) l g)).
Proof.
  intros Hl pending defined g Hg.
  apply (generate_block
           (λ g, closed_with pending defined (instructions g))
           (λ _, true) l); [|by apply forallb_of_Forall, Forall_true|done].
  eapply Forall_impl; [exact Hl|]. cbn. auto.
Qed.

Lemma generate_stmt_closed s :
  ∀ pending defined g, closed_with pending defined (instructions g) →
    closed_with pending defined (instructions (generate_stmt s g)).
Proof.
  induction s as [ty name init|name e|c tb eb IHt IHe|c body IH|e]
    using stmt_induction; intros pending defined g Hg; cbn -[emit].
  - destruct init as [e|]; [|done].
    pose proof (generate_expr_closed pending defined e g Hg) as H1.
    destruct (generate_expr e g) as [vt g1]. by apply closed_with_other.
  - pose proof (generate_expr_closed pending defined e g Hg) as H1.
    destruct (generate_expr e g) as [vt g1]. by apply closed_with_other.
  - pose proof (generate_expr_closed pending defined c g Hg) as H1.
    destruct (generate_expr c g) as [ct g1]. cbn [snd] in H1.
    set (else_label := label_name (label_counter g1)).
    set (end_label := label_name (S (label_counter g1))).
    set (pending' := Some else_label :: Some end_label :: pending).
    set (g2 := emit TACOp.IF_FALSE _ _ _ _).
    assert (closed_with pending' defined (instructions g2)) as H2.
    { apply (closed_with_jump _ _ _ _ else_label); [done|set_solver|].
      eapply closed_with_weaken; [|exact H1]. set_solver. }
    pose proof (generate_block_closed tb IHt pending' defined g2 H2) as H3.
    set (g3 := fold_left _ tb g2) in *.
    set (g4 := emit TACOp.GOTO ONone ONone (Some end_label) g3).
    assert (closed_with pending' defined (instructions g4)) as H4.
    { apply (closed_with_jump _ _ _ _ end_label); [done|set_solver|done]. }
    set (g5 := emit TACOp.LABEL ONone ONone (Some else_label) g4).
    assert (closed_with (Some end_label :: pending) defined
              (instructions g5)) as H5.
    { apply closed_with_label with (pending' := pending') (defined := defined);
        [set_solver..|done]. }
    assert (∀ g6, closed_with (Some end_label :: pending) defined
                    (instructions g6) →
              closed_with pending defined
                (instructions
                   (emit TACOp.LABEL ONone ONone (Some end_label) g6))) as H6.
    { intros g6 Hg6.
      apply closed_with_label
        with (pending' := Some end_label :: pending) (defined := defined);
        [set_solver..|done]. }
    destruct eb as [[|s0 rest]|]; [by apply H6| |by apply H6].
    apply H6. by apply (generate_block_closed (s0 :: rest) IHe).
  - set (start_label := label_name (label_counter g)).
    set (end_label := label_name (S (label_counter g))).
    set (pending' := Some end_label :: pending).
    set (defined' := Some start_label :: defined).
    set (g1 := emit TACOp.LABEL ONone ONone (Some start_label) _).
    assert (closed_with pending' defined' (instructions g1)) as H1.
    { eapply closed_with_weaken with (pending := pending); [set_solver|].
      apply closed_with_label with (pending' := pending) (defined := defined);
        [set_solver..|done]. }
    pose proof (generate_expr_closed _ _ c g1 H1) as H2.
    destruct (generate_expr c g1) as [ct g2]. cbn [snd] in H2.
    set (g3 := emit TACOp.IF_FALSE _ _ _ g2).
    assert (closed_with pending' defined' (instructions g3)) as H3.
    { apply (closed_with_jump _ _ _ _ end_label); [done|set_solver|done]. }
    pose proof (generate_block_closed body IH _ _ g3 H3) as H4.
    set (g4 := fold_left _ body g3) in *.
    apply closed_with_label with (pending' := pending') (defined := defined');
      [set_solver..|].
    apply (closed_with_jump_back _ _ _ _ start_label);
      [done|set_solver|done].
  - pose proof (generate_expr_closed pending defined e g Hg) as H1.
    destruct (generate_expr e g) as [vt g1]. by apply closed_with_other.
Qed.

(** The TAC of a program defines every label it jumps to. *)
Lemma tac_of_labels_closed (p : Program) :
  labels_closed (TinyLangFullCompiler.tac_of p).
Proof.
  unfold TinyLangFullCompiler.tac_of, generate.
  refine (proj1 (generate_block_closed p _ [] [] init _)).
  - apply Forall_forall. intros s _. apply generate_stmt_closed.
  - split; [|set_solver]. intros t Ht. cbn in Ht. set_solver.
Qed.
End labels_of_generated_code.

Section labels_through_the_optimizer.
Import TACOptimizer.

Lemma fold_instr_control c i : same_control (fold_instr c i).1 i.
Proof.
  unfold same_control, fold_instr, label_of, target_of.
  destruct (op i) eqn:Hop; cbn;
    repeat (match goal with
            | |- context [isinstance_int ?x] => destruct (isinstance_int x)
            end; cbn); rewrite ?Hop; done.
Qed.

Lemma simplify_instr_control i : same_control (simplify_instr i) i.
Proof.
  unfold same_control, simplify_instr, label_of, target_of.
  destruct (op i) eqn:Hop; cbn; rewrite ?Hop; try done;
    repeat (match goal with
            | |- context [operand_eq_int ?x ?n] =>
                destruct (operand_eq_int x n)
            end; cbn); rewrite ?Hop; done.
Qed.

Lemma dce_keeps_control U i :
  dce_keeps U i = false → label_of i = None ∧ target_of i = None.
Proof.
  unfold dce_keeps, assigns_t, label_of, target_of.
  destruct (op i); done.
Qed.

Lemma omap_fold_from {B} (f : TACInstruction → option B) c l :
  (∀ c i, f (fold_instr c i).1 = f i) →
  omap f (fold_from c l).1 = omap f l.
Proof.
  intros Hf. revert c. induction l as [|i l IH]; intros c; [done|].
  rewrite fold_from_cons. cbn. by rewrite Hf, IH.
Qed.

Lemma omap_filter_None {A B} (f : A → option B) (keep : A → bool)
    (l : list A) :
  (∀ i, keep i = false → f i = None) →
  omap f (filter (λ i, keep i = true) l) = omap f l.
Proof.
  intros Hf. induction l as [|i l IH]; [done|].
  rewrite filter_cons. destruct (keep i) eqn:E.
  - rewrite decide_True by done. cbn. by rewrite IH.
  - rewrite decide_False by done. cbn. by rewrite (Hf i E), IH.
Qed.

Lemma omap_fmap_same {A B} (f : A → option B) (h : A → A) (l : list A) :
  (∀ i, f (h i) = f i) → omap f (h <$> l) = omap f l.
Proof.
  intros Hf. induction l as [|i l IH]; [done|]. cbn. by rewrite Hf, IH.
Qed.

Lemma optimize_control l :
  defined_labels (optimize l) = defined_labels l
  ∧ jump_targets (optimize l) = jump_targets l.
Proof.
  unfold optimize, defined_labels, jump_targets, constant_folding, fold_loop.
  rewrite algebraic_simplification_map, dead_code_elimination_filter.
  split.
  - rewrite omap_fmap_same by apply simplify_instr_control.
    rewrite omap_filter_None by (intros i Hi; by eapply dce_keeps_control).
    apply omap_fold_from. intros c i. apply fold_instr_control.
  - rewrite omap_fmap_same by apply simplify_instr_control.
    rewrite omap_filter_None by (intros i Hi; by eapply dce_keeps_control).
    apply omap_fold_from. intros c i. apply fold_instr_control.
Qed.

Lemma optimize_labels_closed l :
  labels_closed l → labels_closed (optimize l).
Proof.
  unfold labels_closed, closed_upto.
  destruct (optimize_control l) as [-> ->]. done.
Qed.
End labels_through_the_optimizer.

Section labels_in_bytecode.
Import BytecodeGenerator.

(** [_generate_instruction] appends to the bytecode, leaves [labels]
    alone, and appends a jump only for a [GOTO] or an [IF_FALSE], with the
    [result] of the instruction as its [arg]. *)
Lemma _generate_instruction_appends instr b :
  ∃ code,
    _generate_instruction instr b = mk (bytecode b ++ code) (labels b)
    ∧ ∀ j, j ∈ code → BytecodeOp.is_jump (bop j) = true →
           ∃ t, target_of instr = Some t ∧ arg j = operand_of_result t.
Proof.
  unfold _generate_instruction, _load_operand, append, target_of.
  destruct (op instr) eqn:Hop; cbn;
    repeat (match goal with
            | |- context [isinstance_int ?x] => destruct (isinstance_int x)
            end; cbn);
    rewrite <- ?(assoc_L (++)); cbn;
    try (eexists; split; [reflexivity|];
         intros j Hj Hjump; rewrite ?elem_of_cons, elem_of_nil in Hj;
         destruct_or!; subst j; try done; eauto).
  - exists []. rewrite app_nil_r. split; [by destruct b|]. set_solver.
  - exists []. rewrite app_nil_r. split; [by destruct b|]. set_solver.
Qed.

(** The first pass of [generate], from any state whose recorded addresses
    do not exceed the length of its bytecode. *)
Lemma first_pass_spec l : ∀ b,
  (∀ k n, labels b !! k = Some n → n ≤ length (bytecode b)) →
  let b' := fold_left first_pass_step l b in
  (∀ k n, labels b' !! k = Some n → n ≤ length (bytecode b'))
  ∧ (∀ k, is_Some (labels b !! k) ∨ k ∈ defined_labels l →
          is_Some (labels b' !! k))
  ∧ (∀ j, j ∈ bytecode b' → BytecodeOp.is_jump (bop j) = true →
          j ∈ bytecode b
          ∨ ∃ t, t ∈ jump_targets l ∧ arg j = operand_of_result t).
Proof.
  induction l as [|i l IH]; intros b Hb; cbn zeta.
  { cbn. split; [done|]. split; [|by left]. intros k [?|?]; set_solver. }
  cbn [fold_left].
  assert (∃ b1, first_pass_step b i = b1
    ∧ (∀ k n, labels b1 !! k = Some n → n ≤ length (bytecode b1))
    ∧ (∀ k, is_Some (labels b !! k) ∨ label_of i = Some k →
            is_Some (labels b1 !! k))
    ∧ (∀ j, j ∈ bytecode b1 → BytecodeOp.is_jump (bop j) = true →
            j ∈ bytecode b
            ∨ ∃ t, target_of i = Some t ∧ arg j = operand_of_result t))
    as (b1 & -> & Hb1 & Hl1 & Hj1).
  { eexists. split; [reflexivity|]. unfold first_pass_step, label_of.
    destruct (_generate_instruction_appends i b) as (code & Hgen & Hcode).
    destruct (decide (op i = TACOp.LABEL)) as [Hop|Hop].
    - rewrite Hop. cbn. split; [|split].
      + intros k n. rewrite lookup_insert. case_decide; [|by apply Hb].
        by intros [= <-].
      + intros k [Hk|[= <-]].
        * rewrite lookup_insert. case_decide; [done|]. done.
        * by rewrite lookup_insert_eq.
      + by left.
    - assert (match op i with
              | TACOp.LABEL => mk (bytecode b)
                                 (<[result i := length (bytecode b)]> (labels b))
              | _ => _generate_instruction i b
              end = _generate_instruction i b) as -> by (by destruct (op i)).
      rewrite Hgen. cbn. split; [|split].
      + intros k n Hk. rewrite length_app. specialize (Hb k n Hk). lia.
      + intros k [Hk|Hk]; [done|]. by destruct (op i).
      + intros j [Hj|Hj]%elem_of_app Hjump; [by left|]. right. eauto. }
  destruct (IH b1 Hb1) as (H1 & H2 & H3).
  split; [done|]. split.
  - intros k [Hk|Hk]; apply H2.
    + left. apply Hl1. by left.
    + unfold defined_labels in Hk. cbn in Hk.
      destruct (label_of i) as [k'|] eqn:Hlab; [|by right].
      apply elem_of_cons in Hk as [->|Hk]; [|by right].
      left. apply Hl1. by right.
  - intros j Hj Hjump. destruct (H3 j Hj Hjump) as [Hin|(t & Ht & Harg)].
    + destruct (Hj1 j Hin Hjump) as [?|(t & Ht & Harg)]; [by left|].
      right. exists t. split; [|done].
      unfold jump_targets. cbn. rewrite Ht. set_solver.
    + right. exists t. split; [|done].
      unfold jump_targets in *. cbn. destruct (target_of i); set_solver.
Qed.

(** The bytecode of a list that defines the labels it jumps to has every
    jump resolved to an index into itself. *)
Lemma generate_resolves (tac : list TACInstruction) :
  labels_closed tac →
  ∀ j, j ∈ generate tac → BytecodeOp.is_jump (bop j) = true →
    ∃ target : nat,
      arg j = OImm (VInt (Z.of_nat target)) ∧ target < length (generate tac).
Proof.
  intros Hclosed j Hj Hjump.
  unfold generate, generate_from, _resolve_labels, append in *.
  destruct (first_pass_spec tac init) as (H1 & H2 & H3); [done|].
  set (b' := fold_left first_pass_step tac init) in *. cbn in *.
  apply list_elem_of_fmap in Hj as (j0 & -> & Hj0).
  assert (BytecodeOp.is_jump (bop j0) = true) as Hjump0.
  { revert Hjump. unfold resolve_instr.
    destruct (BytecodeOp.is_jump (bop j0)) eqn:E; [done|]. by rewrite E. }
  apply elem_of_app in Hj0 as [Hj0|Hj0];
    [|apply list_elem_of_singleton in Hj0 as ->; done].
  destruct (H3 j0 Hj0 Hjump0) as [Hin|(t & Ht & Harg)]; [set_solver|].
  destruct (Hclosed t Ht) as [[s ->] [Hdef|Hpend]]; [|set_solver].
  destruct (H2 (Some s)) as [n Hn]; [by right|].
  exists n. unfold resolve_instr. rewrite Hjump0, Harg. cbn. rewrite Hn.
  split; [done|]. rewrite length_fmap, length_app. cbn.
  specialize (H1 _ _ Hn). lia.
Qed.
End labels_in_bytecode.

(** C7: in the bytecode emitted for the TAC of a program, as the generator
    produced it or after [optimize] (which is what the pipeline emits from),
    every [JUMP] and every [JUMP_IF_FALSE] has as its argument an integer
    that is an index into the bytecode; no jump keeps a label name.  This
    holds for every program, well typed or not. *)
Theorem C7_jumps_resolved_to_indices :
  ∀ (p : Program) (tac : list TACInstruction),
    tac = TinyLangFullCompiler.tac_of p
    ∨ tac = TACOptimizer.optimize (TinyLangFullCompiler.tac_of p) →
    ∀ (n : nat) (instr : BytecodeInstruction),
      BytecodeGenerator.generate tac !! n = Some instr →
      BytecodeOp.is_jump (bop instr) = true →
      ∃ target : nat,
        arg instr = OImm (VInt (Z.of_nat target))
        ∧ target < length (BytecodeGenerator.generate tac).
Proof.
  intros p tac Htac n instr Hn Hjump.
  apply generate_resolves; [|by eapply list_elem_of_lookup_2|done].
  destruct Htac as [->| ->].
  - apply tac_of_labels_closed.
  - apply optimize_labels_closed, tac_of_labels_closed.
Qed.

(** C7 at the loop of [prog_counter], optimised: the conditional jump at
    index 11 goes to index 23, the [HALT] that ends the 24 instructions. *)
Lemma C7_witness :
  ∃ target : nat,
    arg (BytecodeInstr BytecodeOp.JUMP_IF_FALSE (OImm (VInt 23)))
    = OImm (VInt (Z.of_nat target))
    ∧ target < length (BytecodeGenerator.generate
                         (TACOptimizer.optimize
                            (TinyLangFullCompiler.tac_of prog_counter))).
Proof.
  apply (C7_jumps_resolved_to_indices prog_counter _ (or_intror eq_refl) 11).
  - vm_compute. reflexivity.
  - reflexivity.
Defined.

(** ** Running the optimiser twice *)

Section optimizer_twice.
Import TACOptimizer.

Lemma no_name_used x : no_name x = true ↔ used_name x = ∅.
Proof.
  destruct x as [|v|s]; cbn; [done..|].
  rewrite bool_decide_eq_true. case_decide; [done|].
  split; [done|]. intros Hs. set_solver.
Qed.

(** The instruction that folding appends has the result of the one it
    read. *)
Lemma fold_instr_result c i : result (fold_instr c i).1 = result i.
Proof.
  unfold fold_instr.
  destruct (op i); cbn;
    repeat (match goal with
            | |- context [isinstance_int ?x] => destruct (isinstance_int x)
            end; cbn); done.
Qed.

Lemma constants_get_agree U c c' x :
  agree U c c' → used_name x ⊆ U →
  constants_get c x = constants_get c' x.
Proof.
  intros Hc Hx. destruct x as [|v|s]; cbn; [|done|].
  - rewrite (Hc None); [done|]. by intros (r & ? & _).
  - rewrite (Hc (Some s)); [done|]. intros (r & [= <-] & Hr & Hn).
    cbn in Hx. case_decide as Hs; [by subst s|]. set_solver.
Qed.

Lemma agree_insert U c c' k v :
  agree U c c' → agree U (<[k := v]> c) (<[k := v]> c').
Proof.
  intros Hc k' Hk'. rewrite !lookup_insert. case_decide; [done|by apply Hc].
Qed.

(** The cases of one iteration of constant folding. *)
Lemma fold_instr_assign c i v :
  op i = TACOp.ASSIGN → isinstance_int (arg1 i) = Some v →
  fold_instr c i = (i, <[result i := v]> c).
Proof. intros Hop Hv. unfold fold_instr. by rewrite Hop, Hv. Qed.

Lemma fold_instr_folded c i v1 v2 :
  TACOp.is_arith (op i) = true →
  isinstance_int (constants_get c (arg1 i)) = Some v1 →
  isinstance_int (constants_get c (arg2 i)) = Some v2 →
  fold_instr c i
  = (TACInstr TACOp.ASSIGN (OImm (VInt (fold_value (op i) v1 v2))) ONone
       (result i),
     <[result i := VInt (fold_value (op i) v1 v2)]> c).
Proof.
  intros Hop H1 H2. unfold fold_instr. rewrite H1, H2.
  by destruct (op i).
Qed.

Lemma fold_instr_unfolded c i :
  TACOp.is_arith (op i) = true →
  isinstance_int (constants_get c (arg1 i)) = None
  ∨ isinstance_int (constants_get c (arg2 i)) = None →
  fold_instr c i = (i, c).
Proof.
  intros Hop H. unfold fold_instr.
  destruct (op i); try done;
    destruct H as [-> | ->]; try done;
    by destruct (isinstance_int (constants_get c (arg1 i))).
Qed.

Lemma fold_instr_plain c i :
  TACOp.is_arith (op i) = false →
  ¬ (op i = TACOp.ASSIGN ∧ is_Some (isinstance_int (arg1 i))) →
  fold_instr c i = (i, c).
Proof.
  intros Hop Hnot. unfold fold_instr.
  destruct (op i); try done.
  destruct (isinstance_int (arg1 i)); [|done]. destruct Hnot. eauto.
Qed.

(** Folding what folding appended, from constants that agree on the names
    in use, appends it again and keeps the constants in agreement. *)
Lemma fold_instr_again U c c' i :
  agree U c c' →
  used_name (arg1 (fold_instr c i).1) ⊆ U →
  used_name (arg2 (fold_instr c i).1) ⊆ U →
  (fold_instr c' (fold_instr c i).1).1 = (fold_instr c i).1
  ∧ agree U (fold_instr c i).2 (fold_instr c' (fold_instr c i).1).2.
Proof.
  intros Hc.
  destruct (decide (op i = TACOp.ASSIGN ∧ is_Some (isinstance_int (arg1 i))))
    as [[Hop [v Hv]]|Hnot].
  { rewrite (fold_instr_assign c i v) by done. cbn [fst snd].
    rewrite (fold_instr_assign c' i v) by done. cbn [fst snd].
    intros _ _. split; [done|]. by apply agree_insert. }
  destruct (TACOp.is_arith (op i)) eqn:Harith.
  - destruct (isinstance_int (constants_get c (arg1 i))) as [v1|] eqn:Hv1;
      [destruct (isinstance_int (constants_get c (arg2 i))) as [v2|] eqn:Hv2|].
    + rewrite (fold_instr_folded c i v1 v2) by done. cbn [fst snd]. intros _ _.
      rewrite (fold_instr_assign c' _ (VInt (fold_value (op i) v1 v2)))
        by done.
      cbn [fst snd]. split; [done|]. by apply agree_insert.
    + rewrite (fold_instr_unfolded c i) by auto. cbn [fst snd]. intros Hu1 Hu2.
      rewrite (fold_instr_unfolded c' i); [done|done|].
      right. by rewrite <- (constants_get_agree U c c').
    + rewrite (fold_instr_unfolded c i) by auto. cbn [fst snd]. intros Hu1 Hu2.
      rewrite (fold_instr_unfolded c' i); [done|done|].
      left. by rewrite <- (constants_get_agree U c c').
  - rewrite (fold_instr_plain c i) by done. cbn [fst snd]. intros _ _.
    by rewrite (fold_instr_plain c' i).
Qed.

(** An instruction that dead-code elimination removes had recorded, if
    anything, a dropped key. *)
Lemma fold_instr_dropped U c c' i :
  agree U c c' → dce_keeps U (fold_instr c i).1 = false →
  agree U (fold_instr c i).2 c'.
Proof.
  intros Hc Hdead.
  assert (dropped_key U (result i)) as Hdrop.
  { revert Hdead. unfold dce_keeps, assigns_t.
    rewrite fold_instr_result.
    destruct (op (fold_instr c i).1); try done.
    destruct (result i) as [r|]; [|done].
    destruct (startswith_t r) eqn:Hr; [|done].
    rewrite bool_decide_eq_false. intros Hn. by exists r. }
  destruct (fold_instr_constants c i) as [->|(_ & v & ->)]; [done|].
  intros k Hk. rewrite lookup_insert_ne; [by apply Hc|]. by intros <-.
Qed.

Lemma fold_from_after_dce U l : ∀ c c',
  agree U c c' →
  (∀ i, i ∈ (fold_from c l).1 →
        used_name (arg1 i) ⊆ U ∧ used_name (arg2 i) ⊆ U) →
  (fold_from c' (filter (λ i, dce_keeps U i = true) (fold_from c l).1)).1
  = filter (λ i, dce_keeps U i = true) (fold_from c l).1.
Proof.
  induction l as [|i l IH]; intros c c' Hc Hused; [done|].
  rewrite fold_from_cons in Hused |- *. cbn [fst] in Hused |- *.
  rewrite filter_cons.
  destruct (dce_keeps U (fold_instr c i).1) eqn:Hkeep.
  - rewrite decide_True by done. rewrite fold_from_cons. cbn [fst].
    destruct (Hused (fold_instr c i).1) as [Hu1 Hu2]; [set_solver|].
    destruct (fold_instr_again U c c' i Hc Hu1 Hu2) as [-> Hc'].
    f_equal. apply IH; [done|]. intros j Hj. apply Hused. set_solver.
  - rewrite decide_False by done.
    apply IH; [by apply fold_instr_dropped|].
    intros j Hj. apply Hused. set_solver.
Qed.

(** Constant folding finds nothing to do after constant folding and
    dead-code elimination, on any list. *)
Lemma constant_folding_after_dce l :
  constant_folding (dead_code_elimination (constant_folding l))
  = dead_code_elimination (constant_folding l).
Proof.
  rewrite dead_code_elimination_filter.
  unfold constant_folding, fold_loop.
  apply fold_from_after_dce; [done|].
  intros i Hi. split; intros x Hx; apply elem_of_collect_used; eauto.
Qed.

Lemma filter_all {A} (P : A → Prop) `{∀ x, Decision (P x)} (l : list A) :
  Forall P l → filter P l = l.
Proof.
  induction 1 as [|x l Hx _ IH]; [done|].
  rewrite filter_cons, decide_True by done. by rewrite IH.
Qed.

(** On settled instructions dead-code elimination finds nothing to do the
    second time. *)
Lemma dead_code_elimination_twice l :
  forallb settled l = true →
  dead_code_elimination (dead_code_elimination l) = dead_code_elimination l.
Proof.
  intros Hl. rewrite (dead_code_elimination_filter (dead_code_elimination l)).
  apply filter_all, Forall_forall. intros i Hi.
  rewrite dead_code_elimination_filter in Hi |- *.
  set (U := collect_used l) in *.
  apply list_elem_of_filter in Hi as [Hkeep Hi].
  revert Hkeep. unfold dce_keeps.
  destruct (assigns_t i) eqn:Hassign; [|done].
  destruct (result i) as [r|]; [|done].
  rewrite !bool_decide_eq_true, elem_of_collect_used.
  intros (j & Hj & Hr)%elem_of_collect_used. exists j. split; [|done].
  apply list_elem_of_filter. split; [|done].
  destruct (assigns_t j) eqn:Hj'; [|done].
  rewrite forallb_forall in Hl. specialize (Hl j).
  rewrite <- list_elem_of_In in Hl. specialize (Hl Hj).
  unfold settled in Hl. rewrite Hj' in Hl.
  apply andb_prop in Hl as [_ [H1 H2]%andb_prop].
  apply no_name_used in H1, H2. set_solver.
Qed.

Lemma settled_fold_instr c i :
  settled i = true → settled (fold_instr c i).1 = true.
Proof.
  intros Hi. unfold fold_instr.
  destruct (op i) eqn:Hop; cbn;
    repeat (match goal with
            | |- context [isinstance_int ?x] =>
                destruct (isinstance_int x) eqn:?
            end; cbn); try done.
  all: destruct (result i) as [r|]; [by destruct (startswith_t r)|done].
Qed.

Lemma settled_constant_folding l :
  forallb settled l = true → forallb settled (constant_folding l) = true.
Proof.
  unfold constant_folding, fold_loop. generalize (∅ : gmap (option string) value).
  induction l as [|i l IH]; intros c Hl; [done|].
  cbn in Hl. apply andb_prop in Hl as [Hi Hl].
  rewrite fold_from_cons. cbn. by rewrite settled_fold_instr, IH.
Qed.

Lemma settled_dead_code_elimination l :
  forallb settled l = true →
  forallb settled (dead_code_elimination l) = true.
Proof.
  rewrite dead_code_elimination_filter, !forallb_forall.
  intros Hl i Hi. apply Hl. apply list_elem_of_In in Hi.
  apply list_elem_of_filter in Hi as [_ Hi]. by apply list_elem_of_In.
Qed.

(** Nothing to simplify in settled instructions. *)
Lemma algebraic_simplification_settled l :
  forallb settled l = true → algebraic_simplification l = l.
Proof.
  rewrite algebraic_simplification_map.
  induction l as [|i l IH]; intros Hl; [done|].
  cbn in Hl. apply andb_prop in Hl as [Hi Hl]. cbn. rewrite IH by done.
  f_equal. unfold settled in Hi. apply andb_prop in Hi as [Hi _].
  unfold simplify_instr, operand_eq_int.
  destruct (op i); try done;
    apply andb_prop in Hi as [H1 H2];
    apply bool_decide_eq_true in H1, H2;
    by destruct (arg1 i), (arg2 i).
Qed.

Lemma optimize_twice_settled l :
  forallb settled l = true → optimize (optimize l) = optimize l.
Proof.
  intros Hl. unfold optimize.
  pose proof (settled_dead_code_elimination _
                (settled_constant_folding _ Hl)) as H2.
  rewrite (algebraic_simplification_settled _ H2).
  rewrite constant_folding_after_dce.
  rewrite dead_code_elimination_twice by by apply settled_constant_folding.
  by apply algebraic_simplification_settled.
Qed.

(** The TAC of a program without [t]-named variables is settled. *)
Lemma tac_of_settled (p : Program) :
  no_t_names p = true → forallb settled (TinyLangFullCompiler.tac_of p) = true.
Proof.
  intros Hp. apply forallb_of_Forall.
  apply (generate_Forall _ (λ name, negb (startswith_t name))); try done.
  - intros o a b n. unfold settled, assigns_t. by destruct o.
  - intros o a n. unfold settled, assigns_t. by destruct o.
  - intros a x Hx. unfold settled, assigns_t. cbn.
    by destruct (startswith_t x).
Qed.
End optimizer_twice.

(** C8, as stated, fails.  On [r = x * 0; s = r + 5] the first run
    simplifies the product to [r = 0], and only a second run can fold
    [s = r + 5] to [s = 5]: the passes run once, in a fixed order.  On the
    TAC of [int total = 5;] the first run removes the write to [total] and
    keeps [t0 = 5], which that write was reading; a second run removes it. *)
Lemma C8_optimize_twice_differs :
  TACOptimizer.optimize (TACOptimizer.optimize tac_mul_zero)
  ≠ TACOptimizer.optimize tac_mul_zero
  ∧ TACOptimizer.optimize tac_mul_zero
    = [TACInstr TACOp.ASSIGN (OImm (VInt 0)) ONone (Some "r");
       TACInstr TACOp.ADD (OName "r") (OImm (VInt 5)) (Some "s")]
  ∧ TACOptimizer.optimize (TACOptimizer.optimize tac_mul_zero)
    = [TACInstr TACOp.ASSIGN (OImm (VInt 0)) ONone (Some "r");
       TACInstr TACOp.ASSIGN (OImm (VInt 5)) ONone (Some "s")]
  ∧ TACOptimizer.optimize (TinyLangFullCompiler.tac_of prog_total)
    = [TACInstr TACOp.ASSIGN (OImm (VInt 5)) ONone (Some "t0")]
  ∧ TACOptimizer.optimize
      (TACOptimizer.optimize (TinyLangFullCompiler.tac_of prog_total)) = [].
Proof. repeat split; vm_compute; done. Qed.

(** C8, amended: applying the optimiser twice yields the same list as
    applying it once on the TAC that the generator produces for a program
    none of whose declared or assigned variables has a name starting with
    [t], and more generally on every TAC list that is settled, that is, in
    which no [ADD] or [MUL] has an integer operand and no [ASSIGN] to a name
    starting with [t] has a name operand. *)
Theorem C8_optimize_idempotent_on_settled_tac :
  ∀ (p : Program) (instructions : list TACInstruction),
    (no_t_names p = true ∧ instructions = TinyLangFullCompiler.tac_of p)
    ∨ forallb settled instructions = true →
    TACOptimizer.optimize (TACOptimizer.optimize instructions)
    = TACOptimizer.optimize instructions.
Proof.
  intros p l [[Hp ->]|Hl]; apply optimize_twice_settled; [|done].
  by apply tac_of_settled.
Qed.

(** C8 at the counting loop [prog_counter]. *)
Lemma C8_witness :
  TACOptimizer.optimize
    (TACOptimizer.optimize (TinyLangFullCompiler.tac_of prog_counter))
  = TACOptimizer.optimize (TinyLangFullCompiler.tac_of prog_counter).
Proof.
  apply (C8_optimize_idempotent_on_settled_tac prog_counter).
  left. split; reflexivity.
Defined.

(** * Further properties of the code *)

(** ** The optimiser *)

Section optimizer_more.
Import TACOptimizer.

(** X1: whatever the input list, [optimize] returns the same labels, jumps
    and prints, in the same order and with the same operands: it changes,
    drops or adds none of them. *)
Theorem X1_optimize_keeps_labels_jumps_prints (l : list TACInstruction) :
  omap observable_of (optimize l) = omap observable_of l.
Proof.
  unfold optimize, constant_folding, fold_loop.
  rewrite algebraic_simplification_map, dead_code_elimination_filter.
  rewrite omap_fmap_same.
  - rewrite omap_filter_None.
    + apply omap_fold_from. intros c i. unfold observable_of, fold_instr.
      destruct (op i) eqn:Hop; cbn;
        repeat (match goal with
                | |- context [isinstance_int ?x] => destruct (isinstance_int x)
                end; cbn); rewrite ?Hop; done.
    + intros i. unfold dce_keeps, assigns_t, observable_of.
      by destruct (op i).
  - intros i. unfold observable_of, simplify_instr.
    destruct (op i) eqn:Hop; cbn; rewrite ?Hop; try done;
      repeat (match goal with
              | |- context [operand_eq_int ?x ?n] =>
                  destruct (operand_eq_int x n)
              end; cbn); rewrite ?Hop; done.
Qed.

(** Folding what folding produced changes nothing, from constants that
    agree on the names the list uses. *)
Lemma constant_folding_twice l :
  constant_folding (constant_folding l) = constant_folding l.
Proof.
  set (l1 := constant_folding l).
  set (U := collect_used l1 ∪ list_to_set (omap result l1)).
  assert (filter (λ i, dce_keeps U i = true) l1 = l1) as Hall.
  { apply filter_all, Forall_forall. intros i Hi.
    unfold dce_keeps, assigns_t.
    destruct (op i); try done.
    destruct (result i) as [r|] eqn:Hr; [|done].
    destruct (startswith_t r); [|done].
    apply bool_decide_eq_true. apply elem_of_union_r, elem_of_list_to_set.
    apply list_elem_of_omap. eauto. }
  pose proof (fold_from_after_dce U l ∅ ∅) as H.
  fold (fold_loop l) in H. fold (constant_folding l) in H. fold l1 in H.
  rewrite Hall in H. apply H; [done|].
  intros i Hi. split; intros x Hx; apply elem_of_union_l;
    apply elem_of_collect_used; eauto.
Qed.

(** X2: dead-code elimination returns its input without, exactly, the
    instructions whose op is [ASSIGN], whose result starts with [t] and whose
    result is the [arg1] or [arg2] of no instruction of the input; what it
    keeps stays in order.  An instruction whose result is read somewhere is
    never removed. *)
Theorem X2_dce_removes_exactly_unread_t_assignments
    (l : list TACInstruction) :
  (∃ keep : TACInstruction → bool,
     dead_code_elimination l = List.filter keep l
     ∧ ∀ i, keep i = false
            ↔ op i = TACOp.ASSIGN
              ∧ ∃ r, result i = Some r ∧ startswith_t r = true
                     ∧ ∀ j, j ∈ l → arg1 j ≠ OName r ∧ arg2 j ≠ OName r)
  ∧ ∀ i j r, i ∈ l → j ∈ l → result i = Some r →
             arg1 j = OName r ∨ arg2 j = OName r →
             i ∈ dead_code_elimination l.
Proof.
  destruct (dce_removes_unused_t_assignments l) as ((keep & Hk & Hdead) & _).
  split; [by exists keep|].
  intros i j r Hi Hj Hr Hread. rewrite Hk.
  apply list_elem_of_In, filter_In. split; [by apply list_elem_of_In|].
  destruct (keep i) eqn:E; [done|].
  apply Hdead in E as (_ & r' & Hr' & _ & Hnone).
  assert (r' = r) as -> by congruence.
  destruct (Hnone j Hj). by destruct Hread.
Qed.

(** X3: constant folding finds nothing more to fold in its own output,
    whether dead-code elimination ran in between or not, on every list. *)
Theorem X3_constant_folding_settles (l : list TACInstruction) :
  constant_folding (constant_folding l) = constant_folding l
  ∧ constant_folding (dead_code_elimination (constant_folding l))
    = dead_code_elimination (constant_folding l).
Proof. split; [apply constant_folding_twice|apply constant_folding_after_dce]. Qed.

Lemma simplify_instr_twice i :
  simplify_instr (simplify_instr i) = simplify_instr i.
Proof.
  unfold simplify_instr at 2 3.
  destruct (op i) eqn:Hop; try (unfold simplify_instr; by rewrite Hop).
  - destruct (operand_eq_int (arg2 i) 0) eqn:E2; [done|].
    destruct (operand_eq_int (arg1 i) 0) eqn:E1; [done|].
    unfold simplify_instr. by rewrite Hop, E2, E1.
  - destruct (operand_eq_int (arg2 i) 1) eqn:E2; [done|].
    destruct (operand_eq_int (arg1 i) 1) eqn:E1; [done|].
    destruct (operand_eq_int (arg2 i) 0 || operand_eq_int (arg1 i) 0) eqn:E0;
      [done|].
    unfold simplify_instr. by rewrite Hop, E2, E1, E0.
Qed.

Lemma algebraic_simplification_results l :
  result <$> algebraic_simplification l = result <$> l.
Proof.
  rewrite algebraic_simplification_map, <- list_fmap_compose.
  apply list_fmap_ext. intros _ i _. cbn. unfold simplify_instr.
  destruct (op i); try done;
    repeat (match goal with
            | |- context [operand_eq_int ?x ?n] =>
                destruct (operand_eq_int x n)
            end; cbn); done.
Qed.

(** X4: algebraic simplification rewrites in place: it keeps the length of
    the list and the result of every instruction, and a second application
    changes nothing. *)
Theorem X4_algebraic_simplification_in_place (l : list TACInstruction) :
  length (algebraic_simplification l) = length l
  ∧ result <$> algebraic_simplification l = result <$> l
  ∧ algebraic_simplification (algebraic_simplification l)
    = algebraic_simplification l.
Proof.
  split; [by rewrite algebraic_simplification_map, length_fmap|].
  split; [apply algebraic_simplification_results|].
  rewrite !algebraic_simplification_map, <- list_fmap_compose.
  apply list_fmap_ext. intros _ i _. cbn. apply simplify_instr_twice.
Qed.

Lemma fold_from_results c l : result <$> (fold_from c l).1 = result <$> l.
Proof.
  revert c. induction l as [|i l IH]; intros c; [done|].
  rewrite fold_from_cons. cbn. by rewrite fold_instr_result, IH.
Qed.

(** X5: the results of the instructions that [optimize] returns are a
    sublist of the results of its input: it computes no new name, and keeps
    the order; constant folding alone keeps all of them. *)
Theorem X5_optimize_results_sublist (l : list TACInstruction) :
  result <$> constant_folding l = result <$> l
  ∧ (result <$> optimize l) `sublist_of` (result <$> l).
Proof.
  split; [apply fold_from_results|].
  unfold optimize.
  rewrite algebraic_simplification_results, dead_code_elimination_filter.
  rewrite <- (fold_from_results ∅ l). apply fmap_sublist, sublist_filter.
Qed.
End optimizer_more.

Section optimizer_in_the_pipeline.
Import TACOptimizer.

Lemma no_imm_fold_instr c i :
  no_imm_operands i = true → no_imm_operands (fold_instr c i).1 = true.
Proof.
  intros Hi. unfold fold_instr.
  destruct (op i) eqn:Hop; cbn;
    repeat (match goal with
            | |- context [isinstance_int ?x] =>
                destruct (isinstance_int x) eqn:?
            end; cbn); done.
Qed.

Lemma no_imm_fold_from c l :
  forallb no_imm_operands l = true →
  forallb no_imm_operands (fold_from c l).1 = true.
Proof.
  revert c. induction l as [|i l IH]; intros c Hl; [done|].
  cbn in Hl. apply andb_prop in Hl as [Hi Hl].
  rewrite fold_from_cons. cbn. by rewrite no_imm_fold_instr, IH.
Qed.

Lemma algebraic_simplification_no_imm l :
  forallb no_imm_operands l = true → algebraic_simplification l = l.
Proof.
  rewrite algebraic_simplification_map.
  induction l as [|i l IH]; intros Hl; [done|].
  cbn in Hl. apply andb_prop in Hl as [Hi Hl]. cbn. rewrite IH by done.
  f_equal. unfold no_imm_operands in Hi.
  unfold simplify_instr, operand_eq_int.
  destruct (op i); try done;
    apply andb_prop in Hi as [H1 H2];
    apply bool_decide_eq_true in H1, H2;
    by destruct (arg1 i), (arg2 i).
Qed.

(** X6: on the TAC of a program, any program, algebraic simplification
    has nothing to rewrite: the generator gives every operator names as
    operands, and folding replaces whole instructions, so what [optimize]
    returns is what constant folding and dead-code elimination produce. *)
Theorem X6_simplification_idle_in_pipeline (p : Program) :
  optimize (TinyLangFullCompiler.tac_of p)
  = dead_code_elimination (constant_folding (TinyLangFullCompiler.tac_of p)).
Proof.
  unfold optimize. apply algebraic_simplification_no_imm.
  rewrite dead_code_elimination_filter.
  assert (forallb no_imm_operands
            (constant_folding (TinyLangFullCompiler.tac_of p)) = true) as H.
  { apply no_imm_fold_from, forallb_of_Forall.
    apply (generate_Forall _ (λ _, true)); try done.
    - intros o a b n. by destruct o.
    - intros o a n. by destruct o.
    - apply forallb_of_Forall, Forall_forall. intros s _.
      apply writes_ok_any. }
  rewrite forallb_forall in H |- *. intros i Hi. apply H.
  apply list_elem_of_In in Hi. apply list_elem_of_filter in Hi as [_ Hi].
  by apply list_elem_of_In.
Qed.

(** X7: the value that constant folding computes for [val1 op val2] is the
    value the VM pushes when it runs that operator on the same operands, for
    each of the five arithmetic operators, division and modulo by zero
    included. *)
Theorem X7_folding_agrees_with_vm (o : TACOp.t) (val1 val2 : value)
    (st : list value) (vars : gmap (option string) value) (n : Z)
    (out : list string) :
  TACOp.is_arith o = true →
  VirtualMachine.step (BytecodeInstr (BytecodeGenerator.op_map o) ONone)
    (VirtualMachine.mk (val2 :: val1 :: st) vars n out)
  = VirtualMachine.Next
      (VirtualMachine.mk (VInt (fold_value o val1 val2) :: st) vars (n + 1)
         out).
Proof. intros Ho. by destruct o. Qed.

(** X7 at [7 / 0]. *)
Lemma X7_witness :
  VirtualMachine.step (BytecodeInstr BytecodeOp.DIV ONone)
    (VirtualMachine.mk [VInt 0; VInt 7] ∅ 0 [])
  = VirtualMachine.Next (VirtualMachine.mk [VInt 0] ∅ 1 []).
Proof.
  apply (X7_folding_agrees_with_vm TACOp.DIV (VInt 7) (VInt 0) [] ∅ 0 []).
  reflexivity.
Defined.
End optimizer_in_the_pipeline.

(** ** The symbol table *)

Section symbol_table_more.
Import SymbolTable.

(** X8: leaving a scope that was just entered gives back the table as it
    was, whatever the table. *)
Theorem X8_exit_scope_undoes_enter_scope (st : t) :
  exit_scope (enter_scope st) = st.
Proof.
  unfold exit_scope, enter_scope. cbn.
  rewrite decide_True by lia. rewrite removelast_last.
  destruct st as [scs n]. cbn. f_equal. lia.
Qed.

Lemma lookup_from_insert_other name other sym scs cur i :
  other ≠ name → i ≤ cur → cur < length scs →
  lookup_from other (<[cur := <[name := sym]> (scs !!! cur)]> scs) i
  = lookup_from other scs i.
Proof.
  intros Hne Hi Hcur. induction i as [|i IH]; cbn.
  - destruct (decide (cur = 0)) as [->|].
    + rewrite list_lookup_total_insert_eq by done.
      by rewrite lookup_insert_ne.
    + by rewrite list_lookup_total_insert_ne.
  - rewrite IH by lia. destruct (decide (cur = S i)) as [->|].
    + rewrite list_lookup_total_insert_eq by done.
      by rewrite lookup_insert_ne.
    + by rewrite list_lookup_total_insert_ne.
Qed.

Lemma declare_spec (name : string) (ty : type_name) (st : t) :
  wf st →
  (is_Some ((scopes st !!! current_scope st) !! name)
   → declare name ty st = (false, st))
  ∧ ((scopes st !!! current_scope st) !! name = None
     → (declare name ty st).1 = true
       ∧ lookup name (declare name ty st).2
         = Some (Symbol.mk name ty (current_scope st) true)
       ∧ ∀ other, other ≠ name →
           lookup other (declare name ty st).2 = lookup other st).
Proof.
  unfold wf. intros Hwf. unfold declare. split.
  - intros [sym ->]. done.
  - intros ->. split; [done|]. split.
    + apply lookup_current. cbn.
      rewrite list_lookup_total_insert_eq by lia. by rewrite lookup_insert_eq.
    + intros other Hne. unfold lookup. cbn.
      apply lookup_from_insert_other; [done|lia|lia].
Qed.

(** X9: on a well-formed table, [declare] returns [False] and changes
    nothing exactly when the current scope already binds the name;
    otherwise it returns [True], [lookup] of the name then returns the new
    symbol (the name, the type, the current level), and [lookup] of every
    other name returns what it returned before. *)
Theorem X9_declare_then_lookup (name : string) (ty : type_name) (st : t) :
  wf st →
  (is_Some ((scopes st !!! current_scope st) !! name)
   → declare name ty st = (false, st))
  ∧ ((scopes st !!! current_scope st) !! name = None
     → (declare name ty st).1 = true
       ∧ lookup name (declare name ty st).2
         = Some (Symbol.mk name ty (current_scope st) true)
       ∧ ∀ other, other ≠ name →
           lookup other (declare name ty st).2 = lookup other st).
Proof. apply declare_spec. Qed.

(** X9 at the fresh table. *)
Lemma X9_witness :
  (is_Some ((scopes init !!! 0) !! "x") → declare "x" int_t init = (false, init))
  ∧ ((scopes init !!! 0) !! "x" = None
     → (declare "x" int_t init).1 = true
       ∧ lookup "x" (declare "x" int_t init).2
         = Some (Symbol.mk "x" int_t 0 true)
       ∧ ∀ other, other ≠ "x" →
           lookup other (declare "x" int_t init).2 = lookup other init).
Proof. apply (X9_declare_then_lookup "x" int_t init). reflexivity. Defined.

Lemma lookup_from_app_l name scs sc i :
  i < length scs →
  lookup_from name (scs ++ [sc]) i = lookup_from name scs i.
Proof.
  induction i as [|i IH]; intros Hi; cbn.
  - by rewrite lookup_total_app_l.
  - rewrite lookup_total_app_l by done. by rewrite IH by lia.
Qed.

(** An empty inner scope hides nothing. *)
Lemma lookup_enter_scope name st :
  wf st → lookup name (enter_scope st) = lookup name st.
Proof.
  unfold wf, lookup. intros Hwf. cbn.
  rewrite lookup_total_app_r by lia.
  replace (S (current_scope st) - length (scopes st)) with 0 by lia. cbn.
  rewrite lookup_empty. apply lookup_from_app_l. lia.
Qed.

(** X10: in a scope just entered, a name bound outside can be declared
    again; inside, [lookup] returns the inner symbol for it and the outer
    symbols for all other names; after [exit_scope] the table is the one
    from before the block, so [lookup] returns the outer symbol again. *)
Theorem X10_shadowing_ends_with_the_block (name : string) (ty : type_name)
    (st : t) :
  wf st →
  let inner := (declare name ty (enter_scope st)).2 in
  (declare name ty (enter_scope st)).1 = true
  ∧ lookup name inner = Some (Symbol.mk name ty (S (current_scope st)) true)
  ∧ (∀ other, other ≠ name → lookup other inner = lookup other st)
  ∧ exit_scope inner = st.
Proof.
  intros Hwf inner. unfold wf in Hwf.
  assert ((scopes (enter_scope st) !!! current_scope (enter_scope st)) !! name
          = None) as Hfresh.
  { cbn. rewrite lookup_total_app_r by lia.
    replace (S (current_scope st) - length (scopes st)) with 0 by lia. done. }
  assert (wf (enter_scope st)) as Hwf' by by apply wf_enter_scope.
  destruct (declare_spec name ty (enter_scope st) Hwf') as [_ Hdecl].
  destruct (Hdecl Hfresh) as (Hok & Hlook & Hother).
  split; [done|]. split; [done|]. split.
  - intros other Hne. unfold inner. rewrite Hother by done.
    by apply lookup_enter_scope.
  - unfold inner, declare. rewrite Hfresh. unfold exit_scope. cbn.
    rewrite decide_True by lia.
    rewrite lookup_total_app_r by lia.
    replace (S (current_scope st) - length (scopes st)) with 0 by lia. cbn.
    replace (S (current_scope st)) with (length (scopes st) + 0) by lia.
    rewrite insert_app_r. cbn. rewrite removelast_last.
    destruct st as [scs n]. cbn in *. f_equal. lia.
Qed.

(** X10 at the table of [int x;], with [bool x;] in a block. *)
Lemma X10_witness :
  let st := (declare "x" int_t init).2 in
  let inner := (declare "x" bool_t (enter_scope st)).2 in
  (declare "x" bool_t (enter_scope st)).1 = true
  ∧ lookup "x" inner = Some (Symbol.mk "x" bool_t 1 true)
  ∧ (∀ other, other ≠ "x" → lookup other inner = lookup other st)
  ∧ exit_scope inner = st.
Proof.
  apply (X10_shadowing_ends_with_the_block "x" bool_t
           (declare "x" int_t init).2).
  reflexivity.
Defined.
End symbol_table_more.

(** ** The analyser *)

Section analyzer_more.
Import SemanticAnalyzer.

Lemma only_current_refl st : only_current st st.
Proof. by split; [|split]. Qed.

Lemma only_current_trans st1 st2 st3 :
  only_current st1 st2 → only_current st2 st3 → only_current st1 st3.
Proof.
  intros (Hc1 & Hl1 & H1) (Hc2 & Hl2 & H2). split; [congruence|].
  split; [congruence|]. intros i Hi. rewrite H2 by congruence. by apply H1.
Qed.

Lemma declare_only_current name ty st :
  SymbolTable.wf st →
  SymbolTable.wf (SymbolTable.declare name ty st).2
  ∧ only_current st (SymbolTable.declare name ty st).2.
Proof.
  intros Hwf. split; [by apply declare_extends|].
  unfold SymbolTable.declare.
  destruct (_ !! name); cbn; [apply only_current_refl|].
  split; [done|]. split; [cbn; by rewrite length_insert|].
  cbn. intros i Hi. by rewrite list_lookup_insert_ne.
Qed.

(** A block that touched only its own scope leaves, at its end, the table
    it was entered from. *)
Lemma exit_after_enter_same st st' :
  SymbolTable.wf st → SymbolTable.wf st' →
  only_current (SymbolTable.enter_scope st) st' →
  SymbolTable.exit_scope st' = st.
Proof.
  unfold SymbolTable.wf. intros Hwf Hwf' (Hc & Hl & H). cbn in Hc, Hl, H.
  rewrite length_app in Hl. cbn in Hl.
  unfold SymbolTable.exit_scope. rewrite Hc, decide_True by lia.
  destruct st as [scs n]. cbn in *. f_equal; [|lia].
  rewrite removelast_firstn_len. apply list_eq. intros i.
  destruct (decide (i < S n)) as [Hi|Hi].
  - rewrite lookup_take_lt by lia. rewrite H by lia.
    by rewrite lookup_app_l by lia.
  - rewrite lookup_take_ge by lia. symmetry. apply lookup_ge_None. lia.
Qed.

Lemma block_scoped (l : list stmt) :
  Forall statement_scoped l →
  ∀ a, SymbolTable.wf (symbol_table a) →
    SymbolTable.wf (symbol_table (fold_left (λ a s, analyze_stmt s a) l a))
    ∧ only_current (symbol_table a)
        (symbol_table (fold_left (λ a s, analyze_stmt s a) l a)).
Proof.
  induction 1 as [|s l Hs _ IH]; intros a Hwf; cbn.
  - split; [done|apply only_current_refl].
  - destruct (Hs a Hwf) as (Hwf1 & H1 & _).
    destruct (IH _ Hwf1) as (Hwf2 & H2). split; [done|].
    by eapply only_current_trans.
Qed.

Lemma scoped_block_same (l : list stmt) :
  Forall statement_scoped l →
  ∀ a, SymbolTable.wf (symbol_table a) →
    symbol_table
      (with_table SymbolTable.exit_scope
         (fold_left (λ a s, analyze_stmt s a) l
            (with_table SymbolTable.enter_scope a)))
    = symbol_table a.
Proof.
  intros Hl a Hwf.
  destruct (block_scoped l Hl (with_table SymbolTable.enter_scope a))
    as [Hwf' H]; [by apply wf_enter_scope|].
  cbn. by apply exit_after_enter_same.
Qed.

Lemma statement_scoped_all s : statement_scoped s.
Proof.
  induction s as [ty name init|name e|c tb eb IHt IHe|c body IH|e]
    using stmt_induction; intros a Hwf; cbn -[with_table].
  - destruct (declare_only_current name ty (symbol_table a) Hwf) as [Hwf1 H1].
    destruct (SymbolTable.declare name ty (symbol_table a)) as [ok st1].
    cbn in Hwf1, H1.
    assert (symbol_table (if ok then mk st1 (errors a)
                          else error (msg_redeclared name)
                                 (mk st1 (errors a))) = st1) as Ht
      by by destruct ok.
    destruct init as [e|]; [|by rewrite Ht].
    set (a1 := if ok then _ else _) in *.
    pose proof (analyze_expr_table e a1) as He.
    destruct (analyze_expr e a1) as [vt a2]. cbn in He.
    assert (symbol_table (if bool_decide (vt ≠ ty)
                          then error (msg_mismatch vt ty name) a2 else a2)
            = st1) as -> by (case_bool_decide; cbn; congruence).
    done.
  - assert (symbol_table
              match SymbolTable.lookup name (symbol_table a) with
              | Some symbol =>
                  let '(value_type, a0) := analyze_expr e a in
                  if bool_decide (value_type ≠ Symbol.var_type symbol)
                  then error (msg_mismatch value_type
                                (Symbol.var_type symbol) name) a0
                  else a0
              | None => error (msg_undeclared name) a
              end = symbol_table a) as ->.
    { destruct (SymbolTable.lookup name (symbol_table a)); [|done].
      pose proof (analyze_expr_table e a) as He.
      destruct (analyze_expr e a) as [vt a2]. cbn in He.
      case_bool_decide; cbn; congruence. }
    split; [done|]. split; [apply only_current_refl|done].
  - pose proof (analyze_expr_table c a) as Hc.
    destruct (analyze_expr c a) as [ct a1]. cbn in Hc.
    set (a2 := if bool_decide (ct ≠ bool_t) then _ else _).
    assert (symbol_table a2 = symbol_table a) as H2
      by (unfold a2; case_bool_decide; cbn; congruence).
    assert (SymbolTable.wf (symbol_table a2)) as Hwf2 by by rewrite H2.
    pose proof (scoped_block_same tb IHt a2 Hwf2) as H3.
    set (a3 := with_table SymbolTable.exit_scope _) in *.
    assert (SymbolTable.wf (symbol_table a3)) as Hwf3 by by rewrite H3.
    set (a4 := match eb with Some (_ :: _) => _ | _ => a3 end).
    assert (symbol_table a4 = symbol_table a) as ->.
    { unfold a4. destruct eb as [[|s0 rest]|]; [congruence| |congruence].
      etrans; [exact (scoped_block_same (s0 :: rest) IHe a3 Hwf3)|].
      congruence. }
    split; [done|]. split; [apply only_current_refl|done].
  - pose proof (analyze_expr_table c a) as Hc.
    destruct (analyze_expr c a) as [ct a1]. cbn in Hc.
    set (a2 := if bool_decide (ct ≠ bool_t) then _ else _).
    assert (symbol_table a2 = symbol_table a) as H2
      by (unfold a2; case_bool_decide; cbn; congruence).
    assert (SymbolTable.wf (symbol_table a2)) as Hwf2 by by rewrite H2.
    rewrite (scoped_block_same body IH a2 Hwf2), H2.
    split; [done|]. split; [apply only_current_refl|done].
  - rewrite analyze_expr_table.
    split; [done|]. split; [apply only_current_refl|done].
Qed.

(** X11: analysing a statement keeps the scope stack balanced: the table
    stays well formed with the same current scope, no scope but the current
    one changes, and a statement that is not a declaration ([if], [while],
    [print], assignment) leaves the whole table exactly as it was: what a
    block declares is gone when the block ends. *)
Theorem X11_statements_keep_scopes_balanced (s : stmt) (a : t) :
  SymbolTable.wf (symbol_table a) →
  SymbolTable.wf (symbol_table (analyze_stmt s a))
  ∧ only_current (symbol_table a) (symbol_table (analyze_stmt s a))
  ∧ match s with
    | VarDecl _ _ _ => True
    | _ => symbol_table (analyze_stmt s a) = symbol_table a
    end.
Proof. apply statement_scoped_all. Qed.

(** X11 at [if (true) { int y; }] from the fresh analyser. *)
Lemma X11_witness :
  let s := IfStmt (BoolLit true) [VarDecl int_t "y" None] None in
  SymbolTable.wf (symbol_table (analyze_stmt s init))
  ∧ only_current (symbol_table init) (symbol_table (analyze_stmt s init))
  ∧ symbol_table (analyze_stmt s init) = symbol_table init.
Proof.
  apply (X11_statements_keep_scopes_balanced
           (IfStmt (BoolLit true) [VarDecl int_t "y" None] None) init).
  reflexivity.
Defined.

(** X12: analysing a program only appends to the recorded errors: the
    errors before are a prefix of the errors after; and the analysis ends
    in the scope it started in. *)
Theorem X12_errors_accumulate (p : Program) (a : t) :
  SymbolTable.wf (symbol_table a) →
  errors a `prefix_of` errors (analyze p a)
  ∧ SymbolTable.current_scope (symbol_table (analyze p a))
    = SymbolTable.current_scope (symbol_table a)
  ∧ length (SymbolTable.scopes (symbol_table (analyze p a)))
    = length (SymbolTable.scopes (symbol_table a)).
Proof.
  intros Hwf.
  destruct (analysis_keeps_block p (Forall_true _ p analysis_keeps_stmt) a Hwf)
    as (_ & (Hc & Hl & _) & errs & He).
  split; [by exists errs|done].
Qed.

(** X12 at [print(y); int x = true;] from the fresh analyser. *)
Lemma X12_witness :
  let p := [PrintStmt (VarRef "y"); VarDecl int_t "x" (Some (BoolLit true))] in
  errors init `prefix_of` errors (analyze p init)
  ∧ SymbolTable.current_scope (symbol_table (analyze p init)) = 0
  ∧ length (SymbolTable.scopes (symbol_table (analyze p init))) = 1.
Proof.
  apply (X12_errors_accumulate
           [PrintStmt (VarRef "y"); VarDecl int_t "x" (Some (BoolLit true))]
           init).
  reflexivity.
Defined.
End analyzer_more.

(** ** The generator *)

Section generator_temporaries.
Import TACGenerator.

Lemma temps_emit_plain o a1 a2 r g :
  defines_temp (TACInstr o a1 a2 r) = false →
  temps_in_order g → temps_in_order (emit o a1 a2 r g).
Proof.
  unfold temps_in_order, temp_results. intros Hi Hg. cbn.
  rewrite omap_app. cbn. rewrite Hi. cbn. by rewrite app_nil_r.
Qed.

Lemma temps_emit_temp o a1 a2 g :
  defines_temp (TACInstr o a1 a2 None) = true →
  temps_in_order g →
  temps_in_order
    (emit o a1 a2 (Some (temp_name (temp_counter g))) (new_temp g).2).
Proof.
  unfold temps_in_order, temp_results, temp_names. intros Hi Hg.
  change (instructions (emit o a1 a2 (Some (temp_name (temp_counter g)))
                          (new_temp g).2))
    with (instructions g
            ++ [TACInstr o a1 a2 (Some (temp_name (temp_counter g)))]).
  change (temp_counter (emit o a1 a2 (Some (temp_name (temp_counter g)))
                          (new_temp g).2))
    with (S (temp_counter g)).
  rewrite omap_app, seq_S, fmap_app, Hg. f_equal.
  assert (defines_temp (TACInstr o a1 a2 (Some (temp_name (temp_counter g))))
          = true) as Hd by done.
  cbn. by rewrite Hd.
Qed.

Lemma temps_new_label g : temps_in_order g → temps_in_order (new_label g).2.
Proof. done. Qed.

Lemma generate_expr_temps e g :
  temps_in_order g → temps_in_order (generate_expr e g).2.
Proof.
  revert g. induction e as [o l IHl r IHr|o x IHx|v ty|name]; intros g Hg;
    cbn -[emit new_temp].
  - specialize (IHl g Hg). destruct (generate_expr l g) as [lt g1].
    specialize (IHr g1 IHl). destruct (generate_expr r g1) as [rt g2].
    cbn [snd] in *. apply temps_emit_temp; [by destruct o|done].
  - specialize (IHx g Hg). destruct (generate_expr x g) as [xt g1].
    cbn [snd] in *. apply temps_emit_temp; [by destruct o|done].
  - by apply temps_emit_temp.
  - done.
Qed.

Lemma generate_stmt_temps s :
  ∀ g, temps_in_order g → temps_in_order (generate_stmt s g).
Proof.
  induction s as [ty name init|name e|c tb eb IHt IHe|c body IH|e]
    using stmt_induction; intros g Hg; cbn -[emit].
  - destruct init as [e|]; [|done].
    pose proof (generate_expr_temps e g Hg) as H1.
    destruct (generate_expr e g) as [vt g1]. by apply temps_emit_plain.
  - pose proof (generate_expr_temps e g Hg) as H1.
    destruct (generate_expr e g) as [vt g1]. by apply temps_emit_plain.
  - pose proof (generate_expr_temps c g Hg) as H1.
    destruct (generate_expr c g) as [ct g1]. cbn [snd] in H1.
    assert (∀ l, Forall (λ s, ∀ g, temps_in_order g →
                                   temps_in_order (generate_stmt s g)) l →
              ∀ g, temps_in_order g →
                temps_in_order (fold_left (λ g s, generate_stmt s g) l g))
      as Hblock.
    { intros l Hl g' Hg'.
      apply (generate_block temps_in_order (λ _, true) l);
        [|by apply forallb_of_Forall, Forall_true|done].
      eapply Forall_impl; [exact Hl|]. cbn. auto. }
    apply temps_emit_plain; [done|].
    assert (∀ g, temps_in_order g →
              temps_in_order
                (emit TACOp.LABEL ONone ONone
                   (Some (label_name (label_counter g1)))
                   (emit TACOp.GOTO ONone ONone
                      (Some (label_name (S (label_counter g1)))) g))) as H3.
    { intros g' Hg'. apply temps_emit_plain; [done|].
      by apply temps_emit_plain. }
    assert (temps_in_order
              (fold_left (λ g s, generate_stmt s g) tb
                 (emit TACOp.IF_FALSE (OName ct) ONone
                    (Some (label_name (label_counter g1)))
                    (new_label (new_label g1).2).2))) as H2.
    { apply Hblock; [done|]. by apply temps_emit_plain. }
    destruct eb as [[|s0 rest]|]; [by apply H3| |by apply H3].
    apply (Hblock (s0 :: rest) IHe). by apply H3.
  - assert (temps_in_order
              (emit TACOp.LABEL ONone ONone
                 (Some (label_name (label_counter g)))
                 (new_label (new_label g).2).2)) as H0
      by by apply temps_emit_plain.
    pose proof (generate_expr_temps c _ H0) as H1.
    destruct (generate_expr c _) as [ct g1]. cbn [snd] in H1.
    apply temps_emit_plain; [done|]. apply temps_emit_plain; [done|].
    apply (generate_block temps_in_order (λ _, true) body);
      [|by apply forallb_of_Forall, Forall_true|by apply temps_emit_plain].
    eapply Forall_impl; [exact IH|]. cbn. auto.
  - pose proof (generate_expr_temps e g Hg) as H1.
    destruct (generate_expr e g) as [vt g1]. by apply temps_emit_plain.
Qed.

Lemma temp_name_inj : Inj (=) (=) temp_name.
Proof.
  intros m n H.
  change (String "t" (pretty m) = String "t" (pretty n)) in H.
  injection H as H. by apply (inj pretty) in H.
Qed.

Lemma label_name_inj : Inj (=) (=) label_name.
Proof.
  intros m n H.
  change (String "L" (pretty m) = String "L" (pretty n)) in H.
  injection H as H. by apply (inj pretty) in H.
Qed.

(** X14: in the TAC of a program, the instructions generated for operators
    and literals have as results the temporaries [t0, t1, ...] in this order,
    as many as the generator counted: every temporary is the result of
    exactly one such instruction. *)
Theorem X14_temporaries_assigned_once_in_order (p : Program) :
  temp_results (TinyLangFullCompiler.tac_of p)
  = temp_names (temp_counter (generate p init))
  ∧ NoDup (temp_results (TinyLangFullCompiler.tac_of p)).
Proof.
  assert (temps_in_order (generate p init)) as H.
  { unfold generate.
    apply (generate_block temps_in_order (λ _, true) p);
      [|by apply forallb_of_Forall, Forall_true|done].
    apply Forall_forall. intros s _ _. apply generate_stmt_temps. }
  split; [exact H|]. unfold TinyLangFullCompiler.tac_of. rewrite H.
  apply NoDup_fmap_2; [|apply NoDup_seq].
  intros m n Hmn. apply temp_name_inj. cbv beta in Hmn. congruence.
Qed.
End generator_temporaries.

Section generator_labels.
Import TACGenerator.

Lemma labels_emit_plain pending o a1 a2 r g :
  o ≠ TACOp.LABEL →
  labels_accounted pending g → labels_accounted pending (emit o a1 a2 r g).
Proof.
  unfold labels_accounted, defined_labels. intros Ho Hg. cbn.
  rewrite omap_app. cbn. unfold label_of at 2. cbn.
  destruct o; try done; cbn; by rewrite app_nil_r.
Qed.

Lemma labels_new_label pending g :
  labels_accounted pending g →
  labels_accounted (pending ++ [Some (label_name (label_counter g))])
    (new_label g).2.
Proof.
  unfold labels_accounted, label_names. intros Hg.
  change (instructions (new_label g).2) with (instructions g).
  change (label_counter (new_label g).2) with (S (label_counter g)).
  by rewrite seq_S, fmap_app, (assoc_L (++)), Hg.
Qed.

Lemma labels_emit_label pending pending' s g :
  pending ≡ₚ Some s :: pending' →
  labels_accounted pending g →
  labels_accounted pending' (emit TACOp.LABEL ONone ONone (Some s) g).
Proof.
  unfold labels_accounted, defined_labels. intros Hp Hg. cbn.
  rewrite omap_app. cbn. rewrite <- Hg, Hp, <- (assoc_L (++)). done.
Qed.

Lemma generate_expr_labels pending e g :
  labels_accounted pending g → labels_accounted pending (generate_expr e g).2.
Proof.
  revert g. induction e as [o l IHl r IHr|o x IHx|v ty|name]; intros g Hg;
    cbn -[emit].
  - specialize (IHl g Hg). destruct (generate_expr l g) as [lt g1].
    specialize (IHr g1 IHl). destruct (generate_expr r g1) as [rt g2].
    cbn [snd] in *. apply labels_emit_plain; [by destruct o|done].
  - specialize (IHx g Hg). destruct (generate_expr x g) as [xt g1].
    cbn [snd] in *. apply labels_emit_plain; [by destruct o|done].
  - by apply labels_emit_plain.
  - done.
Qed.

Lemma generate_block_labels (l : list stmt) :
  Forall (λ s, ∀ pending g, labels_accounted pending g →
                 labels_accounted pending (generate_stmt s g)) l →
  ∀ pending g, labels_accounted pending g →
    labels_accounted pending (fold_left (λ g s, generate_stmt s g) l g).
Proof.
  intros Hl pending g Hg.
  apply (generate_block (labels_accounted pending) (λ _, true) l);
    [|by apply forallb_of_Forall, Forall_true|done].
  eapply Forall_impl; [exact Hl|]. cbn. auto.
Qed.

Lemma generate_stmt_labels s :
  ∀ pending g, labels_accounted pending g →
    labels_accounted pending (generate_stmt s g).
Proof.
  induction s as [ty name init|name e|c tb eb IHt IHe|c body IH|e]
    using stmt_induction; intros pending g Hg; cbn -[emit].
  - destruct init as [e|]; [|done].
    pose proof (generate_expr_labels pending e g Hg) as H1.
    destruct (generate_expr e g) as [vt g1]. by apply labels_emit_plain.
  - pose proof (generate_expr_labels pending e g Hg) as H1.
    destruct (generate_expr e g) as [vt g1]. by apply labels_emit_plain.
  - pose proof (generate_expr_labels pending c g Hg) as H1.
    destruct (generate_expr c g) as [ct g1]. cbn [snd] in H1.
    set (else_label := label_name (label_counter g1)).
    set (end_label := label_name (S (label_counter g1))).
    pose proof (labels_new_label _ _ (labels_new_label _ _ H1)) as H2.
    cbn [label_counter snd new_label] in H2.
    fold else_label end_label in H2.
    set (g2 := (new_label (new_label g1).2).2) in *.
    pose proof (generate_block_labels tb IHt _ _
                  (labels_emit_plain _ TACOp.IF_FALSE (OName ct) ONone
                     (Some else_label) g2 ltac:(done) H2)) as H3.
    set (g3 := fold_left _ tb _) in *.
    pose proof (labels_emit_plain _ TACOp.GOTO ONone ONone (Some end_label)
                  g3 ltac:(done) H3) as H4.
    assert ((pending ++ [Some else_label]) ++ [Some end_label]
            ≡ₚ Some else_label :: pending ++ [Some end_label]) as Hperm
      by solve_Permutation.
    pose proof (labels_emit_label _ _ else_label _ Hperm H4) as H5.
    set (g5 := emit TACOp.LABEL ONone ONone (Some else_label) _) in *.
    assert (∀ g6, labels_accounted (pending ++ [Some end_label]) g6 →
              labels_accounted pending
                (emit TACOp.LABEL ONone ONone (Some end_label) g6)) as H6.
    { intros g6 Hg6. eapply labels_emit_label; [|exact Hg6].
      solve_Permutation. }
    destruct eb as [[|s0 rest]|]; [by apply H6| |by apply H6].
    apply H6. by apply (generate_block_labels (s0 :: rest) IHe).
  - set (start_label := label_name (label_counter g)).
    set (end_label := label_name (S (label_counter g))).
    pose proof (labels_new_label _ _ (labels_new_label _ _ Hg)) as H2.
    cbn [label_counter snd new_label] in H2.
    fold start_label end_label in H2.
    set (g2 := (new_label (new_label g).2).2) in *.
    assert ((pending ++ [Some start_label]) ++ [Some end_label]
            ≡ₚ Some start_label :: pending ++ [Some end_label]) as Hperm
      by solve_Permutation.
    pose proof (labels_emit_label _ _ start_label _ Hperm H2) as H3.
    pose proof (generate_expr_labels _ c _ H3) as H4.
    destruct (generate_expr c _) as [ct g4]. cbn [snd] in H4.
    pose proof (generate_block_labels body IH _ _
                  (labels_emit_plain _ TACOp.IF_FALSE (OName ct) ONone
                     (Some end_label) g4 ltac:(done) H4)) as H5.
    set (g5 := fold_left _ body _) in *.
    eapply labels_emit_label;
      [|apply labels_emit_plain; [done|exact H5]].
    solve_Permutation.
  - pose proof (generate_expr_labels pending e g Hg) as H1.
    destruct (generate_expr e g) as [vt g1]. by apply labels_emit_plain.
Qed.

(** X15: in the TAC of a program, the [LABEL] instructions define exactly
    the labels [L0, L1, ...] that the generator counted, each one once. *)
Theorem X15_labels_defined_exactly_once (p : Program) :
  defined_labels (TinyLangFullCompiler.tac_of p)
  ≡ₚ label_names (label_counter (generate p init))
  ∧ NoDup (defined_labels (TinyLangFullCompiler.tac_of p)).
Proof.
  assert (labels_accounted [] (generate p init)) as H.
  { unfold generate. apply generate_block_labels;
      [|unfold labels_accounted; cbn; reflexivity].
    apply Forall_forall. intros s _. apply generate_stmt_labels. }
  unfold labels_accounted in H. rewrite app_nil_r in H.
  split; [exact H|]. unfold TinyLangFullCompiler.tac_of. rewrite H.
  apply NoDup_fmap_2; [|apply NoDup_seq].
  intros m n Hmn. apply label_name_inj. cbv beta in Hmn. congruence.
Qed.
End generator_labels.

(** ** The bytecode generator *)

Section bytecode_structure.
Import BytecodeGenerator.

Lemma _generate_instruction_lower instr b :
  _generate_instruction instr b = mk (bytecode b ++ lower instr) (labels b).
Proof.
  unfold lower, _generate_instruction, _load_operand, append.
  destruct (op instr); cbn;
    repeat (match goal with
            | |- context [isinstance_int ?x] => destruct (isinstance_int x)
            end; cbn);
    rewrite <- ?(assoc_L (++)); cbn; try done;
    rewrite app_nil_r; by destruct b.
Qed.

Lemma lower_label instr : op instr = TACOp.LABEL → lower instr = [].
Proof. unfold lower, _generate_instruction. by intros ->. Qed.

Lemma first_pass_step_bytecode b instr :
  bytecode (first_pass_step b instr) = bytecode b ++ lower instr.
Proof.
  unfold first_pass_step.
  destruct (decide (op instr = TACOp.LABEL)) as [Hop|Hop].
  - rewrite Hop. cbn. by rewrite lower_label, app_nil_r.
  - transitivity (bytecode (_generate_instruction instr b));
      [by destruct (op instr)|by rewrite _generate_instruction_lower].
Qed.

Lemma first_pass_bytecode l b :
  bytecode (fold_left first_pass_step l b) = bytecode b ++ flat_map lower l.
Proof.
  revert b. induction l as [|i l IH]; intros b; cbn.
  - by rewrite app_nil_r.
  - by rewrite IH, first_pass_step_bytecode, <- (assoc_L (++)).
Qed.

Lemma first_pass_step_labels b instr k :
  label_of instr ≠ Some k →
  labels (first_pass_step b instr) !! k = labels b !! k.
Proof.
  unfold first_pass_step, label_of. intros Hk.
  destruct (decide (op instr = TACOp.LABEL)) as [Hop|Hop].
  - rewrite Hop in Hk |- *. cbn. rewrite lookup_insert_ne; [done|].
    intros <-. done.
  - transitivity (labels (_generate_instruction instr b) !! k);
      [by destruct (op instr)|by rewrite _generate_instruction_lower].
Qed.

Lemma first_pass_labels_other l b k :
  k ∉ defined_labels l →
  labels (fold_left first_pass_step l b) !! k = labels b !! k.
Proof.
  revert b. induction l as [|i l IH]; intros b Hk; [done|]. cbn.
  unfold defined_labels in Hk. cbn in Hk.
  rewrite IH, first_pass_step_labels; [done|..].
  - intros Hi. rewrite Hi in Hk. set_solver.
  - unfold defined_labels. destruct (label_of i); set_solver.
Qed.

(** X16: the bytecode of a TAC list is the bytecode of its instructions
    in order, one [HALT] at the end, with the labels of the jumps resolved;
    and the address recorded for a label that is not defined again later is
    the length of the bytecode of the instructions before it, that is, the
    index of the first instruction emitted after the label. *)
Theorem X16_label_address_is_next_instruction
    (pre post : list TACInstruction) (s : option string) :
  s ∉ defined_labels post →
  let tac := pre ++ TACInstr TACOp.LABEL ONone ONone s :: post in
  labels (generate_from tac init) !! s = Some (length (flat_map lower pre))
  ∧ generate tac
    = resolve_instr (labels (generate_from tac init))
        <$> (flat_map lower pre ++ flat_map lower post
             ++ [BytecodeInstr BytecodeOp.HALT ONone]).
Proof.
  intros Hs tac. unfold generate, generate_from, _resolve_labels, append.
  cbn [labels bytecode].
  assert (bytecode (fold_left first_pass_step tac init)
          = flat_map lower pre ++ flat_map lower post) as Hb.
  { rewrite first_pass_bytecode. unfold tac. rewrite flat_map_app.
    cbn [flat_map]. by rewrite (lower_label (TACInstr _ _ _ _)). }
  split.
  - unfold tac. rewrite fold_left_app. cbn [fold_left].
    rewrite first_pass_labels_other by done.
    unfold first_pass_step at 1. cbn [op result labels].
    by rewrite lookup_insert_eq, first_pass_bytecode.
  - rewrite Hb. by rewrite <- (assoc_L (++)).
Qed.

(** X16 at [L0: print x; goto L0]. *)
Lemma X16_witness :
  let tac := [] ++ TACInstr TACOp.LABEL ONone ONone (Some "L0")
                :: [TACInstr TACOp.PRINT (OName "x") ONone None;
                    TACInstr TACOp.GOTO ONone ONone (Some "L0")] in
  labels (generate_from tac init) !! Some "L0" = Some 0
  ∧ generate tac
    = resolve_instr (labels (generate_from tac init))
        <$> ([] ++ [BytecodeInstr BytecodeOp.LOAD (OName "x");
                    BytecodeInstr BytecodeOp.PRINT ONone;
                    BytecodeInstr BytecodeOp.JUMP (OName "L0")]
             ++ [BytecodeInstr BytecodeOp.HALT ONone]).
Proof.
  apply (X16_label_address_is_next_instruction []
           [TACInstr TACOp.PRINT (OName "x") ONone None;
            TACInstr TACOp.GOTO ONone ONone (Some "L0")] (Some "L0")).
  vm_compute. set_solver.
Defined.
End bytecode_structure.

(** ** The virtual machine on checked bytecode *)

Section stack_discipline.

Lemma height_after_app a b h :
  height_after (a ++ b) h = height_after b (height_after a h).
Proof. unfold height_after. by rewrite fold_left_app. Qed.

Lemma stack_checked_app a b h :
  stack_checked a h = true → stack_checked b 0 = true →
  stack_checked (a ++ b) h = true.
Proof.
  revert h. induction a as [|i a IH]; intros h Ha Hb; cbn in *.
  - apply bool_decide_eq_true in Ha as ->. done.
  - apply andb_prop in Ha as [Hi Ha]. rewrite Hi. cbn. by apply IH.
Qed.

Lemma stack_checked_height code h :
  stack_checked code h = true → height_after code h = 0.
Proof.
  revert h. induction code as [|i code IH]; intros h Hc; cbn in *.
  - by apply bool_decide_eq_true in Hc.
  - apply andb_prop in Hc as [_ Hc]. by apply IH.
Qed.

Lemma stack_checked_at code : ∀ h k i,
  stack_checked code h = true → code !! k = Some i →
  pops (bop i) ≤ height_after (take k code) h
  ∧ arg_fits i (height_after (take k code) h) = true.
Proof.
  induction code as [|i0 code IH]; intros h k i Hc Hk; [done|].
  cbn in Hc. apply andb_prop in Hc as [[Hp Ha]%andb_prop Hc].
  destruct k as [|k]; cbn in Hk |- *.
  - injection Hk as <-. by apply bool_decide_eq_true in Hp.
  - by apply IH.
Qed.

Lemma stack_checked_lower instr : stack_checked (lower instr) 0 = true.
Proof.
  unfold lower, BytecodeGenerator._generate_instruction,
    BytecodeGenerator._load_operand, BytecodeGenerator.append.
  destruct (op instr); cbn;
    destruct (arg1 instr), (arg2 instr), (result instr); cbn; done.
Qed.

Lemma stack_checked_resolve labels code h :
  stack_checked (BytecodeGenerator.resolve_instr labels <$> code) h
  = stack_checked code h.
Proof.
  revert h. induction code as [|i code IH]; intros h; [done|]. cbn.
  assert (bop (BytecodeGenerator.resolve_instr labels i) = bop i
          ∧ arg_fits (BytecodeGenerator.resolve_instr labels i) h
            = arg_fits i h) as [Hb ->].
  { unfold BytecodeGenerator.resolve_instr, arg_fits.
    destruct i as [o a]. cbn.
    destruct (BytecodeOp.is_jump o) eqn:Hj; [|done].
    destruct a as [|v|s]; try done.
    destruct (labels !! Some s); [|done]. cbn.
    split; [done|]. by destruct o. }
  by rewrite Hb, IH.
Qed.

(** The bytecode of any TAC list keeps the stack discipline. *)
Lemma generate_stack_checked (tac : list TACInstruction) :
  stack_checked (BytecodeGenerator.generate tac) 0 = true.
Proof.
  unfold BytecodeGenerator.generate, BytecodeGenerator.generate_from,
    BytecodeGenerator._resolve_labels, BytecodeGenerator.append.
  cbn [BytecodeGenerator.bytecode BytecodeGenerator.labels].
  rewrite stack_checked_resolve, first_pass_bytecode. cbn.
  apply stack_checked_app; [|done].
  induction tac as [|i tac IH]; [done|]. cbn.
  apply stack_checked_app; [apply stack_checked_lower|done].
Qed.
End stack_discipline.

Section vm_on_checked_bytecode.
Import VirtualMachine.
Variable bytecode : list BytecodeInstruction.
Hypothesis Hchecked : stack_checked bytecode 0 = true.
Hypothesis Hjumps : jumps_land bytecode.

Lemma fetch_nat (k : nat) i :
  bytecode !! k = Some i → fetch bytecode (Z.of_nat k) = Some i.
Proof.
  intros Hk. unfold fetch. rewrite decide_True by lia.
  by rewrite Nat2Z.id.
Qed.

Lemma height_after_step (k : nat) i :
  bytecode !! k = Some i →
  height_after (take (S k) bytecode) 0
  = height_after (take k bytecode) 0 - pops (bop i) + pushes (bop i).
Proof.
  intros Hk. rewrite (take_S_r _ _ _ Hk), height_after_app. done.
Qed.

(** One instruction, from a state that is in step: the VM neither raises
    nor leaves the model; it stays in step, or halts with an empty stack. *)
Lemma step_in_step vm (k : nat) i :
  pc vm = Z.of_nat k → bytecode !! k = Some i →
  length (stack vm) = height_after (take k bytecode) 0 →
  match step i vm with
  | Next vm' => in_step bytecode vm'
  | Exit vm' => stack vm' = []
  | Raise | Unmodelled => False
  end.
Proof.
  intros Hpc Hk Hlen.
  destruct (stack_checked_at bytecode 0 k i Hchecked Hk) as [Hpops Hfits].
  pose proof (height_after_step k i Hk) as Hnext.
  pose proof (lookup_lt_Some _ _ _ Hk) as Hlt.
  rewrite <- Hlen in Hpops, Hfits, Hnext.
  assert (∀ st, length st = length (stack vm) - pops (bop i) + pushes (bop i)
                → in_step bytecode (mk st (variables vm) (pc vm + 1)
                                       (output vm))) as Hadvance.
  { intros st Hst. exists (S k). cbn. split; [lia|]. split; [lia|].
    by rewrite Hnext. }
  assert (∀ st, BytecodeOp.is_jump (bop i) = true →
                length st = 0 →
                match jump (arg i) vm st with
                | Next vm' => in_step bytecode vm'
                | Exit vm' => stack vm' = []
                | Raise | Unmodelled => False
                end) as Hjump.
  { intros st Hj Hst. destruct (Hjumps k i Hk Hj) as (t & -> & Ht & Hh).
    cbn. exists t. cbn. split; [done|]. split; [lia|]. by rewrite Hh. }
  unfold step, binary, unary, advance, arg_fits in *.
  destruct (bop i) eqn:Hop; cbn in Hpops, Hfits, Hnext;
    try (destruct (stack vm) as [|x [|y st]]; cbn in *; try lia;
         apply Hadvance; cbn; lia).
  - apply bool_decide_eq_true in Hfits as [v Hv].
    destruct (arg i); try done. apply Hadvance. cbn. lia.
  - destruct (stack vm) as [|x st]; cbn in *; [lia|].
    apply bool_decide_eq_true in Hfits.
    destruct (arg i); try done; cbn; apply (Hadvance st); cbn; lia.
  - apply bool_decide_eq_true in Hfits.
    apply Hjump; [done|done].
  - apply bool_decide_eq_true in Hfits.
    destruct (stack vm) as [|x [|y st]]; cbn in *; try lia.
    destruct (truthy x).
    + apply (Hadvance []). cbn. lia.
    + apply Hjump; [done|done].
  - apply bool_decide_eq_true in Hfits. by apply nil_length_inv.
Qed.

(** The loop of [execute], from a state that is in step. *)
Lemma loop_ended_well fuel : ∀ vm,
  in_step bytecode vm → ended_well (loop fuel bytecode vm).
Proof.
  induction fuel as [|fuel IH]; intros vm (k & Hpc & Hk & Hlen); [done|].
  cbn. case_decide as Hin.
  - assert (k < length bytecode) as Hlt by lia.
    destruct (lookup_lt_is_Some_2 bytecode k Hlt) as [i Hi].
    rewrite Hpc, (fetch_nat k i Hi).
    pose proof (step_in_step vm k i Hpc Hi Hlen) as Hstep.
    destruct (step i vm); try done. by apply IH.
  - cbn. assert (k = length bytecode) as -> by lia.
    rewrite firstn_all in Hlen.
    rewrite (stack_checked_height _ _ Hchecked) in Hlen.
    by apply nil_length_inv.
Qed.
End vm_on_checked_bytecode.

(** ** Running generated bytecode *)

Section generated_bytecode_runs.
Import BytecodeGenerator.

Lemma stack_checked_flat_map_lower (l : list TACInstruction) :
  stack_checked (flat_map lower l) 0 = true.
Proof.
  induction l as [|i l IH]; [done|]. cbn.
  apply stack_checked_app; [apply stack_checked_lower|done].
Qed.

Lemma height_after_resolve labels code h :
  height_after (resolve_instr labels <$> code) h = height_after code h.
Proof.
  revert h. induction code as [|i code IH]; intros h; [done|].
  unfold height_after in *. cbn [fmap list_fmap fold_left].
  rewrite IH. f_equal. unfold resolve_instr.
  destruct i as [o a]. cbn.
  destruct (BytecodeOp.is_jump o); [|done].
  destruct a as [|v|s]; try done. by destruct (labels !! Some s).
Qed.

(** Every address that the first pass records is the length of the
    bytecode at the moment a [LABEL] is met. *)
Lemma first_pass_labels_at (P : nat → Prop) l : ∀ b,
  (∀ k n, labels b !! k = Some n → P n) →
  (∀ j, j ≤ length l →
        P (length (bytecode b ++ flat_map lower (take j l)))) →
  ∀ k n, labels (fold_left first_pass_step l b) !! k = Some n → P n.
Proof.
  induction l as [|i l IH]; intros b Hb Hbound; [exact Hb|].
  cbn [fold_left]. apply IH.
  - intros k n. unfold first_pass_step.
    destruct (decide (op i = TACOp.LABEL)) as [Hop|Hop].
    + rewrite Hop. cbn. rewrite lookup_insert. case_decide; [|apply Hb].
      intros [= <-]. specialize (Hbound 0). cbn in Hbound.
      rewrite app_nil_r in Hbound. apply Hbound. lia.
    + intros Hk. apply (Hb k).
      transitivity (labels (_generate_instruction i b) !! k);
        [by rewrite _generate_instruction_lower|by destruct (op i)].
  - intros j Hj. rewrite first_pass_step_bytecode, <- (assoc_L (++)).
    apply (Hbound (S j)). cbn. lia.
Qed.

(** In the bytecode of a TAC list whose jumps go to labels it defines,
    every jump goes to an index at which the stack is empty. *)
Lemma generate_jumps_land (tac : list TACInstruction) :
  labels_closed tac → jumps_land (generate tac).
Proof.
  intros Hclosed k i Hk Hjump.
  assert (∀ n, (∃ j, j ≤ length tac
                     ∧ n = length (flat_map lower (take j tac))) →
               n < length (generate tac)
               ∧ height_after (take n (generate tac)) 0 = 0) as Hat.
  { intros n (j & Hj & ->).
    unfold generate, generate_from, _resolve_labels, append.
    cbn [bytecode labels]. rewrite first_pass_bytecode.
    change (bytecode init) with (@nil BytecodeInstruction). cbn [app].
    assert (flat_map lower tac
            = flat_map lower (take j tac) ++ flat_map lower (drop j tac))
      as -> by (by rewrite <- flat_map_app, take_drop).
    split.
    - rewrite length_map, !length_app. cbn. lia.
    - change (map ?f ?l) with (f <$> l). rewrite !fmap_app.
      rewrite <- (assoc_L (++)).
      rewrite take_app_length' by (by rewrite length_fmap).
      rewrite height_after_resolve.
      apply stack_checked_height, stack_checked_flat_map_lower. }
  unfold generate, generate_from, _resolve_labels, append in Hk, Hjump.
  cbn [bytecode labels] in Hk.
  destruct (first_pass_spec tac init) as (H1 & H2 & H3); [done|].
  pose proof (first_pass_labels_at
                (λ n, ∃ j, j ≤ length tac
                           ∧ n = length (flat_map lower (take j tac)))
                tac init) as H4.
  set (b' := fold_left first_pass_step tac init) in *. cbn zeta in *.
  change (map ?f ?l) with (f <$> l) in Hk.
  rewrite list_lookup_fmap in Hk.
  destruct ((bytecode b' ++ [BytecodeInstr BytecodeOp.HALT ONone]) !! k)
    as [j0|] eqn:Hj0; [|done].
  injection Hk as <-.
  assert (BytecodeOp.is_jump (bop j0) = true) as Hjump0.
  { revert Hjump. unfold resolve_instr.
    destruct (BytecodeOp.is_jump (bop j0)) eqn:E; [done|]. by rewrite E. }
  apply list_elem_of_lookup_2 in Hj0.
  apply elem_of_app in Hj0 as [Hj0|Hj0];
    [|apply list_elem_of_singleton in Hj0 as ->; done].
  destruct (H3 j0 Hj0 Hjump0) as [Hin|(t & Ht & Harg)]; [set_solver|].
  destruct (Hclosed t Ht) as [[s ->] [Hdef|Hpend]]; [|set_solver].
  destruct (H2 (Some s)) as [n Hn]; [by right|].
  exists n. split.
  - unfold resolve_instr. rewrite Hjump0, Harg. cbn. by rewrite Hn.
  - apply Hat. apply (H4 ltac:(done)) with (Some s); [|done].
    intros j Hj. by exists j.
Qed.

(** Bytecode generation and a run of the VM on a fresh machine, for a TAC
    list whose jumps go to labels it defines. *)
Lemma run_tac_ended_well (tac : list TACInstruction) (fuel : nat) :
  labels_closed tac → ended_well (TinyLangFullCompiler.run_tac fuel tac).
Proof.
  intros Hclosed.
  unfold TinyLangFullCompiler.run_tac, VirtualMachine.execute.
  apply loop_ended_well.
  - apply generate_stack_checked.
  - by apply generate_jumps_land.
  - exists 0. cbn. split; [done|]. split; [lia|done].
Qed.



End generated_bytecode_runs.

(** ** The analyser on expressions *)

Section analyzer_typing.
Import SemanticAnalyzer.

Local Ltac in_list :=
  repeat first [apply list_elem_of_here | apply list_elem_of_further].

Local Ltac not_in_list H :=
  repeat (apply elem_of_cons in H as [H|H]; [discriminate H|]);
  by apply elem_of_nil in H.

(** What the rules ask of the operands of a binary operator. *)
Lemma has_type_binop_inv st o l r ty :
  has_type st (BinaryOp o l r) ty →
  ∃ lt rt, has_type st l lt ∧ has_type st r rt
    ∧ match o with
      | op_add | op_sub | op_mul | op_div | op_mod =>
          ty = int_t ∧ lt = int_t ∧ rt = int_t
      | op_lt | op_gt | op_lte | op_gte =>
          ty = bool_t ∧ lt = int_t ∧ rt = int_t
      | op_eq | op_neq => ty = bool_t ∧ lt = rt
      | op_and | op_or => ty = bool_t ∧ lt = bool_t ∧ rt = bool_t
      end.
Proof.
  inversion 1 as [| |o' l' r' Ho Hl Hr|o' l' r' Ho Hl Hr
                 |o' l' r' ty' Ho Hl Hr|o' l' r' Ho Hl Hr| |]; subst;
    eexists _, _; (split; [exact Hl|]); (split; [exact Hr|]);
    destruct o; first [done | not_in_list Ho].
Qed.

(** What [analyze] does on an expression, against the typing rules: the
    table is left alone, the errors it appends are none exactly when the
    rules give the expression a type, and that type is then the one it
    returns. *)
Lemma analyze_expr_typing e : ∀ a,
  ∃ errs,
    (analyze_expr e a).2 = mk (symbol_table a) (errors a ++ errs)
    ∧ (errs = [] → has_type (symbol_table a) e (analyze_expr e a).1)
    ∧ ∀ ty, has_type (symbol_table a) e ty →
            ty = (analyze_expr e a).1 ∧ errs = [].
Proof.
  induction e as [o l IHl r IHr|o x IHx|v ty|name]; intros a.
  - destruct (IHl a) as (e1 & H1 & Hok1 & Hty1).
    destruct (IHr (analyze_expr l a).2) as (e2 & H2 & Hok2 & Hty2).
    rewrite H1 in H2, Hok2, Hty2. cbn [symbol_table errors] in H2, Hok2, Hty2.
    cbn [analyze_expr].
    destruct (analyze_expr l a) as [lt a1]. cbn [fst snd] in *. subst a1.
    destruct (analyze_expr r _) as [rt a2]. cbn [fst snd] in *. subst a2.
    assert (∀ (b : bool) msg,
              ∃ errs,
                (if b then error msg (mk (symbol_table a)
                                        ((errors a ++ e1) ++ e2))
                 else mk (symbol_table a) ((errors a ++ e1) ++ e2))
                = mk (symbol_table a) (errors a ++ errs)
                ∧ (errs = [] ↔ e1 = [] ∧ e2 = [] ∧ b = false)) as Herr.
    { intros b msg. destruct b.
      - exists (e1 ++ e2 ++ [msg]). unfold error. cbn.
        rewrite <- !(assoc_L (++)). split; [done|].
        split; [|by intros (_ & _ & ?)].
        intros H. apply app_eq_nil in H as [_ H].
        apply app_eq_nil in H as [_ H]. done.
      - exists (e1 ++ e2). rewrite <- !(assoc_L (++)). split; [done|].
        split; [by intros [-> ->]%app_eq_nil|by intros (-> & -> & _)]. }
    destruct o; cbn [fst snd];
      match goal with
      | |- context [if bool_decide ?P then error ?msg _ else _] =>
          destruct (Herr (bool_decide P) msg) as (errs & -> & Hnil)
      end;
      exists errs; (split; [done|]);
      (split;
       [ intros (-> & -> & Hb%bool_decide_eq_false)%Hnil;
         specialize (Hok1 eq_refl); specialize (Hok2 eq_refl);
         destruct lt, rt;
         try (exfalso; apply Hb; first [by left | by right | done]);
         first [ by (apply type_arithmetic; [in_list|done..])
               | by (apply type_comparison; [in_list|done..])
               | by (apply type_logical; [in_list|done..])
               | by (eapply type_equality; [in_list|eassumption..]) ]
       | intros ty Hty;
         apply has_type_binop_inv in Hty as (lt' & rt' & Hl & Hr & Ho);
         apply Hty1 in Hl as [-> ->]; apply Hty2 in Hr as [-> ->];
         cbn in Ho; destruct_and?; subst; (split; [done|]); apply Hnil;
         (split; [done|]); (split; [done|]); apply bool_decide_eq_false;
         intros ?; destruct_or?; done ]).
  - destruct (IHx a) as (e1 & H1 & Hok1 & Hty1).
    cbn [analyze_expr].
    destruct (analyze_expr x a) as [xt a1]. cbn [fst snd] in *. subst a1.
    destruct o; cbn [fst snd]; case_bool_decide as Hb.
    + exists (e1 ++ [msg_minus]). unfold error. cbn.
      rewrite <- (assoc_L (++)). split; [done|]. split.
      * by intros [_ ?]%app_eq_nil.
      * intros ty Hty. inversion Hty; subst.
        match goal with H : has_type _ x _ |- _ => apply Hty1 in H as [? ?] end.
        done.
    + exists e1. split; [done|]. split.
      * intros ->. apply type_minus. destruct xt; [by apply Hok1|done].
      * intros ty Hty. inversion Hty; subst.
        match goal with H : has_type _ x _ |- _ => apply Hty1 in H as [? ?] end.
        done.
    + exists (e1 ++ [msg_not]). unfold error. cbn.
      rewrite <- (assoc_L (++)). split; [done|]. split.
      * by intros [_ ?]%app_eq_nil.
      * intros ty Hty. inversion Hty; subst.
        match goal with H : has_type _ x _ |- _ => apply Hty1 in H as [? ?] end.
        done.
    + exists e1. split; [done|]. split.
      * intros ->. apply type_not. destruct xt; [done|by apply Hok1].
      * intros ty Hty. inversion Hty; subst.
        match goal with H : has_type _ x _ |- _ => apply Hty1 in H as [? ?] end.
        done.
  - exists []. cbn. split; [destruct a; cbn; by rewrite app_nil_r|].
    split; [intros _; constructor|]. intros ty' Hty. by inversion Hty.
  - cbn. destruct (SymbolTable.lookup name (symbol_table a)) as [sym|] eqn:E.
    + exists []. cbn. split; [destruct a; cbn; by rewrite app_nil_r|].
      split; [intros _; by constructor|].
      intros ty' Hty. inversion Hty; subst. split; [congruence|done].
    + exists [msg_undeclared name]. cbn. split; [done|]. split; [done|].
      intros ty' Hty. inversion Hty; subst. congruence.
Qed.

(** X13: [analyze], on an expression, implements the typing rules: it
    appends no error exactly when the rules give the expression a type under
    the table's bindings, the type it returns is then that type (the rules
    give at most one), and it never changes the table. *)
Theorem X13_analyze_expr_follows_typing_rules (e : expr) (a : t) :
  (has_type (symbol_table a) e (analyze_expr e a).1
   ↔ errors (analyze_expr e a).2 = errors a)
  ∧ (∀ ty, has_type (symbol_table a) e ty → ty = (analyze_expr e a).1)
  ∧ symbol_table (analyze_expr e a).2 = symbol_table a.
Proof.
  destruct (analyze_expr_typing e a) as (errs & Ha & Hok & Hty).
  rewrite Ha. cbn. split; [|split; [|done]].
  - split.
    + intros [_ ->]%Hty. by rewrite app_nil_r.
    + intros Herrs. apply Hok.
      rewrite <- (app_nil_r (errors a)) in Herrs at 2.
      by apply app_inv_head in Herrs.
  - intros ty H. by apply Hty.
Qed.
End analyzer_typing.

(** ** Programs without loops *)

Section forward_jumps.
Import TACGenerator.

Lemma app_cons_snoc {A} (pre post sk : list A) (j x : A) :
  pre ++ j :: post = sk ++ [x] →
  (post = [] ∧ j = x ∧ pre = sk)
  ∨ ∃ post0, post = post0 ++ [x] ∧ sk = pre ++ j :: post0.
Proof.
  destruct post as [|y post _] using rev_ind; intros H.
  - apply app_inj_tail in H as [-> ->]. by left.
  - right. exists post.
    rewrite app_comm_cons, (assoc_L (++)) in H.
    by apply app_inj_tail in H as [<- ->].
Qed.

Lemma omap_eq_app_cons {A B} (f : A → option B) l pre' x post' :
  omap f l = pre' ++ x :: post' →
  ∃ pre i post, l = pre ++ i :: post ∧ omap f pre = pre'
                ∧ f i = Some x ∧ omap f post = post'.
Proof.
  revert pre'. induction l as [|a l IH]; intros pre' H; cbn in H.
  - by destruct pre'.
  - destruct (f a) as [y|] eqn:Hfa.
    + destruct pre' as [|z pre']; cbn in H; injection H as -> H.
      * exists [], a, l. by rewrite Hfa.
      * destruct (IH _ H) as (pre & i & post & -> & <- & Hi & <-).
        exists (a :: pre), i, post. cbn. by rewrite Hfa.
    + destruct (IH _ H) as (pre & i & post & -> & <- & Hi & <-).
      exists (a :: pre), i, post. cbn. by rewrite Hfa.
Qed.

Lemma forward_upto_weaken pending pending' l :
  (∀ t, t ∈ pending → t ∈ pending') →
  forward_upto pending l → forward_upto pending' l.
Proof.
  intros Hsub H pre i post t Hl Ht.
  destruct (H pre i post t Hl Ht) as [Hs [Hd|Hp]]; auto.
Qed.

(** Appending one instruction: the pending labels it does not define stay
    pending, and its own target is pending. *)
Lemma forward_upto_emit pending pending' o a1 a2 r g :
  forward_upto pending (instructions g) →
  (∀ t, t ∈ pending →
        label_of (TACInstr o a1 a2 r) = Some t ∨ t ∈ pending') →
  (∀ t, target_of (TACInstr o a1 a2 r) = Some t →
        is_Some t ∧ t ∈ pending') →
  forward_upto pending' (instructions (emit o a1 a2 r g)).
Proof.
  intros H Hpend Htarget pre j post t Heq Ht.
  change (instructions (emit o a1 a2 r g))
    with (instructions g ++ [TACInstr o a1 a2 r]) in Heq.
  symmetry in Heq.
  apply app_cons_snoc in Heq as [(-> & -> & ->)|(post0 & -> & Hl)].
  - destruct (Htarget t Ht) as [? ?]. auto.
  - destruct (H pre j post0 t Hl Ht) as [Hs [Hd|Hp]]; (split; [done|]).
    + left. unfold defined_labels. rewrite omap_app, elem_of_app. by left.
    + destruct (Hpend t Hp) as [Hlab|Hp']; [|by right].
      left. unfold defined_labels. rewrite omap_app, elem_of_app. right.
      cbn. rewrite Hlab. apply list_elem_of_here.
Qed.

Lemma forward_upto_emit_plain pending o a1 a2 r g :
  target_of (TACInstr o a1 a2 r) = None →
  forward_upto pending (instructions g) →
  forward_upto pending (instructions (emit o a1 a2 r g)).
Proof.
  intros Ho H. apply (forward_upto_emit pending); [done|auto|].
  intros t Ht. congruence.
Qed.

Lemma forward_upto_emit_jump pending o a1 a2 s g :
  Some s ∈ pending →
  forward_upto pending (instructions g) →
  forward_upto pending (instructions (emit o a1 a2 (Some s) g)).
Proof.
  intros Hs H. apply (forward_upto_emit pending); [done|auto|].
  unfold target_of. cbn. intros t Ht.
  destruct o; try done; injection Ht as <-; by split.
Qed.

Lemma forward_upto_emit_label pending s g :
  forward_upto (Some s :: pending) (instructions g) →
  forward_upto pending
    (instructions (emit TACOp.LABEL ONone ONone (Some s) g)).
Proof.
  intros H. apply (forward_upto_emit (Some s :: pending)); [done| |done].
  intros t [->|Ht]%elem_of_cons; [by left|by right].
Qed.

Lemma generate_expr_forward pending e g :
  forward_upto pending (instructions g) →
  forward_upto pending (instructions (generate_expr e g).2).
Proof.
  revert g. induction e as [o l IHl r IHr|o x IHx|v ty|name]; intros g Hg;
    cbn -[emit].
  - specialize (IHl g Hg). destruct (generate_expr l g) as [lt g1].
    specialize (IHr g1 IHl). destruct (generate_expr r g1) as [rt g2].
    cbn [snd] in *. apply forward_upto_emit_plain; [by destruct o|done].
  - specialize (IHx g Hg). destruct (generate_expr x g) as [xt g1].
    cbn [snd] in *. apply forward_upto_emit_plain; [by destruct o|done].
  - by apply forward_upto_emit_plain.
  - done.
Qed.

Lemma generate_block_forward (l : list stmt) :
  Forall (λ s, no_while s = true →
               ∀ pending g, forward_upto pending (instructions g) →
                 forward_upto pending (instructions (generate_stmt s g))) l →
  forallb no_while l = true →
  ∀ pending g, forward_upto pending (instructions g) →
    forward_upto pending
      (instructions (fold_left (λ g s, generate_stmt s g) l g)).
Proof.
  intros Hl Hok pending g Hg.
  apply (generate_block (λ g, forward_upto pending (instructions g))
           no_while l); [|done..].
  eapply Forall_impl; [exact Hl|]. cbn. auto.
Qed.

Lemma generate_stmt_forward s :
  no_while s = true →
  ∀ pending g, forward_upto pending (instructions g) →
    forward_upto pending (instructions (generate_stmt s g)).
Proof.
  induction s as [ty name init|name e|c tb eb IHt IHe|c body IH|e]
    using stmt_induction; intros Hs pending g Hg; cbn -[emit];
    cbn [no_while] in Hs.
  - destruct init as [e|]; [|done].
    pose proof (generate_expr_forward pending e g Hg) as H1.
    destruct (generate_expr e g) as [vt g1].
    by apply forward_upto_emit_plain.
  - pose proof (generate_expr_forward pending e g Hg) as H1.
    destruct (generate_expr e g) as [vt g1].
    by apply forward_upto_emit_plain.
  - apply andb_prop in Hs as [Hst Hse].
    pose proof (generate_expr_forward pending c g Hg) as H1.
    destruct (generate_expr c g) as [ct g1]. cbn [snd] in H1.
    set (else_label := label_name (label_counter g1)).
    set (end_label := label_name (S (label_counter g1))).
    set (g2 := (new_label (new_label g1).2).2).
    set (inner := Some else_label :: Some end_label :: pending).
    assert (forward_upto inner (instructions g2)) as H2.
    { apply (forward_upto_weaken pending); [|exact H1].
      intros t Ht. unfold inner. by do 2 apply list_elem_of_further. }
    pose proof (generate_block_forward tb IHt Hst _ _
                  (forward_upto_emit_jump inner TACOp.IF_FALSE (OName ct)
                     ONone else_label g2 ltac:(apply list_elem_of_here) H2))
      as H3.
    set (g3 := fold_left _ tb _) in *.
    pose proof (forward_upto_emit_jump inner TACOp.GOTO ONone ONone
                  end_label g3
                  ltac:(apply list_elem_of_further, list_elem_of_here) H3)
      as H4.
    pose proof (forward_upto_emit_label _ else_label _ H4) as H5.
    set (g5 := emit TACOp.LABEL ONone ONone (Some else_label) _) in *.
    destruct eb as [[|s0 rest]|]; apply forward_upto_emit_label; try done.
    by apply (generate_block_forward (s0 :: rest) IHe).
  - done.
  - pose proof (generate_expr_forward pending e g Hg) as H1.
    destruct (generate_expr e g) as [vt g1].
    by apply forward_upto_emit_plain.
Qed.

(** In the TAC of a program without [while], every jump goes forward. *)
Lemma tac_of_jumps_forward (p : Program) :
  forallb no_while p = true → jumps_forward (TinyLangFullCompiler.tac_of p).
Proof.
  intros Hp. unfold TinyLangFullCompiler.tac_of, generate, jumps_forward.
  apply generate_block_forward; [|done|].
  - apply Forall_forall. intros s _. apply generate_stmt_forward.
  - intros pre i post t Hl. by destruct pre.
Qed.
End forward_jumps.

Section forward_jumps_through_the_optimizer.
Import TACOptimizer.

Lemma control_of_Some i lb tg :
  control_of i = Some (lb, tg) → label_of i = lb ∧ target_of i = tg.
Proof.
  unfold control_of.
  destruct (label_of i), (target_of i); intros [= <- <-]; done.
Qed.

Lemma control_of_same i i' : same_control i i' → control_of i = control_of i'.
Proof. unfold control_of. by intros [-> ->]. Qed.

Lemma defined_labels_control l :
  omap fst (omap control_of l) = defined_labels l.
Proof.
  unfold defined_labels. induction l as [|i l IH]; [done|]. cbn.
  unfold control_of at 1.
  destruct (label_of i) as [lb|], (target_of i) as [tg|]; cbn;
    by rewrite IH.
Qed.

Lemma optimize_control_of l :
  omap control_of (optimize l) = omap control_of l.
Proof.
  unfold optimize, constant_folding, fold_loop.
  rewrite algebraic_simplification_map, dead_code_elimination_filter.
  rewrite omap_fmap_same
    by (intros i; apply control_of_same, simplify_instr_control).
  rewrite omap_filter_None.
  - apply omap_fold_from. intros c i.
    apply control_of_same, fold_instr_control.
  - intros i Hi. unfold control_of.
    by destruct (dce_keeps_control _ i Hi) as [-> ->].
Qed.

(** Two lists with the same labels and jumps in the same order: if the
    jumps of one go forward, so do those of the other. *)
Lemma jumps_forward_same_control l l' :
  omap control_of l = omap control_of l' →
  jumps_forward l → jumps_forward l'.
Proof.
  intros Heq H pre i post t -> Ht.
  rewrite omap_app in Heq. cbn in Heq.
  assert (control_of i = Some (label_of i, Some t)) as Hi.
  { unfold control_of. rewrite Ht. by destruct (label_of i). }
  rewrite Hi in Heq.
  apply omap_eq_app_cons in Heq as (pre0 & i0 & post0 & -> & _ & Hi0 & Hpost).
  apply control_of_Some in Hi0 as [_ Ht0].
  destruct (H pre0 i0 post0 t eq_refl Ht0) as [Hs [Hd|Hp]];
    [|by apply elem_of_nil in Hp].
  split; [done|]. left.
  by rewrite <- defined_labels_control, <- Hpost, defined_labels_control.
Qed.

Lemma optimize_jumps_forward l : jumps_forward l → jumps_forward (optimize l).
Proof.
  apply jumps_forward_same_control. symmetry. apply optimize_control_of.
Qed.
End forward_jumps_through_the_optimizer.

Section forward_jumps_in_bytecode.
Import BytecodeGenerator.

Lemma lookup_flat_map_lower tac : ∀ k x,
  flat_map lower tac !! k = Some x →
  ∃ pre i post, tac = pre ++ i :: post ∧ x ∈ lower i
                ∧ k < length (flat_map lower (pre ++ [i])).
Proof.
  induction tac as [|a tac IH]; intros k x Hk; [done|]. cbn in Hk.
  destruct (decide (k < length (lower a))) as [Hlt|Hge].
  - rewrite lookup_app_l in Hk by done.
    exists [], a, tac. split; [done|]. split.
    + by eapply list_elem_of_lookup_2.
    + cbn. rewrite app_nil_r. done.
  - rewrite lookup_app_r in Hk by lia.
    destruct (IH _ _ Hk) as (pre & i & post & -> & Hx & Hlen).
    exists (a :: pre), i, post. split; [done|]. split; [done|].
    cbn. rewrite length_app. lia.
Qed.

Lemma lower_jump i x :
  x ∈ lower i → BytecodeOp.is_jump (bop x) = true →
  ∃ t, target_of i = Some t ∧ arg x = operand_of_result t.
Proof.
  unfold lower.
  destruct (_generate_instruction_appends i init) as (code & -> & Hcode).
  cbn. apply Hcode.
Qed.

Lemma last_label post t :
  t ∈ defined_labels post →
  ∃ p1 i p2, post = p1 ++ i :: p2 ∧ label_of i = Some t
             ∧ t ∉ defined_labels p2.
Proof.
  unfold defined_labels.
  induction post as [|a post IH]; intros Ht; [by apply elem_of_nil in Ht|].
  destruct (decide (t ∈ omap label_of post)) as [Hin|Hout].
  - destruct (IH Hin) as (p1 & i & p2 & -> & Hi & Hp2).
    by exists (a :: p1), i, p2.
  - exists [], a, post. split; [done|]. split; [|done].
    cbn in Ht. destruct (label_of a) as [lb|]; [|done].
    apply elem_of_cons in Ht as [->|Ht]; done.
Qed.

Lemma first_pass_label_address pre i post t :
  label_of i = Some t → t ∉ defined_labels post →
  labels (fold_left first_pass_step (pre ++ i :: post) init) !! t
  = Some (length (flat_map lower pre)).
Proof.
  intros Hi Ht. rewrite fold_left_app. cbn [fold_left].
  rewrite first_pass_labels_other by done.
  unfold first_pass_step at 1. unfold label_of in Hi.
  destruct (op i); try done. injection Hi as ->. cbn [labels].
  by rewrite lookup_insert_eq, first_pass_bytecode.
Qed.

(** In the bytecode of a TAC list whose jumps go forward, every jump goes
    to an index after its own. *)
Lemma generate_jumps_ahead (tac : list TACInstruction) :
  jumps_forward tac → jumps_ahead (generate tac).
Proof.
  intros Hfwd k j Hk Hjump.
  unfold generate, generate_from, _resolve_labels, append in Hk.
  cbn [bytecode labels] in Hk. rewrite first_pass_bytecode in Hk.
  change (bytecode init) with (@nil BytecodeInstruction) in Hk.
  cbn [app] in Hk. change (map ?f ?l) with (f <$> l) in Hk.
  rewrite list_lookup_fmap in Hk.
  destruct ((flat_map lower tac ++ [BytecodeInstr BytecodeOp.HALT ONone])
              !! k) as [j0|] eqn:Hj0; [|done].
  injection Hk as <-.
  assert (BytecodeOp.is_jump (bop j0) = true) as Hjump0.
  { revert Hjump. unfold resolve_instr.
    destruct (BytecodeOp.is_jump (bop j0)) eqn:E; [done|]. by rewrite E. }
  apply lookup_app_Some in Hj0 as [Hj0|[_ Hj0]]; last first.
  { apply list_elem_of_lookup_2, list_elem_of_singleton in Hj0 as ->. done. }
  destruct (lookup_flat_map_lower _ _ _ Hj0)
    as (pre & i & post & -> & Hx & Hlen).
  destruct (lower_jump i j0 Hx Hjump0) as (t & Ht & Harg).
  destruct (Hfwd pre i post t eq_refl Ht) as [[s ->] [Hd|Hp]];
    [|by apply elem_of_nil in Hp].
  destruct (last_label post _ Hd) as (p1 & i' & p2 & -> & Hi' & Hp2).
  pose proof (first_pass_label_address (pre ++ i :: p1) i' p2 _ Hi' Hp2)
    as Haddr.
  rewrite <- (assoc_L (++)) in Haddr. cbn [app] in Haddr.
  exists (length (flat_map lower (pre ++ i :: p1))). split.
  - unfold resolve_instr. rewrite Hjump0, Harg. cbn. by rewrite Haddr.
  - rewrite !flat_map_app, !length_app in *. cbn in *.
    rewrite !length_app in *. cbn in Hlen. lia.
Qed.
End forward_jumps_in_bytecode.

Section vm_on_forward_bytecode.
Import VirtualMachine.
Variable bytecode : list BytecodeInstruction.
Hypothesis Hchecked : stack_checked bytecode 0 = true.
Hypothesis Hjumps : jumps_land bytecode.
Hypothesis Hahead : jumps_ahead bytecode.

(** Where one instruction leaves [pc]. *)
Lemma step_pc i vm vm' :
  step i vm = Next vm' →
  pc vm' = (pc vm + 1)%Z
  ∨ (BytecodeOp.is_jump (bop i) = true
     ∧ ∃ v, arg i = OImm v ∧ pc vm' = int_of v).
Proof.
  unfold step, binary, unary, advance, jump.
  destruct (bop i); cbn;
    repeat case_match; intros [= <-]; cbn; eauto.
Qed.

(** With forward jumps only, the loop of [execute] ends within as many
    iterations as there are instructions left. *)
Lemma loop_finishes fuel : ∀ vm (k : nat),
  pc vm = Z.of_nat k → k ≤ length bytecode →
  length (stack vm) = height_after (take k bytecode) 0 →
  length bytecode - k < fuel →
  ∃ vm', loop fuel bytecode vm = Finished vm' ∧ stack vm' = [].
Proof.
  induction fuel as [|fuel IH]; intros vm k Hpc Hk Hlen Hfuel; [lia|].
  cbn. case_decide as Hin.
  - assert (k < length bytecode) as Hlt by lia.
    destruct (lookup_lt_is_Some_2 bytecode k Hlt) as [i Hi].
    rewrite Hpc, (fetch_nat bytecode k i Hi).
    pose proof (step_in_step bytecode Hchecked Hjumps vm k i Hpc Hi Hlen)
      as Hstep.
    pose proof (step_pc i vm) as Hnext.
    destruct (step i vm) as [vm1|vm1| |]; try done; [|by exists vm1].
    destruct Hstep as (k1 & Hpc1 & Hk1 & Hlen1).
    apply (IH vm1 k1); try done.
    destruct (Hnext vm1 eq_refl) as [Hp|(Hj & v & Hv & Hp)]; [lia|].
    destruct (Hahead k i Hi Hj) as (t & Ht & Hkt).
    rewrite Ht in Hv. injection Hv as <-. cbn in Hp. lia.
  - exists vm. split; [done|].
    assert (k = length bytecode) as -> by lia.
    rewrite firstn_all in Hlen.
    rewrite (stack_checked_height _ _ Hchecked) in Hlen.
    by apply nil_length_inv.
Qed.
End vm_on_forward_bytecode.

Section programs_without_loops.


End programs_without_loops.
